(** * csv2gexf: the schema-driven pipeline of [lib/index.js]

    A shallow embedding of [lib/index.js] ([loadCSV], [checkSchema],
    [parseValues], [deriveModel], [addNodes], [addEdges], [createGexf],
    [saveGexf], [convert]) and of [formatXml] of [lib/utils.js], with the
    properties of them that the specification states and others that the
    code shows.  [clone] of [lib/utils.js], which nothing calls, is not
    embedded.

    The source holds two revisions of [lib/index.js], one after the other.
    The embedding is of the second, lines 570 to 1134, whose declarations
    are the ones in force.  The first, lines 1 to 568, has the same
    [checkSchema], [parseValues], [parseBoolean], [deriveModel],
    [createGexf], [saveGexf] and [convert]; its [parseColumn],
    [assertColumn], [addNodes] and [addEdges] start their record loops at
    index 1, and its [addEdges] makes the missing id of an edge from the
    column counter.  Those four are embedded too, under the names
    [parseColumn_rev1], [assertColumn_rev1], [addNodes_rev1] and
    [addEdges_rev1].

    Conventions of the embedding.
    - A CSV record is a JavaScript object whose keys are the column headers;
      it is an association list in the order [Object.keys] enumerates it.
      The records of a table are the fresh objects that [csv.parse] made, no
      two of them the same object: a record set is a list of values, handed
      on by the functions that assign to cells.  When such a function throws,
      the records it worked on are not reachable any more.  Reading a key
      that a record does not have gives [undefined]; assigning to such a
      key adds it at the place where [Object.keys] enumerates it, an array
      index before the other keys.
    - A schema is an array whose elements are strings or references to
      objects.  The objects live in a heap, since the program assigns to
      their fields ([spec.id = header], [spec.target = 'attributes']) and two
      positions of a schema may hold the same object.
    - An exception is an [outcome]; a function that assigns to schema objects
      is a computation over the heap, and the heap survives a throw.
    - JavaScript numbers are kept abstract, together with the built-in
      [parseFloat] and [parseInt]. *)

From stdpp Require Import base option list strings gmap pretty.
From Stdlib Require Import Ascii ZArith Lia.

Local Open Scope string_scope.
Local Open Scope Z_scope.

(** ** Exceptions and outcomes *)

Inductive exn : Type :=
  | Error (msg : string)           (* [new Error(msg)] *)
  | TypeError (msg : string)       (* raised by the engine *)
  | ReferenceError (name : string) (* read of an identifier that is not declared *)
  | Reason (msg : string).         (* a plain string handed to [reject] *)

Inductive outcome (A : Type) : Type :=
  | Return (a : A)
  | Throw (e : exn).
Arguments Return {A} a.
Arguments Throw {A} e.

Definition obind {A B} (x : outcome A) (k : A → outcome B) : outcome B :=
  match x with
  | Return a => k a
  | Throw e => Throw e
  end.

(** ** Schema objects and the heap *)

Record specObj : Type := SpecObj {
  spec_target : option string;
  spec_id : option string;
  spec_title : option string;
  spec_type : option string
}.

Global Instance specObj_inhabited : Inhabited specObj :=
  populate (SpecObj None None None None).

Definition loc := nat.
Abbreviation heap := (gmap loc specObj).

Inductive schemaEl : Type :=
  | SString (s : string)             (* [typeof spec == 'string'] *)
  | SObject (l : loc)                (* a reference to an object *)
  | SNull                            (* [null]: its [typeof] is ['object'] *)
  | SUndefined                       (* [undefined], also a hole of the array *)
  | SPrim (shown ty : string).       (* a number, boolean, ...: its rendering and its [typeof] *)
Arguments SObject l%_nat_scope.

Global Instance schemaEl_eq_dec : EqDecision schemaEl.
Proof. solve_decision. Defined.

(** [schema[coli]]: reading past the end of an array gives [undefined]. *)
Definition schema_at (schema : list schemaEl) (coli : nat) : schemaEl :=
  default SUndefined (schema !! coli).

Definition with_target (o : specObj) (t : string) : specObj :=
  SpecObj (Some t) (spec_id o) (spec_title o) (spec_type o).
Definition with_id (o : specObj) (i : string) : specObj :=
  SpecObj (spec_target o) (Some i) (spec_title o) (spec_type o).
Definition with_title (o : specObj) (t : option string) : specObj :=
  SpecObj (spec_target o) (spec_id o) t (spec_type o).

(** ** Computations over a mutable state that may throw

    [ST S A] is a computation that reads and updates a state [S] and either
    returns an [A] or throws; the state reached so far survives a throw.
    [M] is the instance whose state is the heap of schema objects. *)

Definition ST (S A : Type) : Type := S → S * outcome A.

Global Instance outcome_ret : MRet outcome := @Return.
Global Instance outcome_bind : MBind outcome := λ A B k x, obind x k.

Global Instance ST_ret {S} : MRet (ST S) := λ A a s, (s, Return a).
Global Instance ST_bind {S} : MBind (ST S) := λ A B k m s,
  match m s with
  | (s', Return a) => k a s'
  | (s', Throw e) => (s', Throw e)
  end.

Definition throw {S A} (e : exn) : ST S A := λ s, (s, Throw e).
Definition lift {S A} (x : outcome A) : ST S A := λ s, (s, x).

Abbreviation M := (ST heap).

Definition read (l : loc) : M specObj := λ h, (h, Return (h !!! l)).
Definition write (l : loc) (o : specObj) : M unit := λ h, (<[l := o]> h, Return tt).

(** [for (...) body], stopping at the first throw. *)
Fixpoint for_each `{!MBind F, !MRet F} {A} (xs : list A) (body : A → F unit) : F unit :=
  match xs with
  | [] => mret tt
  | x :: xs' => body x;; for_each xs' body
  end.

(** A loop that carries a local value from one round to the next. *)
Fixpoint fold_each `{!MBind F, !MRet F} {A B} (xs : list A) (body : B → A → F B) (b : B) : F B :=
  match xs with
  | [] => mret b
  | x :: xs' => b' ← body b x; fold_each xs' body b'
  end.

(** ** Strings *)

(** [Array.prototype.indexOf] with strict equality [eqb]: the first index of
    [x], or [-1]. *)
Fixpoint indexOf_from {A B} (eqb : A → B → bool) (l : list A) (x : B) (i : Z) : Z :=
  match l with
  | [] => -1
  | a :: l' => if eqb a x then i else indexOf_from eqb l' x (i + 1)
  end.
Definition indexOf {A B} (eqb : A → B → bool) (l : list A) (x : B) : Z :=
  indexOf_from eqb l x 0.

(** A string against a string or [undefined]. *)
Definition str_is_opt (s : string) (o : option string) : bool :=
  match o with
  | Some t => String.eqb s t
  | None => false
  end.

(** An array element of a schema against a string. *)
Definition el_is_str (e : schemaEl) (s : string) : bool :=
  match e with
  | SString t => String.eqb t s
  | _ => false
  end.

(** [`${x}`] for a field that is a string or [undefined]. *)
Definition show_opt (o : option string) : string :=
  match o with
  | Some s => s
  | None => "undefined"
  end.

(** [String.prototype.toUpperCase], on the ASCII letters; every other
    character is left as it is.  (The program compares the result with
    ['TRUE'] only, and no character outside the ASCII letters has an upper
    case made of the letters of ['TRUE'] alone.) *)
Definition upper_ascii (c : ascii) : ascii :=
  let n := nat_of_ascii c in
  if ((97 <=? n)%nat && (n <=? 122)%nat)%bool then ascii_of_nat (n - 32) else c.
Fixpoint toUpperCase (s : string) : string :=
  match s with
  | EmptyString => EmptyString
  | String c s' => String (upper_ascii c) (toUpperCase s')
  end.

(** An array index: the decimal numeral, without a leading zero, of a number
    below [2^32 - 1].  The keys of an object that are array indices are
    enumerated first, in ascending order. *)
Definition digit (c : ascii) : option Z :=
  let n := Z.of_nat (nat_of_ascii c) in
  if (48 <=? n) && (n <=? 57) then Some (n - 48) else None.

Fixpoint numeral (s : string) (acc : Z) : option Z :=
  match s with
  | EmptyString => Some acc
  | String c s' =>
      match digit c with
      | Some d => numeral s' (10 * acc + d)
      | None => None
      end
  end.

Definition array_index (k : string) : option Z :=
  match k with
  | EmptyString => None
  | String c rest =>
      if Ascii.eqb c "0" && negb (String.eqb rest "") then None
      else match numeral k 0 with
           | Some n => if n <? 4294967295 then Some n else None
           | None => None
           end
  end.

(** Whether a key [k] that an object gets is enumerated before a key [k']
    that it has: an array index comes before every larger one and before
    every other key; a key that is no array index comes last. *)
Definition enumerated_before (k k' : string) : bool :=
  match array_index k, array_index k' with
  | Some n, Some m => n <? m
  | Some _, None => true
  | None, _ => false
  end.

(** ** Cells, records *)

Section Program.

Context {Num : Type}.

Inductive value : Type :=
  | VUndefined
  | VString (s : string)
  | VNumber (n : Num)
  | VBoolean (b : bool).

(** The built-in functions on numbers that the program uses. *)
Variable parseFloat : value → Num.
Variable parseInt : value → Num.
Variable numToString : Num → string.

Definition record : Type := list (string * value).

(** [Object.keys(r)] *)
Definition keys (r : record) : list string := r.*1.

(** [r[header]] *)
Fixpoint get (r : record) (header : string) : value :=
  match r with
  | [] => VUndefined
  | (k, v) :: r' => if String.eqb k header then v else get r' header
  end.

(** [r[header] = v] for a key that the record has: the key keeps its place. *)
Fixpoint replace_key (r : record) (header : string) (v : value) : record :=
  match r with
  | [] => []
  | (k, w) :: r' =>
      if String.eqb k header then (k, v) :: r' else (k, w) :: replace_key r' header v
  end.

(** [r[header] = v] for a key that the record does not have: the key takes
    the place at which [Object.keys] enumerates it. *)
Fixpoint add_key (r : record) (header : string) (v : value) : record :=
  match r with
  | [] => [(header, v)]
  | (k, w) :: r' =>
      if enumerated_before header k then (header, v) :: (k, w) :: r'
      else (k, w) :: add_key r' header v
  end.

(** [r[header] = v] *)
Definition assign (r : record) (header : string) (v : value) : record :=
  if existsb (String.eqb header) (keys r) then replace_key r header v
  else add_key r header v.

(** [Object.keys(records[0])] *)
Definition first_keys (records : list record) : outcome (list string) :=
  match records with
  | [] => Throw (TypeError "Cannot convert undefined or null to object")
  | r :: _ => Return (keys r)
  end.

(** What a callback of [assertColumn] may be handed: a cell or a whole record. *)
Inductive jsval : Type :=
  | JCell (v : value)
  | JRecord (r : record).

Definition str_is_js (s : string) (x : jsval) : bool :=
  match x with
  | JCell (VString t) => String.eqb s t
  | _ => false
  end.

(** [`${x}`].  A record is rendered by its [toString], which is that of
    [Object.prototype] unless the record has a key ['toString'] of its own;
    the cell under such a key is no function, and the conversion throws. *)
Definition show_js (x : jsval) : outcome string :=
  match x with
  | JCell VUndefined => Return "undefined"
  | JCell (VString s) => Return s
  | JCell (VNumber n) => Return (numToString n)
  | JCell (VBoolean b) => Return (if b then "true" else "false")
  | JRecord r =>
      if existsb (String.eqb "toString") (keys r)
      then Throw (TypeError "Cannot convert object to primitive value")
      else Return "[object Object]"
  end.

(** ** checkSchema *)

Definition nodeStringSpecs : list string := ["id"; "label"].
Definition edgeStringSpecs : list string :=
  ["id"; "label"; "source"; "target"; "type"; "weight"].
Definition attributeTypes : list string := ["string"; "integer"; "float"; "boolean"].
Definition nodeVizIds : list string := ["color"; "size"; "shape"].
Definition edgeVizIds : list string := ["color"; "thickness"; "shape"].

Definition ctxt_of (isNodeSchema : bool) : string :=
  "in the " +:+ (if isNodeSchema then "node" else "edge") +:+ " schema".

Definition length_mismatch_msg (ncols nspecs : nat) (ctxt : string) : string :=
  "There are " +:+ pretty ncols +:+ " columns and " +:+ pretty nspecs
  +:+ " schema elements" +:+ " " +:+ ctxt +:+ ". These numbers should be equal.".

(** The body of the column loop of [checkSchema]. *)
Definition checkSchema_column (isNodeSchema : bool) (ctxt : string)
    (spec : schemaEl) (header : string) : M unit :=
  match spec with
  | SString s =>
      if isNodeSchema && (indexOf String.eqb nodeStringSpecs s <? 0) then
        throw (Error ("Unexpected node schema element '" +:+ s +:+ "' " +:+ ctxt +:+ "."))
      else if negb isNodeSchema && (indexOf String.eqb edgeStringSpecs s <? 0) then
        throw (Error ("Unexpected edge schema element '" +:+ s +:+ "' " +:+ ctxt +:+ "."))
      else mret tt
  | SUndefined =>
      throw (Error ("A schema element must be either a string or an object, got '"
                    +:+ "undefined" +:+ "' of type " +:+ "undefined" +:+ " " +:+ ctxt))
  | SPrim shown ty =>
      throw (Error ("A schema element must be either a string or an object, got '"
                    +:+ shown +:+ "' of type " +:+ ty +:+ " " +:+ ctxt))
  | SNull => throw (TypeError "Cannot read properties of null (reading 'target')")
  | SObject l =>
      o ← read l;
      if str_is_opt "attributes" (spec_target o) then
        (if spec_id o is None then write l (with_id o header) else mret tt);;
        o ← read l;
        (if spec_title o is None then write l (with_title o (spec_id o))
         else mret tt);;
        o ← read l;
        if indexOf str_is_opt attributeTypes (spec_type o) <? 0 then
          throw (Error ("Unexpected type '" +:+ show_opt (spec_type o)
                        +:+ "' in the 'attributes' schema element"
                        +:+ " with id '" +:+ show_opt (spec_id o) +:+ "' " +:+ ctxt +:+ "."))
        else mret tt
      else if str_is_opt "viz" (spec_target o) then
        if isNodeSchema then
          if indexOf str_is_opt nodeVizIds (spec_id o) <? 0 then
            throw (Error ("Unexpected id '" +:+ show_opt (spec_id o)
                          +:+ "' for a 'viz' element " +:+ ctxt +:+ "."))
          else mret tt
        else
          if spec_id o is None then
            throw (Error ("The id is missing for a 'viz' element " +:+ ctxt +:+ "."))
          else if indexOf str_is_opt edgeVizIds (spec_id o) <? 0 then
            throw (Error ("Unexpected id '" +:+ show_opt (spec_id o)
                          +:+ "' for a 'viz' element " +:+ ctxt +:+ "."))
          else mret tt
      else throw (Error ("Unexpected target '" +:+ show_opt (spec_target o) +:+ "' " +:+ ctxt))
  end.

Definition checkSchema (records : list record) (schema : list schemaEl)
    (isNodeSchema : bool) : M unit :=
  let ctxt := ctxt_of isNodeSchema in
  headers ← lift (first_keys records);
  if negb (length headers =? length schema)%nat then
    throw (Error (length_mismatch_msg (length headers) (length schema) ctxt))
  else
    (if isNodeSchema then
       if indexOf el_is_str schema "id" <? 0 then
         throw (Error ("There is no 'id' " +:+ ctxt +:+ "."))
       else mret tt
     else
       if indexOf el_is_str schema "source" <? 0 then
         throw (Error ("There is no 'source' " +:+ ctxt +:+ "."))
       else if indexOf el_is_str schema "target" <? 0 then
         throw (Error ("There is no 'target' " +:+ ctxt +:+ "."))
       else mret tt);;
    for_each (seq 0 (length headers)) (λ coli,
      let spec := schema_at schema coli in
      let header := headers !!! coli in
      checkSchema_column isNodeSchema ctxt spec header).

(** ** parseValues *)

(** Reading an identifier that no scope declares. *)
Definition undeclared {A} (name : string) : outcome A := Throw (ReferenceError name).

(** A non-empty string is truthy. *)
Definition truthy (s : string) : bool := negb (String.eqb s "").

Definition parseBoolean (val : value) : outcome value :=
  match val with
  | VString s =>
      Return (VBoolean (String.eqb (toUpperCase s) "TRUE" || String.eqb s "1"))
  | VUndefined => Throw (TypeError "Cannot read properties of undefined (reading 'toUpperCase')")
  | _ => Throw (TypeError "val.toUpperCase is not a function")
  end.

Fixpoint parseColumn (records : list record) (header : string)
    (parseFn : value → outcome value) : outcome (list record) :=
  match records with
  | [] => Return []
  | record :: rest =>
      v ← parseFn (get record header);
      rest' ← parseColumn rest header parseFn;
      Return (assign record header v :: rest')
  end.

Fixpoint assertColumn (records : list record) (header : string)
    (assertFn : jsval → outcome unit) : outcome unit :=
  match records with
  | [] => Return tt
  | record :: rest => assertFn (JRecord record);; assertColumn rest header assertFn
  end.

Definition edgeTypes : list string := ["directed"; "undirected"; "mutual"].
Definition nodeShapes : list string := ["disc"; "square"; "triangle"; "diamond"].
Definition edgeShapes : list string := ["solid"; "dotted"; "dashed"; "double"].

(** The three callbacks given to [assertColumn].  Each builds its message
    from the value it is given, rendered first, and the first two from
    [ctxt] as well, which [parseValues] does not declare. *)
Definition assertEdgeType (header : string) (value : jsval) : outcome unit :=
  if indexOf str_is_js edgeTypes value <? 0 then
    shown ← show_js value;
    ctxt ← undeclared "ctxt";
    Throw (Error ("Unexpected type '" +:+ shown +:+ "' in column '"
                  +:+ header +:+ "' " +:+ ctxt +:+ "."))
  else Return tt.

Definition assertNodeShape (header : string) (value : jsval) : outcome unit :=
  if indexOf str_is_js nodeShapes value <? 0 then
    shown ← show_js value;
    ctxt ← undeclared "ctxt";
    Throw (Error ("Unexpected shape '" +:+ shown +:+ "' in column '"
                  +:+ header +:+ "' " +:+ ctxt +:+ "."))
  else Return tt.

Definition assertEdgeShape (header : string) (value : jsval) : outcome unit :=
  if indexOf str_is_js edgeShapes value <? 0 then
    shown ← show_js value;
    Throw (Error ("Unexpected value '" +:+ shown +:+ "' in column '"
                  +:+ header +:+ "'."))
  else Return tt.

Definition viaParseFloat (v : value) : outcome value := Return (VNumber (parseFloat v)).
Definition viaParseInt (v : value) : outcome value := Return (VNumber (parseInt v)).

(** The body of the column loop of [parseValues].  Both conditions on the
    target are assignments: [spec.target = 'attributes'] stores the string
    and is then tested for truthiness. *)
Definition parseValues_column (isNodeSchema : bool) (spec : schemaEl)
    (header : string) (records : list record) : M (list record) :=
  match spec with
  | SString s =>
      if String.eqb s "weight" then lift (parseColumn records header viaParseFloat)
      else if String.eqb s "type" then
        lift (assertColumn records header (assertEdgeType header));; mret records
      else mret records
  | SNull => throw (TypeError "Cannot set properties of null (setting 'target')")
  | SUndefined => throw (TypeError "Cannot set properties of undefined (setting 'target')")
  | SPrim shown ty => throw (TypeError ("Cannot create property 'target' on " +:+ ty +:+ " '" +:+ shown +:+ "'"))
  | SObject l =>
      o ← read l;
      write l (with_target o "attributes");;
      if truthy "attributes" then
        o ← read l;
        if str_is_opt "integer" (spec_type o) then lift (parseColumn records header viaParseInt)
        else if str_is_opt "float" (spec_type o) then lift (parseColumn records header viaParseFloat)
        else if str_is_opt "boolean" (spec_type o) then lift (parseColumn records header parseBoolean)
        else mret records
      else
        o ← read l;
        write l (with_target o "viz");;
        if truthy "viz" then
          o ← read l;
          if isNodeSchema then
            if str_is_opt "size" (spec_id o) then lift (parseColumn records header viaParseFloat)
            else if str_is_opt "shape" (spec_id o) then
              lift (assertColumn records header (assertNodeShape header));; mret records
            else mret records
          else
            if str_is_opt "size" (spec_id o) then lift (parseColumn records header viaParseFloat)
            else if str_is_opt "shape" (spec_id o) then
              lift (assertColumn records header (assertEdgeShape header));; mret records
            else mret records
        else mret records
  end.

Definition parseValues (records : list record) (schema : list schemaEl)
    (isNodeSchema : bool) : M (list record) :=
  headers ← lift (first_keys records);
  fold_each (seq 0 (length headers)) (λ records coli,
    let spec := schema_at schema coli in
    let header := headers !!! coli in
    parseValues_column isNodeSchema spec header records) records.

(** ** The graph document

    The document of the [gexf] package is known here by what it is given:
    its parameters and the node and edge entries handed to [addNode] and
    [addEdge], in order.  The checks that the package makes are the
    functions [createFault], [nodeFault] and [edgeFault]. *)

Record modelEntry : Type := ModelEntry {
  m_id : option string;
  m_type : option string;
  m_title : option string
}.

Record graphParams : Type := GraphParams {
  defaultEdgeType : option string;
  meta : list (string * string);
  model : option (list modelEntry * list modelEntry)
}.

Record node : Type := Node {
  n_id : value;
  n_label : value;
  n_attributes : option (gmap string value);
  n_viz : option (gmap string value)
}.

Record edge : Type := Edge {
  e_id : value;
  e_label : value;
  e_source : value;
  e_target : value;
  e_type : value;
  e_weight : value;
  e_attributes : option (gmap string value);
  e_viz : option (gmap string value)
}.

Record Gexf : Type := MkGexf {
  g_params : graphParams;
  g_nodes : list node;
  g_edges : list edge
}.

Variable createFault : graphParams → option exn.
Variable nodeFault : Gexf → node → option exn.
Variable edgeFault : Gexf → edge → option exn.

(** [gexf.create(params)] *)
Definition create (params : graphParams) : outcome Gexf :=
  match createFault params with
  | Some e => Throw e
  | None => Return (MkGexf params [] [])
  end.

(** [gexfObj.addNode(node)] *)
Definition addNode (n : node) : ST Gexf unit := λ g,
  match nodeFault g n with
  | Some e => (g, Throw e)
  | None => (MkGexf (g_params g) (g_nodes g ++ [n]) (g_edges g), Return tt)
  end.

(** [gexfObj.addEdge(edge)] *)
Definition addEdge (e : edge) : ST Gexf unit := λ g,
  match edgeFault g e with
  | Some x => (g, Throw x)
  | None => (MkGexf (g_params g) (g_nodes g) (g_edges g ++ [e]), Return tt)
  end.

(** ** Configuration *)

Record parseOptions : Type := ParseOptions {
  columns : bool;
  other_options : list (string * string)
}.

Record tableConfig : Type := TableConfig {
  file : string;
  schema : list schemaEl;
  tc_parseOptions : parseOptions
}.

Record config : Type := Config {
  cfg_graphParams : graphParams;
  cfg_nodes : tableConfig;
  cfg_edges : tableConfig;
  saveAs : option string
}.

(** ** deriveModel *)

Fixpoint deriveModel (h : heap) (schema : list schemaEl) : outcome (list modelEntry) :=
  match schema with
  | [] => Return []
  | spec :: rest =>
      match spec with
      | SObject l =>
          let o := h !!! l in
          rest' ← deriveModel h rest;
          if str_is_opt "attributes" (spec_target o) then
            Return (ModelEntry (spec_id o) (spec_type o) (spec_title o) :: rest')
          else Return rest'
      | SNull => Throw (TypeError "Cannot read properties of null (reading 'target')")
      | _ => deriveModel h rest
      end
  end.

(** ** addNodes and addEdges *)

(** The key that [obj[schema.id] = value] writes. *)
Definition prop_key (i : option string) : string := show_opt i.

(** [if (m === undefined) { m = {}; } m[k] = v] for a cell [v].  The key
    ['__proto__'] names the prototype of the object: assigning a string, a
    number, a boolean or [undefined] to it changes nothing. *)

Definition put (m : option (gmap string value)) (k : string) (v : value)
    : option (gmap string value) :=
  if String.eqb k "__proto__" then Some (default ∅ m)
  else Some (<[k := v]> (default ∅ m)).

(** The body of the column loop of [addNodes]. *)
Definition addNodes_column (h : heap) (schema : list schemaEl) (headers : list string)
    (record : record) (n : node) (coli : nat) : outcome node :=
  let header := headers !!! coli in
  let value := get record header in
  match schema_at schema coli with
  | SString s =>
      if String.eqb s "id" then Return (Node value (n_label n) (n_attributes n) (n_viz n))
      else if String.eqb s "label" then Return (Node (n_id n) value (n_attributes n) (n_viz n))
      else Return n
  | SObject l =>
      let o := h !!! l in
      if str_is_opt "attributes" (spec_target o) then
        Return (Node (n_id n) (n_label n) (put (n_attributes n) (prop_key (spec_id o)) value) (n_viz n))
      else if str_is_opt "viz" (spec_target o) then
        Return (Node (n_id n) (n_label n) (n_attributes n) (put (n_viz n) (prop_key (spec_id o)) value))
      else Return n
  | SNull => Throw (TypeError "Cannot read properties of null (reading 'target')")
  | SUndefined => Throw (TypeError "Cannot read properties of undefined (reading 'target')")
  | SPrim _ _ => Return n
  end.

(** The body of the record loop of [addNodes], up to the call of [addNode].
    The default of the label reads [id], which is not declared. *)
Definition addNodes_entry (h : heap) (schema : list schemaEl) (headers : list string)
    (record : record) : outcome node :=
  n ← fold_each (seq 0 (length headers)) (addNodes_column h schema headers record)
        (Node VUndefined VUndefined None None);
  if n_label n is VUndefined then
    id ← undeclared "id";
    Return (Node (n_id n) id (n_attributes n) (n_viz n))
  else Return n.

Definition addNodes (h : heap) (records : list record) (config : tableConfig)
    : ST Gexf unit :=
  headers ← lift (first_keys records);
  for_each records (λ record,
    n ← lift (addNodes_entry h (schema config) headers record);
    addNode n).

(** The body of the column loop of [addEdges]. *)
Definition addEdges_column (h : heap) (schema : list schemaEl) (headers : list string)
    (record : record) (e : edge) (coli : nat) : outcome edge :=
  let header := headers !!! coli in
  let value := get record header in
  match schema_at schema coli with
  | SString s =>
      if String.eqb s "id" then
        Return (Edge value (e_label e) (e_source e) (e_target e) (e_type e) (e_weight e)
                     (e_attributes e) (e_viz e))
      else if String.eqb s "label" then
        Return (Edge (e_id e) value (e_source e) (e_target e) (e_type e) (e_weight e)
                     (e_attributes e) (e_viz e))
      else if String.eqb s "type" then
        Return (Edge (e_id e) (e_label e) (e_source e) (e_target e) value (e_weight e)
                     (e_attributes e) (e_viz e))
      else if String.eqb s "source" then
        Return (Edge (e_id e) (e_label e) value (e_target e) (e_type e) (e_weight e)
                     (e_attributes e) (e_viz e))
      else if String.eqb s "target" then
        Return (Edge (e_id e) (e_label e) (e_source e) value (e_type e) (e_weight e)
                     (e_attributes e) (e_viz e))
      else if String.eqb s "weight" then
        Return (Edge (e_id e) (e_label e) (e_source e) (e_target e) (e_type e) value
                     (e_attributes e) (e_viz e))
      else Return e
  | SObject l =>
      let o := h !!! l in
      if str_is_opt "attributes" (spec_target o) then
        Return (Edge (e_id e) (e_label e) (e_source e) (e_target e) (e_type e) (e_weight e)
                     (put (e_attributes e) (prop_key (spec_id o)) value) (e_viz e))
      else if str_is_opt "viz" (spec_target o) then
        Return (Edge (e_id e) (e_label e) (e_source e) (e_target e) (e_type e) (e_weight e)
                     (e_attributes e) (put (e_viz e) (prop_key (spec_id o)) value))
      else Return e
  | SNull => Throw (TypeError "Cannot read properties of null (reading 'target')")
  | SUndefined => Throw (TypeError "Cannot read properties of undefined (reading 'target')")
  | SPrim _ _ => Return e
  end.

(** The body of the record loop of [addEdges], up to the call of [addEdge]:
    the entry and the next value of the counter [idi]. *)
Definition addEdges_entry (h : heap) (schema : list schemaEl) (headers : list string)
    (record : record) (idi : nat) : outcome (edge * nat) :=
  e ← fold_each (seq 0 (length headers)) (addEdges_column h schema headers record)
        (Edge VUndefined VUndefined VUndefined VUndefined VUndefined VUndefined None None);
  let '(e, idi) :=
    if e_id e is VUndefined then
      (Edge (VString ("e" +:+ pretty idi)) (e_label e) (e_source e) (e_target e)
            (e_type e) (e_weight e) (e_attributes e) (e_viz e), S idi)
    else (e, idi) in
  let e :=
    if e_label e is VUndefined then
      Edge (e_id e) (e_id e) (e_source e) (e_target e) (e_type e) (e_weight e)
           (e_attributes e) (e_viz e)
    else e in
  Return (e, idi).

Definition addEdges (h : heap) (records : list record) (config : tableConfig)
    : ST Gexf unit :=
  headers ← lift (first_keys records);
  fold_each records (λ idi record,
    '(e, idi') ← lift (addEdges_entry h (schema config) headers record idi);
    addEdge e;;
    mret idi') 1%nat;;
  mret tt.

(** ** The record loops of the earlier revision

    [for (var reci = 1; ...)]: the first record is passed over.  In
    [addEdges] the missing id is [`e${coli + 1}`], read after the column
    loop, where [coli] is the number of headers. *)

Definition parseColumn_rev1 (records : list record) (header : string)
    (parseFn : value → outcome value) : outcome (list record) :=
  match records with
  | [] => Return []
  | first :: rest => rest' ← parseColumn rest header parseFn; Return (first :: rest')
  end.

Definition assertColumn_rev1 (records : list record) (header : string)
    (assertFn : jsval → outcome unit) : outcome unit :=
  assertColumn (tail records) header assertFn.

Definition addNodes_rev1 (h : heap) (records : list record) (config : tableConfig)
    : ST Gexf unit :=
  headers ← lift (first_keys records);
  for_each (tail records) (λ record,
    n ← lift (addNodes_entry h (schema config) headers record);
    addNode n).

Definition addEdges_entry_rev1 (h : heap) (schema : list schemaEl)
    (headers : list string) (record : record) : outcome edge :=
  e ← fold_each (seq 0 (length headers)) (addEdges_column h schema headers record)
        (Edge VUndefined VUndefined VUndefined VUndefined VUndefined VUndefined None None);
  let coli := length headers in
  let e :=
    if e_id e is VUndefined then
      Edge (VString ("e" +:+ pretty (coli + 1)%nat)) (e_label e) (e_source e) (e_target e)
           (e_type e) (e_weight e) (e_attributes e) (e_viz e)
    else e in
  let e :=
    if e_label e is VUndefined then
      Edge (e_id e) (e_id e) (e_source e) (e_target e) (e_type e) (e_weight e)
           (e_attributes e) (e_viz e)
    else e in
  Return e.

Definition addEdges_rev1 (h : heap) (records : list record) (config : tableConfig)
    : ST Gexf unit :=
  headers ← lift (first_keys records);
  for_each (tail records) (λ record,
    e ← lift (addEdges_entry_rev1 h (schema config) headers record);
    addEdge e).

(** ** createGexf, saveGexf, loadCSV and convert

    The file system, the CSV parser and the serializer are outside the
    program.  A promise is the outcome it settles to: resolved is [Return],
    rejected is [Throw]. *)

Variable path_resolve : string → string.
Variable readFile : string → outcome string.
Variable csv_parse : string → parseOptions → outcome (list record).
Variable serialize : Gexf → outcome string.
Variable formatXml : string → string.
Variable writeFile : string → string → option exn.

(** [`${err}`] *)
Definition show_exn (e : exn) : string :=
  match e with
  | Error msg => "Error: " +:+ msg
  | TypeError msg => "TypeError: " +:+ msg
  | ReferenceError name => "ReferenceError: " +:+ name +:+ " is not defined"
  | Reason msg => msg
  end.

Definition get_heap : M heap := λ h, (h, Return h).

(** Runs a computation on a document and keeps the document it leaves. *)
Definition on_document (m : ST Gexf unit) (gexfObj : Gexf) : outcome Gexf :=
  match m gexfObj with
  | (gexfObj', Return _) => Return gexfObj'
  | (_, Throw e) => Throw e
  end.

Definition loadCSV (config : tableConfig) (isNodeSchema : bool) : M (list record) :=
  let file := path_resolve (file config) in
  match readFile file with
  | Throw err => throw (Reason ("Failed to read " +:+ file +:+ ". " +:+ show_exn err))
  | Return data =>
      let parseOptions := ParseOptions true (other_options (tc_parseOptions config)) in
      match csv_parse data parseOptions with
      | Throw err =>
          throw (Reason ("Failed to parse the csv data in " +:+ file +:+ ". " +:+ show_exn err))
      | Return records =>
          checkSchema records (schema config) isNodeSchema;;
          parseValues records (schema config) isNodeSchema
      end
  end.

(** A throw inside the [try] rejects the promise; the [resolve] that follows
    the [catch] then has no effect. *)
Definition createGexf (nodeRecords edgeRecords : list record) (config : config) : M Gexf :=
  h ← get_heap;
  nodeModel ← lift (deriveModel h (schema (cfg_nodes config)));
  edgeModel ← lift (deriveModel h (schema (cfg_edges config)));
  let params := GraphParams (defaultEdgeType (cfg_graphParams config))
                            (meta (cfg_graphParams config))
                            (Some (nodeModel, edgeModel)) in
  gexfObj ← lift (create params);
  lift (on_document (addNodes h nodeRecords (cfg_nodes config);;
                     addEdges h edgeRecords (cfg_edges config)) gexfObj).

(** The promise of [saveGexf] resolves with [resolve(gexfObj)]. *)
Definition saveGexf (gexfObj : Gexf) (path : string) : outcome Gexf :=
  xml ← serialize gexfObj;
  let string := formatXml xml in
  match writeFile path string with
  | Some err => Throw (Reason "Failed to save the Gexf file. ${err}")
  | None => Return gexfObj
  end.

(** What the promise of [convert] may be said to resolve to: a document or a
    path. *)
Inductive resolution : Type :=
  | Document (gexfObj : Gexf)
  | Path (path : string).

(** The closing [catch] logs the error and throws it again. *)
Definition convert (config : config) : M resolution :=
  nodeRecords ← loadCSV (cfg_nodes config) true;
  edgeRecords ← loadCSV (cfg_edges config) false;
  gexfObj ← createGexf nodeRecords edgeRecords config;
  match saveAs config with
  | Some path => gexfObj' ← lift (saveGexf gexfObj path); mret (Document gexfObj')
  | None => mret (Document gexfObj)
  end.

(** ** Vocabulary of the statements *)

(** The columns that the loops [for (coli = 0; coli < headers.length; coli++)]
    visit: the schema element and the header at each index. *)
Definition visited (schema : list schemaEl) (headers : list string)
    : list (schemaEl * string) :=
  (λ coli, (schema_at schema coli, headers !!! coli)) <$> seq 0 (length headers).

(** The loop of [parseValues] as a loop over the visited columns. *)
Definition parseValues_loop (isNodeSchema : bool) (cols : list (schemaEl * string))
    (records : list record) : M (list record) :=
  fold_each cols (λ records p, parseValues_column isNodeSchema p.1 p.2 records) records.

Definition mem (s : string) (l : list string) : bool := existsb (String.eqb s) l.

Global Arguments mem : simpl never.
Global Arguments indexOf : simpl never.

Definition mem_opt (o : option string) (l : list string) : bool :=
  match o with
  | Some s => mem s l
  | None => false
  end.

(** A schema element as the data model allows it: a marker of the table
    kind, an attribute declaration with one of the attribute types, or a viz
    declaration with one of the ids of the table kind. *)
Definition valid_element (isNodeSchema : bool) (h : heap) (e : schemaEl) : bool :=
  match e with
  | SString s => mem s (if isNodeSchema then nodeStringSpecs else edgeStringSpecs)
  | SObject l =>
      let o := h !!! l in
      match spec_target o with
      | Some t =>
          if String.eqb t "attributes" then mem_opt (spec_type o) attributeTypes
          else if String.eqb t "viz" then
            mem_opt (spec_id o) (if isNodeSchema then nodeVizIds else edgeVizIds)
          else false
      | None => false
      end
  | _ => false
  end.

Definition has_marker (s : string) (schema : list schemaEl) : bool :=
  existsb (λ e, el_is_str e s) schema.

Definition valid_schema (isNodeSchema : bool) (h : heap) (schema : list schemaEl) : bool :=
  (if isNodeSchema then has_marker "id" schema
   else has_marker "source" schema && has_marker "target" schema)
  && forallb (valid_element isNodeSchema h) schema.

(** An attribute declaration with its defaults: a missing id is the header,
    a missing title is the id. *)
Definition with_defaults (header : string) (o : specObj) : specObj :=
  if str_is_opt "attributes" (spec_target o) then
    let i := default header (spec_id o) in
    SpecObj (spec_target o) (Some i) (Some (default i (spec_title o))) (spec_type o)
  else o.

(** What the column loop of [checkSchema] makes of the object [l]: the
    defaults of each column at which [l] stands, one after the other. *)
Fixpoint defaults_along (cols : list (schemaEl * string)) (l : loc) (o : specObj)
    : specObj :=
  match cols with
  | [] => o
  | (e, hd) :: cols' =>
      defaults_along cols' l (if decide (e = SObject l) then with_defaults hd o else o)
  end.

(** Whether the column at an index writes the key [k] of an attribute map. *)
Definition writes_key (h : heap) (schema : list schemaEl) (k : string) (coli : nat) : bool :=
  match schema_at schema coli with
  | SObject l =>
      String.eqb (prop_key (spec_id (h !!! l))) k && negb (String.eqb k "__proto__")
  | _ => false
  end.

(** [m[k]] for a map that may be [undefined]. *)
Definition attr_of (m : option (gmap string value)) (k : string) : option value :=
  m ≫= (λ m, m !! k).

(** The last of the given columns that writes the key [k]. *)
Fixpoint last_writer (h : heap) (schema : list schemaEl) (k : string) (idxs : list nat)
    : option nat :=
  match idxs with
  | [] => None
  | coli :: idxs' =>
      match last_writer h schema k idxs' with
      | Some j => Some j
      | None => if writes_key h schema k coli then Some coli else None
      end
  end.

(** What the assembly does with the structured columns once every object of
    the schema has the target ['attributes']: no viz map, and under the key
    of each structured column (['__proto__'] apart) the cell of that column,
    or of the last column with the same key when there are others after
    it. *)
Definition stored_as_attributes (h : heap) (schema : list schemaEl)
    (headers : list string) (record : record)
    (attributes viz : option (gmap string value)) : Prop :=
  viz = None
  ∧ ∀ coli l, (coli < length headers)%nat → schema !! coli = Some (SObject l) →
      let k := prop_key (spec_id (h !!! l)) in
      k ≠ "__proto__" →
      ∃ m coli', attributes = Some m
        ∧ (coli ≤ coli' < length headers)%nat
        ∧ writes_key h schema k coli' = true
        ∧ (∀ j, (coli' < j < length headers)%nat → writes_key h schema k j = false)
        ∧ m !! k = Some (get record (headers !!! coli')).

(** The entries that the record loop of [addEdges] builds from a value of the
    counter on. *)
Fixpoint edges_built (h : heap) (schema : list schemaEl) (headers : list string)
    (idi : nat) (records : list record) (new : list edge) : Prop :=
  match records, new with
  | [], [] => True
  | record :: records', e :: new' =>
      ∃ idi', addEdges_entry h schema headers record idi = Return (e, idi')
        ∧ edges_built h schema headers idi' records' new'
  | _, _ => False
  end.

(** A schema element that is an allowed string other than ['type'], or an
    object. *)
Definition coercible (e : schemaEl) : bool :=
  match e with
  | SString s => negb (String.eqb s "type")
  | SObject _ => true
  | _ => false
  end.

(** A record as [csv.parse] gives it: under each of the headers a string. *)
Definition textual (headers : list string) (r : record) : Prop :=
  ∀ hd, hd ∈ headers → ∃ s, get r hd = VString s.

(** The entry of the attribute model that a schema element gives, if any. *)
Definition model_of (h : heap) (e : schemaEl) : option modelEntry :=
  match e with
  | SObject l =>
      let o := h !!! l in
      if str_is_opt "attributes" (spec_target o)
      then Some (ModelEntry (spec_id o) (spec_type o) (spec_title o))
      else None
  | _ => None
  end.

(** The exceptions made by [new Error(...)]. *)
Definition is_Error (e : exn) : Prop :=
  match e with
  | Error _ => True
  | _ => False
  end.

(** Equality of strings up to the case of the ASCII letters. *)
Definition lower_ascii (c : ascii) : ascii :=
  let n := nat_of_ascii c in
  if ((65 <=? n)%nat && (n <=? 90)%nat)%bool then ascii_of_nat (n + 32) else c.
Fixpoint ci_eqb (s t : string) : bool :=
  match s, t with
  | EmptyString, EmptyString => true
  | String a s', String b t' => Ascii.eqb (lower_ascii a) (lower_ascii b) && ci_eqb s' t'
  | _, _ => false
  end.

(** What [parseValues] does to a cell, read from the schema element of its
    column: the marker ['weight'] and the types ['float'], ['integer'] and
    ['boolean'] of an object name a parser, and every other element leaves
    the cell as it is. *)
Definition coercion (h : heap) (e : schemaEl) (v : value) : outcome value :=
  match e with
  | SString s => if String.eqb s "weight" then viaParseFloat v else Return v
  | SObject l =>
      let ty := spec_type (h !!! l) in
      if str_is_opt "integer" ty then viaParseInt v
      else if str_is_opt "float" ty then viaParseFloat v
      else if str_is_opt "boolean" ty then parseBoolean v
      else Return v
  | _ => Return v
  end.

(** The last of the given columns whose schema element is the marker [s]. *)
Fixpoint last_marker (schema : list schemaEl) (s : string) (idxs : list nat)
    : option nat :=
  match idxs with
  | [] => None
  | coli :: idxs' =>
      match last_marker schema s idxs' with
      | Some j => Some j
      | None => if el_is_str (schema_at schema coli) s then Some coli else None
      end
  end.

(** The cell of a record under the last column with the marker [s], or
    [undefined] when no column has it. *)
Definition marker_cell (schema : list schemaEl) (headers : list string)
    (record : record) (s : string) : value :=
  match last_marker schema s (seq 0 (length headers)) with
  | Some coli => get record (headers !!! coli)
  | None => VUndefined
  end.

(** The model entry that an object of the schema gives once its target is
    ['attributes']. *)
Definition entry_of (h : heap) (e : schemaEl) : option modelEntry :=
  match e with
  | SObject l =>
      let o := h !!! l in Some (ModelEntry (spec_id o) (spec_type o) (spec_title o))
  | _ => None
  end.

(** A heap against an earlier one: every type as it was, and every target
    that was ['attributes'] still so. *)
Definition settled (h h' : heap) : Prop :=
  ∀ l, spec_type (h' !!! l) = spec_type (h !!! l)
       ∧ (spec_target (h !!! l) = Some "attributes" →
          spec_target (h' !!! l) = Some "attributes").

(** A configuration without its [saveAs]. *)
Definition without_saveAs (cfg : config) : config :=
  Config (cfg_graphParams cfg) (cfg_nodes cfg) (cfg_edges cfg) None.

(** A table as [csv.parse] gives it with the option [columns]: distinct
    headers, and in every record a string under each of them. *)
Definition table (r : record) (rest : list record) : Prop :=
  NoDup (keys r) ∧ Forall (textual (keys r)) (r :: rest).

(** * Properties *)

(** ** Running a computation *)

Lemma run_bind {S A B} (m : ST S A) (k : A → ST S B) (s : S) :
  (m ≫= k) s = match m s with
               | (s', Return a) => k a s'
               | (s', Throw e) => (s', Throw e)
               end.
Proof. reflexivity. Qed.

Lemma indexOf_from_spec {A B} (eqb : A → B → bool) (l : list A) (x : B) (i : Z) :
  0 ≤ i →
  (indexOf_from eqb l x i <? 0) = forallb (λ a, negb (eqb a x)) l.
Proof.
  revert i. induction l as [|a l IH]; intros i Hi; simpl.
  - reflexivity.
  - destruct (eqb a x); simpl.
    + apply Z.ltb_ge. exact Hi.
    + apply IH. lia.
Qed.

Lemma indexOf_absent {A B} (eqb : A → B → bool) (l : list A) (x : B) :
  (indexOf eqb l x <? 0) = forallb (λ a, negb (eqb a x)) l.
Proof. apply indexOf_from_spec. lia. Qed.

Lemma marker_absent (schema : list schemaEl) (s : string) :
  SString s ∉ schema → (indexOf el_is_str schema s <? 0) = true.
Proof.
  intros Hno. rewrite indexOf_absent. apply forallb_forall.
  intros e He. apply negb_true_iff. destruct e as [t| | | |]; simpl; try reflexivity.
  apply String.eqb_neq. intros ->. apply Hno. by apply list_elem_of_In.
Qed.

(** C8. Whenever the first record has a number of headers different from the
    number of schema elements, [checkSchema] throws, for a node table and for
    an edge table alike, the error whose message gives the number of columns
    and then the number of schema elements; no schema object is touched. *)
Theorem checkSchema_length_mismatch (r : record) (rest : list record)
    (schema : list schemaEl) (isNodeSchema : bool) (h : heap) :
  length (keys r) ≠ length schema →
  checkSchema (r :: rest) schema isNodeSchema h =
    (h, Throw (Error ("There are " +:+ pretty (length (keys r)) +:+ " columns and "
                      +:+ pretty (length schema) +:+ " schema elements" +:+ " "
                      +:+ ctxt_of isNodeSchema +:+ ". These numbers should be equal."))).
Proof.
  intros Hne. unfold checkSchema. rewrite run_bind. simpl.
  destruct (Nat.eqb_spec (length (keys r)) (length schema)) as [Heq|_]; [done|].
  reflexivity.
Qed.

(** C9. On a non-empty record set, [checkSchema] throws an [Error] for every
    node schema without the marker ['id'], and for every edge schema without
    the marker ['source'] or without the marker ['target']. *)
Theorem checkSchema_required_markers (r : record) (rest : list record)
    (schema : list schemaEl) (isNodeSchema : bool) (h : heap) :
  (if isNodeSchema then SString "id" ∉ schema
   else SString "source" ∉ schema ∨ SString "target" ∉ schema) →
  ∃ msg, checkSchema (r :: rest) schema isNodeSchema h = (h, Throw (Error msg)).
Proof.
  intros Hno. unfold checkSchema. rewrite run_bind. simpl.
  destruct (length (keys r) =? length schema)%nat; simpl; [|by eexists].
  rewrite !run_bind. destruct isNodeSchema.
  - rewrite (marker_absent _ _ Hno). by eexists.
  - destruct (indexOf el_is_str schema "source" <? 0) eqn:Hs; [by eexists|].
    destruct Hno as [Hno|Hno].
    + rewrite (marker_absent _ _ Hno) in Hs. discriminate.
    + rewrite (marker_absent _ _ Hno). by eexists.
Qed.

(** ** Loops over the columns *)

Lemma for_each_fmap `{!MBind F, !MRet F} {A B} (f : A → B) (xs : list A)
    (body : B → F unit) :
  for_each (f <$> xs) body = for_each xs (λ x, body (f x)).
Proof. induction xs as [|x xs IH]; [done|]. cbn [fmap list_fmap for_each]. by rewrite IH. Qed.

Lemma fold_each_fmap_ST {S A B C} (f : A → B) (xs : list A)
    (body : C → B → ST S C) (c : C) (s : S) :
  fold_each (f <$> xs) body c s = fold_each xs (λ c x, body c (f x)) c s.
Proof.
  revert c s. induction xs as [|x xs IH]; intros c s; simpl; [done|].
  rewrite !run_bind. destruct (body c (f x) s) as [s' [c'|e]]; [apply IH|done].
Qed.

Lemma visited_cons (e : schemaEl) (schema : list schemaEl) (hd : string)
    (headers : list string) :
  visited (e :: schema) (hd :: headers) = (e, hd) :: visited schema headers.
Proof.
  unfold visited. simpl. f_equal.
  rewrite <- fmap_S_seq, <- list_fmap_compose. reflexivity.
Qed.

Lemma visited_short (hd : string) (headers : list string) :
  visited [] (hd :: headers) = (SUndefined, hd) :: visited [] headers.
Proof.
  unfold visited. simpl. f_equal.
  rewrite <- fmap_S_seq, <- list_fmap_compose. reflexivity.
Qed.

Lemma visited_same_length (schema : list schemaEl) (headers : list string) :
  length headers = length schema → visited schema headers = zip schema headers.
Proof.
  revert headers. induction schema as [|e schema IH]; intros [|hd headers] Hlen;
    simpl in Hlen; try done.
  rewrite visited_cons. simpl. f_equal. apply IH. lia.
Qed.

(** ** checkSchema on a valid schema *)

Lemma mem_indexOf (s : string) (l : list string) :
  (indexOf String.eqb l s <? 0) = negb (mem s l).
Proof.
  rewrite indexOf_absent. unfold mem. induction l as [|a l IH]; simpl; [done|].
  rewrite IH, negb_orb, (String.eqb_sym a s). reflexivity.
Qed.

Lemma mem_opt_indexOf (o : option string) (l : list string) :
  (indexOf str_is_opt l o <? 0) = negb (mem_opt o l).
Proof.
  rewrite indexOf_absent. destruct o as [s|]; simpl.
  - unfold mem. induction l as [|a l IH]; simpl; [done|].
    rewrite IH, negb_orb, (String.eqb_sym a s). reflexivity.
  - induction l as [|a l IH]; simpl; [done|]. exact IH.
Qed.

Lemma has_marker_indexOf (s : string) (schema : list schemaEl) :
  (indexOf el_is_str schema s <? 0) = negb (has_marker s schema).
Proof.
  rewrite indexOf_absent. unfold has_marker.
  induction schema as [|e schema IH]; simpl; [done|].
  rewrite IH, negb_orb. reflexivity.
Qed.

Lemma checkSchema_column_valid (isNodeSchema : bool) (ctxt : string) (h : heap)
    (e : schemaEl) (hd : string) :
  valid_element isNodeSchema h e = true →
  ∃ h1, checkSchema_column isNodeSchema ctxt e hd h = (h1, Return tt)
    ∧ (∀ l, e = SObject l → h1 !!! l = with_defaults hd (h !!! l))
    ∧ (∀ l, e ≠ SObject l → h1 !! l = h !! l)
    ∧ ((∀ l, e = SObject l → with_defaults hd (h !!! l) = h !!! l) → h1 = h).
Proof.
  intros Hv. destruct e as [s|l| | |]; cbn [valid_element] in Hv; try discriminate.
  - exists h. unfold checkSchema_column. rewrite !mem_indexOf.
    destruct isNodeSchema; rewrite Hv; simpl; repeat split; congruence.
  - unfold checkSchema_column, with_defaults. rewrite run_bind. unfold read at 1.
    destruct (h !!! l) as [tg i t ty] eqn:Ho. cbn [spec_target spec_id spec_title spec_type] in *.
    destruct tg as [tg|]; [|discriminate].
    unfold str_is_opt at 1 2. rewrite !(String.eqb_sym _ tg).
    destruct (String.eqb_spec tg "attributes") as [->|Hna].
    + destruct i as [i|], t as [t|]; simpl;
        repeat (rewrite run_bind; unfold read, write, mret, ST_ret; simpl;
                rewrite ?lookup_total_insert_eq, ?Ho; simpl);
        rewrite ?mem_opt_indexOf, ?Hv; simpl.
      all: eexists; split_and!; [reflexivity| | |].
      all: try (intros l0 [= <-]; rewrite ?lookup_total_insert_eq, ?Ho; reflexivity).
      all: try (intros l0 Hne; rewrite ?lookup_insert_ne by congruence; reflexivity).
      all: intros Hst; first [reflexivity|specialize (Hst l eq_refl)];
        rewrite Ho in Hst; simpl in Hst; discriminate.
    + destruct (String.eqb_spec tg "viz") as [->|Hnv]; [|discriminate].
      destruct i as [i|]; [|discriminate]. simpl in Hv.
      exists h. rewrite !mem_opt_indexOf. simpl.
      destruct isNodeSchema; rewrite Hv; simpl.
      all: split_and!; [reflexivity| |reflexivity|reflexivity].
      all: intros l0 [= <-]; rewrite Ho; reflexivity.
Qed.

Lemma with_defaults_absorb (hd hd' : string) (o : specObj) :
  with_defaults hd' (with_defaults hd o) = with_defaults hd o.
Proof.
  unfold with_defaults. destruct (str_is_opt "attributes" (spec_target o)) eqn:E; simpl.
  - rewrite E. reflexivity.
  - rewrite E. reflexivity.
Qed.

Lemma valid_element_defaults (isNodeSchema : bool) (h h1 : heap) (e : schemaEl) :
  (∀ l, h1 !!! l = h !!! l ∨ ∃ hd, h1 !!! l = with_defaults hd (h !!! l)) →
  valid_element isNodeSchema h1 e = valid_element isNodeSchema h e.
Proof.
  intros Hag. destruct e as [s|l| | |]; try reflexivity.
  cbn [valid_element]. destruct (Hag l) as [->|[hd ->]]; [done|].
  unfold with_defaults. destruct (h !!! l) as [[tg|] i t ty];
    cbn [spec_target spec_id spec_type spec_title str_is_opt]; [|done].
  destruct (String.eqb "attributes" tg) eqn:E;
    cbn [spec_target spec_id spec_type spec_title]; [|done].
  apply String.eqb_eq in E as <-. reflexivity.
Qed.

Lemma forallb_agree {A} (f g : A → bool) (l : list A) :
  (∀ x, x ∈ l → f x = g x) → forallb f l = forallb g l.
Proof.
  induction l as [|a l IH]; intros Hfg; simpl; [done|].
  rewrite (Hfg a), IH; [done| |left]. intros x Hx. apply Hfg. by right.
Qed.

Lemma lookup_total_agree (h h1 : heap) (l : loc) :
  h1 !! l = h !! l → h1 !!! l = h !!! l.
Proof. intros Heq. rewrite !lookup_total_alt, Heq. reflexivity. Qed.

Lemma defaults_along_absorb (cols : list (schemaEl * string)) (l : loc) (hd : string)
    (o : specObj) :
  defaults_along cols l (with_defaults hd o) = with_defaults hd o.
Proof.
  induction cols as [|[e hd'] cols IH]; simpl; [done|].
  case_decide; [by rewrite with_defaults_absorb|done].
Qed.

Lemma defaults_along_first (cols : list (schemaEl * string)) (l : loc) (o : specObj)
    (i : nat) (hd : string) :
  cols !! i = Some (SObject l, hd) →
  (∀ j hd', (j < i)%nat → cols !! j ≠ Some (SObject l, hd')) →
  defaults_along cols l o = with_defaults hd o.
Proof.
  revert i. induction cols as [|[e hd0] cols IH]; intros i Hi Hfirst; [done|].
  simpl. destruct i as [|i]; simpl in Hi.
  - injection Hi as -> ->. rewrite decide_True by done. apply defaults_along_absorb.
  - case_decide as He.
    + subst e. by destruct (Hfirst 0%nat hd0 ltac:(lia)).
    + apply (IH i Hi). intros j hd' Hj. apply (Hfirst (S j) hd'). lia.
Qed.

Lemma defaults_along_absent (cols : list (schemaEl * string)) (l : loc) (o : specObj) :
  SObject l ∉ cols.*1 → defaults_along cols l o = o.
Proof.
  induction cols as [|[e hd] cols IH]; intros Hno; simpl; [done|].
  cbn [fmap list_fmap fst] in Hno. apply not_elem_of_cons in Hno as [Hne Hno].
  rewrite decide_False by done. by apply IH.
Qed.

(** The column loop of [checkSchema] on valid elements: it returns, and it
    makes of every object what [defaults_along] says. *)
Lemma checkSchema_loop_valid (isNodeSchema : bool) (ctxt : string)
    (cols : list (schemaEl * string)) (h : heap) :
  forallb (valid_element isNodeSchema h) cols.*1 = true →
  ∃ h', for_each cols (λ p, checkSchema_column isNodeSchema ctxt p.1 p.2) h = (h', Return tt)
    ∧ (∀ l, h' !!! l = defaults_along cols l (h !!! l))
    ∧ (∀ l, SObject l ∉ cols.*1 → h' !! l = h !! l)
    ∧ ((∀ l hd, (SObject l, hd) ∈ cols → with_defaults hd (h !!! l) = h !!! l) → h' = h).
Proof.
  revert h. induction cols as [|[e hd] cols IH]; intros h Hv.
  - exists h. split_and!; try done.
  - cbn [fmap list_fmap fst forallb] in Hv. apply andb_true_iff in Hv as [Hve Hvs].
    destruct (checkSchema_column_valid isNodeSchema ctxt h e hd Hve)
      as (h1 & Hrun & Hat & Hframe & Hstable).
    assert (Hstep : ∀ l, h1 !!! l = if decide (e = SObject l) then with_defaults hd (h !!! l)
                                      else h !!! l).
    { intros l. case_decide as He; [by apply Hat|]. by apply lookup_total_agree, Hframe. }
    destruct (IH h1) as (h' & Hrun' & Hat' & Hframe' & Hstable').
    { rewrite <- Hvs. apply forallb_agree. intros e' _. apply valid_element_defaults.
      intros l. rewrite Hstep. case_decide; eauto. }
    exists h'. split_and!.
    + cbn [for_each fst snd]. rewrite run_bind, Hrun. exact Hrun'.
    + intros l. simpl. by rewrite Hat', Hstep.
    + intros l Hl. cbn [fmap list_fmap fst] in Hl.
      apply not_elem_of_cons in Hl as [Hne Hl]. rewrite (Hframe' l Hl). by apply Hframe.
    + intros Hall. assert (h1 = h) as ->.
      { apply Hstable. intros l ->. apply (Hall l hd). left. }
      apply Hstable'. intros l hd' Hin. apply (Hall l hd'). by right.
Qed.

Lemma checkSchema_run (r : record) (rest : list record) (schema : list schemaEl)
    (isNodeSchema : bool) (h : heap) :
  length (keys r) = length schema →
  (if isNodeSchema then has_marker "id" schema
   else has_marker "source" schema && has_marker "target" schema) = true →
  checkSchema (r :: rest) schema isNodeSchema h =
    for_each (zip schema (keys r))
      (λ p, checkSchema_column isNodeSchema (ctxt_of isNodeSchema) p.1 p.2) h.
Proof.
  intros Hlen Hreq. unfold checkSchema. rewrite run_bind. simpl.
  rewrite Hlen, Nat.eqb_refl. simpl. rewrite run_bind.
  rewrite !has_marker_indexOf.
  rewrite <- (visited_same_length schema (keys r) Hlen). unfold visited.
  rewrite for_each_fmap. rewrite <- Hlen.
  destruct isNodeSchema.
  - rewrite Hreq. reflexivity.
  - apply andb_true_iff in Hreq as [-> ->]. reflexivity.
Qed.

(** C10. On a non-empty record set whose header count is the schema length,
    and a valid schema, [checkSchema] returns.  It leaves every attribute
    declaration with the header of its column as id where the id was missing,
    and with that id as title where the title was missing (for an object that
    stands at several columns, the column is the first of them), and it
    changes no other object.  A second run on the schema so completed
    returns and leaves every object as it is. *)
Theorem checkSchema_valid_defaults (r : record) (rest : list record)
    (schema : list schemaEl) (isNodeSchema : bool) (h : heap) :
  length (keys r) = length schema →
  valid_schema isNodeSchema h schema = true →
  ∃ h', checkSchema (r :: rest) schema isNodeSchema h = (h', Return tt)
    ∧ (∀ coli l, schema !! coli = Some (SObject l) →
         (∀ j, (j < coli)%nat → schema !! j ≠ Some (SObject l)) →
         h' !!! l = with_defaults (keys r !!! coli) (h !!! l))
    ∧ (∀ l, SObject l ∉ schema → h' !! l = h !! l)
    ∧ checkSchema (r :: rest) schema isNodeSchema h' = (h', Return tt).
Proof.
  intros Hlen Hvalid. apply andb_true_iff in Hvalid as [Hreq Hall].
  assert (Hfst : (zip schema (keys r)).*1 = schema) by (apply fst_zip; lia).
  destruct (checkSchema_loop_valid isNodeSchema (ctxt_of isNodeSchema)
              (zip schema (keys r)) h) as (h' & Hrun & Hat & Hframe & _).
  { by rewrite Hfst. }
  rewrite Hfst in Hframe.
  exists h'. split_and!; try done.
  - rewrite checkSchema_run by done. exact Hrun.
  - intros coli l Hs Hfirst. rewrite Hat.
    destruct (lookup_lt_is_Some_2 (keys r) coli) as [hd Hhd].
    { rewrite Hlen. by eapply lookup_lt_Some. }
    rewrite (list_lookup_total_correct _ _ _ Hhd).
    apply (defaults_along_first _ _ _ coli).
    + by apply lookup_zip_Some.
    + intros j hd' Hj Hz. apply lookup_zip_Some in Hz as [Hz _]. by apply (Hfirst j).
  - rewrite checkSchema_run by done.
    destruct (checkSchema_loop_valid isNodeSchema (ctxt_of isNodeSchema)
                (zip schema (keys r)) h') as (h'' & Hrun' & _ & _ & Hstable).
    { rewrite Hfst, <- Hall. apply forallb_agree. intros e _.
      apply valid_element_defaults. intros l. rewrite Hat.
      destruct (decide (SObject l ∈ (zip schema (keys r)).*1)) as [Hin|Hno].
      - apply list_elem_of_fmap in Hin as [[e' hd] [He' Hin]]. simpl in He'. subst e'.
        right. clear -Hin. revert Hin. generalize (h !!! l) as o.
        induction (zip schema (keys r)) as [|[e0 hd0] cols IH]; intros o Hin.
        + by apply elem_of_nil in Hin.
        + simpl. case_decide as He0.
          * exists hd0. apply defaults_along_absorb.
          * apply IH. apply elem_of_cons in Hin as [[= <- <-]|Hin]; done.
      - left. by apply defaults_along_absent. }
    rewrite Hrun'. f_equal. apply Hstable.
    intros l hd Hin. rewrite Hat.
    assert (∃ hd0, defaults_along (zip schema (keys r)) l (h !!! l)
                   = with_defaults hd0 (h !!! l)) as [hd0 ->].
    { clear -Hin. revert Hin. generalize (h !!! l) as o.
      induction (zip schema (keys r)) as [|[e0 hd1] cols IH]; intros o Hin.
      - by apply elem_of_nil in Hin.
      - simpl. case_decide as He0.
        + exists hd1. apply defaults_along_absorb.
        + apply IH. apply elem_of_cons in Hin as [[= <- <-]|Hin]; done. }
    apply with_defaults_absorb.
Qed.

(** ** parseValues: what a column does to the heap and to the records *)

Lemma has_key_spec (r : record) (k : string) :
  existsb (String.eqb k) (keys r) = true ↔ k ∈ keys r.
Proof.
  rewrite existsb_exists. split.
  - intros (k' & Hin & ->%String.eqb_eq). by apply list_elem_of_In.
  - intros Hin. exists k. split; [by apply list_elem_of_In|apply String.eqb_refl].
Qed.

Lemma get_replace_key_eq (r : record) (k : string) (v : value) :
  k ∈ keys r → get (replace_key r k v) k = v.
Proof.
  induction r as [|[k' w] r IH]; intros Hin; [by apply elem_of_nil in Hin|].
  cbn [keys fmap list_fmap fst] in Hin. cbn [replace_key].
  destruct (String.eqb k' k) eqn:E; cbn [get]; rewrite E; [done|].
  apply IH. apply elem_of_cons in Hin as [->|Hin]; [|done].
  by rewrite String.eqb_refl in E.
Qed.

Lemma get_add_key_eq (r : record) (k : string) (v : value) :
  k ∉ keys r → get (add_key r k v) k = v.
Proof.
  induction r as [|[k' w] r IH]; intros Hno; cbn [add_key get].
  - by rewrite String.eqb_refl.
  - cbn [keys fmap list_fmap fst] in Hno. apply not_elem_of_cons in Hno as [Hne Hno].
    destruct (enumerated_before k k'); cbn [get].
    + by rewrite String.eqb_refl.
    + rewrite (proj2 (String.eqb_neq k' k)) by congruence. by apply IH.
Qed.

Lemma get_assign_eq (r : record) (k : string) (v : value) : get (assign r k v) k = v.
Proof.
  unfold assign. destruct (existsb (String.eqb k) (keys r)) eqn:E.
  - apply get_replace_key_eq. by apply has_key_spec.
  - apply get_add_key_eq. intros Hin%has_key_spec. congruence.
Qed.

Lemma get_assign_ne (r : record) (k k' : string) (v : value) :
  k' ≠ k → get (assign r k v) k' = get r k'.
Proof.
  intros Hne. unfold assign. destruct (existsb (String.eqb k) (keys r)).
  - induction r as [|[k0 w] r IH]; [done|]. cbn [replace_key].
    destruct (String.eqb_spec k0 k) as [->|]; cbn [get].
    + destruct (String.eqb_spec k k'); [congruence|done].
    + destruct (String.eqb k0 k'); [done|exact IH].
  - induction r as [|[k0 w] r IH]; cbn [add_key get].
    + destruct (String.eqb_spec k k'); [congruence|done].
    + destruct (enumerated_before k k0); cbn [get].
      * destruct (String.eqb_spec k k'); [congruence|done].
      * destruct (String.eqb k0 k'); [done|exact IH].
Qed.

Lemma Forall2_compose {A} (P Q R : A → A → Prop) (l1 l2 l3 : list A) :
  (∀ x y z, P x y → Q y z → R x z) →
  Forall2 P l1 l2 → Forall2 Q l2 l3 → Forall2 R l1 l3.
Proof.
  intros HR H12. revert l3. induction H12 as [|x y l1 l2 Hxy _ IH]; intros l3 H23.
  - inversion H23. constructor.
  - inversion H23 as [|? z ? l3' Hyz H23']; subst. constructor; eauto.
Qed.

Lemma parseColumn_spec (records records' : list record) (header : string)
    (parseFn : value → outcome value) :
  parseColumn records header parseFn = Return records' →
  Forall2 (λ r r', parseFn (get r header) = Return (get r' header)
                   ∧ ∀ hd', hd' ≠ header → get r' hd' = get r hd') records records'.
Proof.
  revert records'. induction records as [|r records IH]; intros records' Hrun; simpl in Hrun.
  - injection Hrun as <-. constructor.
  - destruct (parseFn (get r header)) as [v|e] eqn:Hv; simpl in Hrun; [|discriminate].
    destruct (parseColumn records header parseFn) as [rest'|e]; simpl in Hrun; [|discriminate].
    injection Hrun as <-. constructor; [|by apply IH].
    split; [by rewrite get_assign_eq|]. intros hd' Hne. by apply get_assign_ne.
Qed.

(** Whatever a column does, the heap it leaves is the heap it found with, for
    a structured element, the target of that object set to ['attributes']. *)
Lemma parseValues_column_heap (isNodeSchema : bool) (e : schemaEl) (hd : string)
    (records : list record) (h h1 : heap) (out : outcome (list record)) :
  parseValues_column isNodeSchema e hd records h = (h1, out) →
  h1 = match e with
       | SObject l => <[l := with_target (h !!! l) "attributes"]> h
       | _ => h
       end.
Proof.
  destruct e as [s|l| | |]; simpl; try (by intros [= <- _]).
  - destruct (String.eqb s "weight"); [by intros [= <- _]|].
    destruct (String.eqb s "type"); [|by intros [= <- _]].
    rewrite run_bind. unfold lift.
    destruct (assertColumn records hd (assertEdgeType hd)); by intros [= <- _].
  - rewrite !run_bind. unfold read, write. simpl. rewrite !run_bind. simpl.
    repeat case_match; unfold lift; by intros [= <- _].
Qed.

Lemma Forall2_same {A} (P : A → A → Prop) (l : list A) :
  (∀ x, P x x) → Forall2 P l l.
Proof. intros HP. induction l; constructor; auto. Qed.

Lemma parseColumn_others (records records' : list record) (header : string)
    (parseFn : value → outcome value) :
  parseColumn records header parseFn = Return records' →
  Forall2 (λ r r', ∀ hd', hd' ≠ header → get r' hd' = get r hd') records records'.
Proof.
  intros Hrun. apply parseColumn_spec in Hrun.
  eapply Forall2_impl; [exact Hrun|]. by intros r r' [_ ?].
Qed.

(** A column leaves the cells of every other header as they are. *)
Lemma parseValues_column_others (isNodeSchema : bool) (e : schemaEl) (hd : string)
    (records records1 : list record) (h h1 : heap) :
  parseValues_column isNodeSchema e hd records h = (h1, Return records1) →
  Forall2 (λ r r1, ∀ hd', hd' ≠ hd → get r1 hd' = get r hd') records records1.
Proof.
  destruct e as [s|l| | |]; simpl; try (by intros [= _ ?]).
  - destruct (String.eqb s "weight").
    { unfold lift. intros [= _ Hrun]. by apply parseColumn_others in Hrun. }
    destruct (String.eqb s "type").
    + rewrite run_bind. unfold lift.
      destruct (assertColumn records hd (assertEdgeType hd)); [|by intros [= _ ?]].
      intros [= _ <-]. by apply Forall2_same.
    + intros [= _ <-]. by apply Forall2_same.
  - rewrite !run_bind. unfold read, write. simpl. rewrite !run_bind. simpl.
    repeat case_match; unfold lift; intros [= _ Hrun];
      first [by apply parseColumn_others in Hrun | subst; by apply Forall2_same].
Qed.

(** A column whose element has type ['boolean'] hands every cell of its header
    to [parseBoolean]. *)
Lemma parseValues_column_boolean (isNodeSchema : bool) (l : loc) (hd : string)
    (records records1 : list record) (h h1 : heap) :
  spec_type (h !!! l) = Some "boolean" →
  parseValues_column isNodeSchema (SObject l) hd records h = (h1, Return records1) →
  Forall2 (λ r r1, parseBoolean (get r hd) = Return (get r1 hd)) records records1.
Proof.
  intros Hty. simpl. rewrite !run_bind. unfold read, write. simpl.
  rewrite !run_bind. simpl. rewrite lookup_total_insert_eq. simpl. rewrite Hty. simpl.
  unfold lift. intros [= _ Hrun]. apply parseColumn_spec in Hrun.
  eapply Forall2_impl; [exact Hrun|]. by intros r r' [? _].
Qed.

Lemma parseValues_column_type (isNodeSchema : bool) (e : schemaEl) (hd : string)
    (records : list record) (h h1 : heap) (out : outcome (list record)) (l : loc) :
  parseValues_column isNodeSchema e hd records h = (h1, out) →
  spec_type (h1 !!! l) = spec_type (h !!! l)
  ∧ spec_id (h1 !!! l) = spec_id (h !!! l)
  ∧ (spec_target (h !!! l) = Some "attributes" → spec_target (h1 !!! l) = Some "attributes")
  ∧ (e = SObject l → spec_target (h1 !!! l) = Some "attributes").
Proof.
  intros Hrun. apply parseValues_column_heap in Hrun as ->.
  destruct e as [s|l'| | |]; try (split_and!; done).
  destruct (decide (l' = l)) as [->|Hne].
  - rewrite lookup_total_insert_eq. simpl. done.
  - rewrite lookup_total_insert_ne by done. split_and!; try done. congruence.
Qed.

Lemma parseValues_run (r : record) (rest : list record) (schema : list schemaEl)
    (isNodeSchema : bool) (h : heap) :
  parseValues (r :: rest) schema isNodeSchema h =
    parseValues_loop isNodeSchema (visited schema (keys r)) (r :: rest) h.
Proof.
  unfold parseValues, parseValues_loop, visited. rewrite run_bind. simpl.
  rewrite fold_each_fmap_ST. reflexivity.
Qed.

Lemma parseValues_loop_spec (isNodeSchema : bool) (cols : list (schemaEl * string))
    (records records' : list record) (h h' : heap) :
  parseValues_loop isNodeSchema cols records h = (h', Return records') →
  (∀ l, spec_type (h' !!! l) = spec_type (h !!! l) ∧ spec_id (h' !!! l) = spec_id (h !!! l)
        ∧ (spec_target (h !!! l) = Some "attributes" →
           spec_target (h' !!! l) = Some "attributes"))
  ∧ (∀ l hd, (SObject l, hd) ∈ cols → spec_target (h' !!! l) = Some "attributes")
  ∧ (∀ hd', hd' ∉ cols.*2 →
       Forall2 (λ r r', get r' hd' = get r hd') records records')
  ∧ (NoDup cols.*2 → ∀ l hd, (SObject l, hd) ∈ cols →
       spec_type (h !!! l) = Some "boolean" →
       Forall2 (λ r r', parseBoolean (get r hd) = Return (get r' hd)) records records').
Proof.
  revert records h. induction cols as [|[e hd] cols IH]; intros records h Hrun.
  - injection Hrun as <- <-. split_and!.
    + done.
    + intros l hd Hin. by apply elem_of_nil in Hin.
    + intros. by apply Forall2_same.
    + intros _ l hd Hin. by apply elem_of_nil in Hin.
  - unfold parseValues_loop in Hrun. cbn [fold_each fst snd] in Hrun.
    rewrite run_bind in Hrun.
    destruct (parseValues_column isNodeSchema e hd records h) as [h1 [records1|x]] eqn:Hcol;
      [|discriminate].
    pose proof (λ l, parseValues_column_type _ _ _ _ _ _ _ l Hcol) as Hfields.
    pose proof (parseValues_column_others _ _ _ _ _ _ _ Hcol) as Hothers.
    destruct (IH records1 h1 Hrun) as (Hf' & Htg' & Hkeep' & Hbool').
    split_and!.
    + intros l. destruct (Hfields l) as (E1 & E2 & Ht & _), (Hf' l) as (E1' & E2' & Ht').
      split_and!; [congruence|congruence|auto].
    + intros l hd' [[= <- <-]|Hin]%elem_of_cons.
      * destruct (Hf' l) as (_ & _ & Ht'), (Hfields l) as (_ & _ & _ & Hs). auto.
      * by apply (Htg' l hd').
    + intros hd' Hnotin. cbn [fmap list_fmap snd] in Hnotin.
      apply not_elem_of_cons in Hnotin as [Hne Hnotin].
      eapply Forall2_compose; [|exact Hothers|exact (Hkeep' hd' Hnotin)].
      intros x y z Hxy Hyz. rewrite Hyz. by apply Hxy.
    + intros Hnd l hd' Hin Hty. cbn [fmap list_fmap snd] in Hnd.
      apply NoDup_cons in Hnd as [Hnotin Hnd].
      apply elem_of_cons in Hin as [[= <- <-]|Hin].
      * pose proof (parseValues_column_boolean _ _ _ _ _ _ _ Hty Hcol) as Hb.
        eapply Forall2_compose; [|exact Hb|exact (Hkeep' _ Hnotin)].
        intros x y z Hxy Hyz. cbn beta in Hyz. by rewrite Hyz.
      * assert (hd' ≠ hd) as Hne.
        { intros ->. apply Hnotin. apply list_elem_of_fmap. by exists (SObject l, hd). }
        eapply Forall2_compose; [|exact Hothers|apply (Hbool' Hnd l hd' Hin)].
        -- intros x y z Hxy Hyz. cbn beta in Hxy. by rewrite <- (Hxy hd' Hne).
        -- destruct (Hfields l) as (E1 & _). congruence.
Qed.

Lemma visited_snd (schema : list schemaEl) (headers : list string) :
  (visited schema headers).*2 = headers.
Proof.
  revert schema. induction headers as [|hd headers IH]; intros schema; [done|].
  destruct schema as [|e schema].
  - rewrite visited_short. simpl. by rewrite IH.
  - rewrite visited_cons. simpl. by rewrite IH.
Qed.

Lemma visited_lookup (schema : list schemaEl) (headers : list string) (coli : nat) :
  (coli < length headers)%nat →
  visited schema headers !! coli = Some (schema_at schema coli, headers !!! coli).
Proof.
  intros Hlt. unfold visited. rewrite list_lookup_fmap, lookup_seq_lt by done.
  reflexivity.
Qed.

Lemma visited_elem (schema : list schemaEl) (headers : list string) (coli : nat)
    (e : schemaEl) :
  (coli < length headers)%nat → schema !! coli = Some e →
  (e, headers !!! coli) ∈ visited schema headers.
Proof.
  intros Hlt He. apply list_elem_of_lookup. exists coli.
  rewrite visited_lookup by done. unfold schema_at. by rewrite He.
Qed.

(** ** parseBoolean *)

Lemma lower_upper_ascii (a : ascii) : lower_ascii (upper_ascii a) = lower_ascii a.
Proof. destruct a as [[] [] [] [] [] [] [] []]; reflexivity. Qed.

Lemma upper_lower_ascii (a : ascii) : upper_ascii (lower_ascii a) = upper_ascii a.
Proof. destruct a as [[] [] [] [] [] [] [] []]; reflexivity. Qed.

Lemma upper_eqb_lower_eqb (a b : ascii) :
  Ascii.eqb (upper_ascii a) (upper_ascii b) = Ascii.eqb (lower_ascii a) (lower_ascii b).
Proof.
  destruct (Ascii.eqb_spec (upper_ascii a) (upper_ascii b)) as [Hu|Hu],
           (Ascii.eqb_spec (lower_ascii a) (lower_ascii b)) as [Hl|Hl]; try reflexivity.
  - exfalso. apply Hl. by rewrite <- (lower_upper_ascii a), Hu, lower_upper_ascii.
  - exfalso. apply Hu. by rewrite <- (upper_lower_ascii a), Hl, upper_lower_ascii.
Qed.

Lemma toUpperCase_eqb (s t : string) :
  String.eqb (toUpperCase s) (toUpperCase t) = ci_eqb s t.
Proof.
  revert t. induction s as [|a s IH]; intros [|b t]; simpl; try reflexivity.
  by rewrite upper_eqb_lower_eqb, IH.
Qed.

Lemma parseBoolean_spec (v v' : value) :
  parseBoolean v = Return v' →
  ∃ s, v = VString s ∧ v' = VBoolean (ci_eqb s "true" || String.eqb s "1").
Proof.
  destruct v as [|s|n|b]; simpl; try discriminate.
  intros [= <-]. exists s. split; [done|].
  by rewrite <- (toUpperCase_eqb s "true").
Qed.

(** C7. When [parseValues] returns, every record (the first one included) has,
    in each column whose schema element has type ['boolean'], the boolean
    that is true exactly when the cell it had was a string equal to ['true']
    up to case or equal to ['1'].  The headers of an object are distinct. *)
Theorem parseValues_boolean_cells (r : record) (rest : list record)
    (schema : list schemaEl) (isNodeSchema : bool) (h h' : heap)
    (records' : list record) (coli : nat) (l : loc) :
  NoDup (keys r) →
  (coli < length (keys r))%nat →
  schema !! coli = Some (SObject l) →
  spec_type (h !!! l) = Some "boolean" →
  parseValues (r :: rest) schema isNodeSchema h = (h', Return records') →
  Forall2 (λ rec rec', ∃ s, get rec (keys r !!! coli) = VString s
             ∧ get rec' (keys r !!! coli) = VBoolean (ci_eqb s "true" || String.eqb s "1"))
    (r :: rest) records'.
Proof.
  intros Hnd Hlt Hs Hty Hrun. rewrite parseValues_run in Hrun.
  apply parseValues_loop_spec in Hrun as (_ & _ & _ & Hbool).
  rewrite visited_snd in Hbool.
  eapply Forall2_impl; [apply (Hbool Hnd l (keys r !!! coli)); [|exact Hty]|].
  - by apply visited_elem.
  - intros rec rec' Hp. apply parseBoolean_spec in Hp as (s & Hv & Hv').
    exists s. done.
Qed.

(** Part of C2. When [parseValues] returns, every object that the schema
    holds at the index of a column has the target ['attributes']. *)
Lemma parseValues_targets (r : record) (rest : list record)
    (schema : list schemaEl) (isNodeSchema : bool) (h h' : heap)
    (records' : list record) (coli : nat) (l : loc) :
  (coli < length (keys r))%nat →
  schema !! coli = Some (SObject l) →
  parseValues (r :: rest) schema isNodeSchema h = (h', Return records') →
  spec_target (h' !!! l) = Some "attributes".
Proof.
  intros Hlt Hs Hrun. rewrite parseValues_run in Hrun.
  apply parseValues_loop_spec in Hrun as (_ & Htg & _).
  apply (Htg l (keys r !!! coli)). by apply visited_elem.
Qed.

(** ** The column scans of addNodes and addEdges *)

Lemma schema_at_elem (schema : list schemaEl) (coli : nat) (l : loc) :
  schema_at schema coli = SObject l → schema !! coli = Some (SObject l).
Proof.
  unfold schema_at. destruct (schema !! coli) as [e|]; simpl; [|done]. by intros ->.
Qed.

Lemma schema_at_marker (schema : list schemaEl) (coli : nat) (s : string) :
  schema_at schema coli = SString s → SString s ∈ schema.
Proof.
  unfold schema_at. destruct (schema !! coli) as [e|] eqn:E; simpl; [|done].
  intros ->. by eapply list_elem_of_lookup_2.
Qed.

Lemma attr_of_put (m : option (gmap string value)) (k k' : string) (v : value) :
  attr_of (put m k v) k' =
    if String.eqb k k' && negb (String.eqb k' "__proto__") then Some v else attr_of m k'.
Proof.
  assert (Hsame : (default ∅ m : gmap string value) !! k' = attr_of m k').
  { destruct m; [done|]. apply lookup_empty. }
  unfold put. destruct (String.eqb_spec k "__proto__") as [->|Hnp].
  - unfold attr_of at 1. cbn [mbind option_bind].
    destruct (String.eqb_spec "__proto__" k') as [<-|Hne]; [|done].
    by rewrite String.eqb_refl.
  - unfold attr_of at 1. cbn [mbind option_bind].
    destruct (String.eqb_spec k k') as [<-|Hne].
    + rewrite lookup_insert_eq. by rewrite (proj2 (String.eqb_neq _ _) Hnp).
    + by rewrite lookup_insert_ne.
Qed.

Section Scan.

Variable h : heap.
Variable sch : list schemaEl.
Variable headers : list string.
Variable rec : record.
Hypothesis targets : ∀ l, SObject l ∈ sch → spec_target (h !!! l) = Some "attributes".

Lemma last_writer_seq (k : string) (a n : nat) :
  match last_writer h sch k (seq a n) with
  | Some i => (a ≤ i < a + n)%nat ∧ writes_key h sch k i = true
              ∧ ∀ j, (i < j < a + n)%nat → writes_key h sch k j = false
  | None => ∀ j, (a ≤ j < a + n)%nat → writes_key h sch k j = false
  end.
Proof.
  revert a. induction n as [|n IH]; intros a; simpl; [intros; lia|].
  specialize (IH (S a)). destruct (last_writer h sch k (seq (S a) n)) as [i|].
  - destruct IH as (Hi & Hw & Hlast). split; [lia|split; [done|]].
    intros j Hj. apply Hlast. lia.
  - destruct (writes_key h sch k a) eqn:Hw.
    + split; [lia|split; [done|]]. intros j Hj. apply IH. lia.
    + intros j Hj. destruct (decide (j = a)) as [->|]; [done|]. apply IH. lia.
Qed.

Lemma addNodes_column_attrs (n n1 : node) (coli : nat) :
  addNodes_column h sch headers rec n coli = Return n1 →
  n_viz n1 = n_viz n
  ∧ ∀ k, attr_of (n_attributes n1) k =
         if writes_key h sch k coli then Some (get rec (headers !!! coli))
         else attr_of (n_attributes n) k.
Proof.
  unfold addNodes_column, writes_key.
  destruct (schema_at sch coli) as [s|l| | |] eqn:E; try discriminate.
  - repeat case_match; intros [= <-]; done.
  - rewrite (targets l) by (by eapply list_elem_of_lookup_2, schema_at_elem).
    simpl. intros [= <-]. simpl. split; [done|]. intros k. apply attr_of_put.
  - intros [= <-]. done.
Qed.

Lemma addNodes_scan_attrs (idxs : list nat) (n n' : node) :
  fold_each idxs (addNodes_column h sch headers rec) n = Return n' →
  n_viz n' = n_viz n
  ∧ ∀ k, attr_of (n_attributes n') k =
         match last_writer h sch k idxs with
         | Some i => Some (get rec (headers !!! i))
         | None => attr_of (n_attributes n) k
         end.
Proof.
  revert n. induction idxs as [|i idxs IH]; intros n Hrun; simpl in Hrun.
  - injection Hrun as <-. done.
  - destruct (addNodes_column h sch headers rec n i) as [n1|x] eqn:Hcol; [|discriminate].
    simpl in Hrun. apply addNodes_column_attrs in Hcol as [Hviz Hattr].
    destruct (IH n1 Hrun) as [Hviz' Hattr']. split; [congruence|].
    intros k. rewrite Hattr'. simpl.
    destruct (last_writer h sch k idxs); [done|]. rewrite Hattr.
    by destruct (writes_key h sch k i).
Qed.

Lemma addEdges_column_attrs (e e1 : edge) (coli : nat) :
  addEdges_column h sch headers rec e coli = Return e1 →
  e_viz e1 = e_viz e
  ∧ ∀ k, attr_of (e_attributes e1) k =
         if writes_key h sch k coli then Some (get rec (headers !!! coli))
         else attr_of (e_attributes e) k.
Proof.
  unfold addEdges_column, writes_key.
  destruct (schema_at sch coli) as [s|l| | |] eqn:E; try discriminate.
  - repeat case_match; intros [= <-]; done.
  - rewrite (targets l) by (by eapply list_elem_of_lookup_2, schema_at_elem).
    simpl. intros [= <-]. simpl. split; [done|]. intros k. apply attr_of_put.
  - intros [= <-]. done.
Qed.

Lemma addEdges_scan_attrs (idxs : list nat) (e e' : edge) :
  fold_each idxs (addEdges_column h sch headers rec) e = Return e' →
  e_viz e' = e_viz e
  ∧ ∀ k, attr_of (e_attributes e') k =
         match last_writer h sch k idxs with
         | Some i => Some (get rec (headers !!! i))
         | None => attr_of (e_attributes e) k
         end.
Proof.
  revert e. induction idxs as [|i idxs IH]; intros e Hrun; simpl in Hrun.
  - injection Hrun as <-. done.
  - destruct (addEdges_column h sch headers rec e i) as [e1|x] eqn:Hcol; [|discriminate].
    simpl in Hrun. apply addEdges_column_attrs in Hcol as [Hviz Hattr].
    destruct (IH e1 Hrun) as [Hviz' Hattr']. split; [congruence|].
    intros k. rewrite Hattr'. simpl.
    destruct (last_writer h sch k idxs); [done|]. rewrite Hattr.
    by destruct (writes_key h sch k i).
Qed.

Lemma scan_stored (attributes viz : option (gmap string value)) :
  viz = None →
  (∀ k, attr_of attributes k =
        match last_writer h sch k (seq 0 (length headers)) with
        | Some i => Some (get rec (headers !!! i))
        | None => None
        end) →
  stored_as_attributes h sch headers rec attributes viz.
Proof.
  intros Hviz Hattr. split; [done|]. intros coli l Hlt Hs k Hnp.
  specialize (Hattr k). pose proof (last_writer_seq k 0 (length headers)) as Hlast.
  assert (writes_key h sch k coli = true) as Hw.
  { unfold writes_key, schema_at. rewrite Hs. simpl. rewrite String.eqb_refl.
    by rewrite (proj2 (String.eqb_neq _ _) Hnp). }
  destruct (last_writer h sch k (seq 0 (length headers))) as [i|].
  - destruct Hlast as (Hi & Hwi & Hafter).
    unfold attr_of in Hattr. destruct attributes as [m|]; [|done]. simpl in Hattr.
    assert (coli ≤ i)%nat.
    { destruct (decide (coli ≤ i)%nat) as [|Hgt]; [done|].
      rewrite Hafter in Hw by lia. discriminate. }
    exists m, i. split; [done|]. split; [lia|]. split; [done|]. split; [|done].
    intros j Hj. apply Hafter. lia.
  - rewrite Hlast in Hw by lia. discriminate.
Qed.

Lemma addNodes_entry_stored (n : node) :
  addNodes_entry h sch headers rec = Return n →
  stored_as_attributes h sch headers rec (n_attributes n) (n_viz n).
Proof.
  unfold addNodes_entry.
  destruct (fold_each _ _ _) as [n0|x] eqn:Hscan; [|discriminate]. simpl.
  apply addNodes_scan_attrs in Hscan as [Hviz Hattr].
  destruct (n_label n0); try discriminate; intros [= <-]; by apply scan_stored.
Qed.

Lemma addEdges_entry_stored (idi idi' : nat) (e : edge) :
  addEdges_entry h sch headers rec idi = Return (e, idi') →
  stored_as_attributes h sch headers rec (e_attributes e) (e_viz e).
Proof.
  unfold addEdges_entry.
  destruct (fold_each _ _ _) as [e0|x] eqn:Hscan; [|discriminate]. simpl.
  apply addEdges_scan_attrs in Hscan as [Hviz Hattr].
  destruct (e_id e0), (e_label e0); simpl; intros [= <- _]; by apply scan_stored.
Qed.

End Scan.

(** ** The record loops of addNodes and addEdges *)

Lemma addNodes_loop (h : heap) (sch : list schemaEl) (headers : list string)
    (records : list record) (g g' : Gexf) :
  for_each records (λ record,
    n ← lift (addNodes_entry h sch headers record); addNode n) g = (g', Return tt) →
  ∃ new, g' = MkGexf (g_params g) (g_nodes g ++ new) (g_edges g)
    ∧ Forall2 (λ record n, addNodes_entry h sch headers record = Return n) records new.
Proof.
  revert g. induction records as [|record records IH]; intros g Hrun.
  - injection Hrun as <-. exists []. rewrite app_nil_r. by destruct g.
  - cbn [for_each] in Hrun. rewrite !run_bind in Hrun. unfold lift in Hrun.
    destruct (addNodes_entry h sch headers record) as [n|x] eqn:Hentry; [|discriminate].
    unfold addNode in Hrun. destruct (nodeFault g n); [discriminate|].
    apply IH in Hrun as (new & -> & Hall). exists (n :: new). simpl.
    rewrite <- app_assoc. split; [done|]. by constructor.
Qed.

Lemma addNodes_entries (h : heap) (records : list record) (config : tableConfig)
    (g g' : Gexf) :
  addNodes h records config g = (g', Return tt) →
  ∃ r rest new, records = r :: rest
    ∧ g' = MkGexf (g_params g) (g_nodes g ++ new) (g_edges g)
    ∧ Forall2 (λ record n, addNodes_entry h (schema config) (keys r) record = Return n)
        records new.
Proof.
  unfold addNodes. rewrite run_bind. destruct records as [|r rest]; [discriminate|].
  unfold lift at 1. cbn [first_keys]. intros Hrun. apply addNodes_loop in Hrun as (new & -> & Hall).
  by exists r, rest, new.
Qed.

Lemma addEdges_loop (h : heap) (sch : list schemaEl) (headers : list string)
    (records : list record) (idi idi' : nat) (g g' : Gexf) :
  fold_each records (λ idi record,
    '(e, idi') ← lift (addEdges_entry h sch headers record idi);
    addEdge e;; mret idi') idi g = (g', Return idi') →
  ∃ new, g' = MkGexf (g_params g) (g_nodes g) (g_edges g ++ new)
    ∧ edges_built h sch headers idi records new.
Proof.
  revert idi g. induction records as [|record records IH]; intros idi g Hrun.
  - injection Hrun as <- <-. exists []. rewrite app_nil_r. by destruct g.
  - cbn [fold_each] in Hrun. rewrite !run_bind in Hrun. unfold lift in Hrun.
    destruct (addEdges_entry h sch headers record idi) as [[e idi1]|x] eqn:Hentry;
      [|discriminate].
    rewrite !run_bind in Hrun.
    unfold addEdge in Hrun. destruct (edgeFault g e); [discriminate|].
    simpl in Hrun. apply IH in Hrun as (new & -> & Hall). exists (e :: new). simpl.
    rewrite <- app_assoc. split; [done|]. by exists idi1.
Qed.

Lemma addEdges_entries (h : heap) (records : list record) (config : tableConfig)
    (g g' : Gexf) :
  addEdges h records config g = (g', Return tt) →
  ∃ r rest new, records = r :: rest
    ∧ g' = MkGexf (g_params g) (g_nodes g) (g_edges g ++ new)
    ∧ edges_built h (schema config) (keys r) 1 records new.
Proof.
  unfold addEdges. rewrite run_bind. destruct records as [|r rest]; [discriminate|].
  unfold lift at 1. cbn [first_keys]. rewrite run_bind.
  match goal with
  | |- context [fold_each ?xs ?body ?i g] =>
      destruct (fold_each xs body i g) as [g1 [idi'|x]] eqn:Hrun; [|discriminate]
  end.
  intros [= <-]. apply addEdges_loop in Hrun as (new & -> & Hall).
  by exists r, rest, new.
Qed.

Lemma edges_built_stored (h : heap) (sch : list schemaEl) (headers : list string)
    (idi : nat) (records : list record) (new : list edge) :
  (∀ l, SObject l ∈ sch → spec_target (h !!! l) = Some "attributes") →
  edges_built h sch headers idi records new →
  Forall2 (λ record e,
    stored_as_attributes h sch headers record (e_attributes e) (e_viz e)) records new.
Proof.
  intros Htg. revert idi new.
  induction records as [|record records IH]; intros idi [|e new] Hb; simpl in Hb; try done.
  destruct Hb as (idi' & Hentry & Hb). constructor; [|by eapply IH].
  by eapply addEdges_entry_stored.
Qed.

(** ** Defaults of the entries *)

Lemma addNodes_scan_label (h : heap) (sch : list schemaEl) (headers : list string)
    (rec : record) (idxs : list nat) (n n' : node) :
  SString "label" ∉ sch →
  fold_each idxs (addNodes_column h sch headers rec) n = Return n' →
  n_label n' = n_label n.
Proof.
  intros Hno. revert n. induction idxs as [|i idxs IH]; intros n Hrun; simpl in Hrun.
  - by injection Hrun as <-.
  - destruct (addNodes_column h sch headers rec n i) as [n1|x] eqn:Hcol; [|discriminate].
    simpl in Hrun. rewrite (IH n1 Hrun). clear IH Hrun.
    unfold addNodes_column in Hcol.
    destruct (schema_at sch i) as [s|l| | |] eqn:E; try discriminate.
    + destruct (String.eqb s "id"); [by injection Hcol as <-|].
      destruct (String.eqb_spec s "label") as [->|]; [|by injection Hcol as <-].
      by apply schema_at_marker in E.
    + repeat case_match; by injection Hcol as <-.
    + by injection Hcol as <-.
Qed.

(** Without a ['label'] marker [addNodes] never returns: on an empty
    record set [Object.keys(records[0])] throws, and otherwise the first
    record reaches [node.label = id]; the document is left as it was. *)
Lemma addNodes_without_label (h : heap) (records : list record) (config : tableConfig)
    (g : Gexf) :
  SString "label" ∉ schema config →
  ∃ e, addNodes h records config g = (g, Throw e).
Proof.
  intros Hno. unfold addNodes. rewrite run_bind.
  destruct records as [|r rest]; [by eexists|].
  unfold lift at 1. cbn [first_keys for_each]. rewrite !run_bind. unfold lift.
  unfold addNodes_entry.
  destruct (fold_each _ _ _) as [n0|x] eqn:Hscan; [|by eexists].
  apply addNodes_scan_label in Hscan; [|done]. simpl in *. rewrite Hscan.
  by eexists.
Qed.

Lemma addEdges_scan_id_label (h : heap) (sch : list schemaEl) (headers : list string)
    (rec : record) (idxs : list nat) (e e' : edge) :
  fold_each idxs (addEdges_column h sch headers rec) e = Return e' →
  (SString "id" ∉ sch → e_id e' = e_id e)
  ∧ (SString "label" ∉ sch → e_label e' = e_label e).
Proof.
  revert e. induction idxs as [|i idxs IH]; intros e Hrun; simpl in Hrun.
  - by injection Hrun as <-.
  - destruct (addEdges_column h sch headers rec e i) as [e1|x] eqn:Hcol; [|discriminate].
    simpl in Hrun. destruct (IH e1 Hrun) as [Hid Hlabel]. clear IH Hrun.
    unfold addEdges_column in Hcol.
    destruct (schema_at sch i) as [s|l| | |] eqn:E; try discriminate.
    + apply schema_at_marker in E.
      destruct (String.eqb_spec s "id") as [->|].
      { injection Hcol as <-. split; intros Hno; [done|]. by rewrite Hlabel. }
      destruct (String.eqb_spec s "label") as [->|].
      { injection Hcol as <-. split; intros Hno; [|done]. by rewrite Hid. }
      repeat case_match; injection Hcol as <-; split; intros Hno;
        first [by rewrite Hid | by rewrite Hlabel].
    + repeat case_match; injection Hcol as <-; split; intros Hno;
        first [by rewrite Hid | by rewrite Hlabel].
    + injection Hcol as <-; split; intros Hno; first [by rewrite Hid | by rewrite Hlabel].
Qed.

Lemma addEdges_entry_synthesized (h : heap) (sch : list schemaEl)
    (headers : list string) (rec : record) (idi idi' : nat) (e : edge) :
  SString "id" ∉ sch →
  addEdges_entry h sch headers rec idi = Return (e, idi') →
  idi' = S idi
  ∧ e_id e = VString ("e" +:+ pretty idi)
  ∧ (SString "label" ∉ sch → e_label e = e_id e).
Proof.
  intros Hno. unfold addEdges_entry.
  destruct (fold_each _ _ _) as [e0|x] eqn:Hscan; [|discriminate]. simpl.
  apply addEdges_scan_id_label in Hscan as [Hid Hlabel].
  rewrite (Hid Hno). simpl.
  destruct (e_label e0) eqn:El; intros [= <- <-]; simpl; split_and!; try done.
  all: intros Hnl; specialize (Hlabel Hnl); simpl in Hlabel; congruence.
Qed.

Lemma edges_built_synthesized (h : heap) (sch : list schemaEl) (headers : list string)
    (idi : nat) (records : list record) (new : list edge) :
  SString "id" ∉ sch →
  edges_built h sch headers idi records new →
  length new = length records
  ∧ (∀ k e, new !! k = Some e → e_id e = VString ("e" +:+ pretty (idi + k)%nat))
  ∧ (SString "label" ∉ sch → Forall (λ e, e_label e = e_id e) new).
Proof.
  intros Hno. revert idi new.
  induction records as [|record records IH]; intros idi [|e new] Hb; simpl in Hb; try done.
  destruct Hb as (idi' & Hentry & Hb).
  apply addEdges_entry_synthesized in Hentry as (-> & Hid & Hlabel); [|done].
  apply IH in Hb as (Hlen & Hids & Hlabels). split_and!.
  - simpl. by rewrite Hlen.
  - intros [|k] e' Hk; simpl in Hk.
    + injection Hk as <-. by rewrite Nat.add_0_r.
    + rewrite (Hids k e' Hk). by replace (S idi + k)%nat with (idi + S k)%nat by lia.
  - intros Hnl. constructor; auto.
Qed.

(** ** Failures of parseValues *)

Lemma indexOf_record (l : list string) (r : record) :
  (indexOf str_is_js l (JRecord r) <? 0) = true.
Proof. rewrite indexOf_absent. by induction l. Qed.

Lemma parseColumn_throws (records : list record) (header : string)
    (parseFn : value → outcome value) (e : exn) :
  parseColumn records header parseFn = Throw e →
  ∃ v, parseFn v = Throw e.
Proof.
  induction records as [|r records IH]; simpl; [discriminate|].
  destruct (parseFn (get r header)) as [v|x] eqn:Hv; simpl.
  - destruct (parseColumn records header parseFn) as [rest'|x]; simpl; [discriminate|].
    intros [= <-]. by apply IH.
  - intros [= <-]. by eexists.
Qed.

(** The check of the marker ['type'] fails on the first record, whatever its
    cells are: the callback is handed the record, and its message renders
    the record and then reads [ctxt]. *)
Lemma assertEdgeType_throws (r : record) (rest : list record) (header : string) :
  assertColumn (r :: rest) header (assertEdgeType header) =
    Throw (if existsb (String.eqb "toString") (keys r)
           then TypeError "Cannot convert object to primitive value"
           else ReferenceError "ctxt").
Proof.
  cbn [assertColumn]. unfold assertEdgeType. rewrite indexOf_record.
  cbn [show_js]. by destruct (existsb (String.eqb "toString") (keys r)).
Qed.

Lemma parseValues_column_no_Error (isNodeSchema : bool) (e : schemaEl) (hd : string)
    (records : list record) (h h1 : heap) (x : exn) :
  parseValues_column isNodeSchema e hd records h = (h1, Throw x) → ¬ is_Error x.
Proof.
  destruct e as [s|l| | |]; simpl; try (by intros [= _ <-] []).
  - destruct (String.eqb s "weight").
    { unfold lift. intros [= _ Hrun]. by apply parseColumn_throws in Hrun as [v [=]]. }
    destruct (String.eqb s "type"); [|discriminate].
    rewrite run_bind. unfold lift. destruct records as [|r rest]; [discriminate|].
    rewrite assertEdgeType_throws. cbn [mbind outcome_bind obind].
    destruct (existsb (String.eqb "toString") (keys r)); by intros [= _ <-] [].
  - rewrite !run_bind. unfold read, write. simpl. rewrite !run_bind. simpl.
    repeat case_match; unfold lift; intros [= _ Hrun]; try discriminate.
    + by apply parseColumn_throws in Hrun as [v [=]].
    + by apply parseColumn_throws in Hrun as [v [=]].
    + apply parseColumn_throws in Hrun as [v Hv].
      destruct v; simpl in Hv; try discriminate; by injection Hv as <-; intros [].
Qed.

(** X4. [parseValues] throws no [Error]: none of its messages that name a
    column and a value is ever the outcome. *)
Lemma parseValues_no_Error (records : list record) (schema : list schemaEl)
    (isNodeSchema : bool) (h h' : heap) (x : exn) :
  parseValues records schema isNodeSchema h = (h', Throw x) → ¬ is_Error x.
Proof.
  destruct records as [|r rest]; [by intros [= _ <-] []|].
  rewrite parseValues_run. unfold parseValues_loop.
  generalize (r :: rest) as records. generalize (visited schema (keys r)) as cols.
  intros cols. revert h. induction cols as [|[e hd] cols IH]; intros h records; [discriminate|].
  cbn [fold_each fst snd]. rewrite run_bind.
  destruct (parseValues_column isNodeSchema e hd records h) as [h1 [records1|y]] eqn:Hcol.
  - apply IH.
  - intros [= _ <-]. by eapply parseValues_column_no_Error.
Qed.

Lemma parseValues_column_type_marker (isNodeSchema : bool) (hd : string)
    (r : record) (rest : list record) (h : heap) :
  parseValues_column isNodeSchema (SString "type") hd (r :: rest) h =
    (h, Throw (if existsb (String.eqb "toString") (keys r)
               then TypeError "Cannot convert object to primitive value"
               else ReferenceError "ctxt")).
Proof.
  unfold parseValues_column.
  change (String.eqb "type" "weight") with false.
  change (String.eqb "type" "type") with true. cbv iota.
  rewrite run_bind. unfold lift. by rewrite assertEdgeType_throws.
Qed.

(** A schema with the marker ['type'] at the index of a column makes
    [parseValues] throw, whatever the cells of that column are. *)
Lemma parseValues_type_marker_throws (r : record) (rest : list record)
    (schema : list schemaEl) (isNodeSchema : bool) (h : heap) (coli : nat) :
  (coli < length (keys r))%nat →
  schema !! coli = Some (SString "type") →
  ∃ h' x, parseValues (r :: rest) schema isNodeSchema h = (h', Throw x).
Proof.
  intros Hlt Hs. rewrite parseValues_run. unfold parseValues_loop.
  pose proof (visited_elem schema (keys r) coli _ Hlt Hs) as Hin.
  assert (r :: rest ≠ []) as Hne by done.
  revert Hin Hne. generalize (keys r !!! coli) as hd.
  generalize (r :: rest) as records. generalize (visited schema (keys r)) as cols.
  intros cols. revert h. induction cols as [|[e hd0] cols IH]; intros h records hd Hin Hne.
  - by apply elem_of_nil in Hin.
  - cbn [fold_each fst snd]. rewrite run_bind.
    destruct (parseValues_column isNodeSchema e hd0 records h) as [h1 [records1|y]] eqn:Hcol;
      [|by do 2 eexists].
    apply elem_of_cons in Hin as [[= <- <-]|Hin].
    + destruct records as [|r0 rest0]; [done|].
      rewrite parseValues_column_type_marker in Hcol. discriminate.
    + apply (IH h1 records1 hd Hin).
      apply parseValues_column_others in Hcol. intros ->.
      apply Forall2_nil_inv_r in Hcol. done.
Qed.

(** ** convert *)

(** The promise of [convert] never resolves to a path: whenever it
    resolves, with or without [saveAs], it resolves to a document. *)
Lemma convert_resolves_document (config : config) (h h' : heap) (res : resolution) :
  convert config h = (h', Return res) → ∃ gexfObj, res = Document gexfObj.
Proof.
  unfold convert. rewrite !run_bind.
  destruct (loadCSV (cfg_nodes config) true h) as [h1 [nodeRecords|x]]; [|discriminate].
  rewrite !run_bind.
  destruct (loadCSV (cfg_edges config) false h1) as [h2 [edgeRecords|x]]; [|discriminate].
  rewrite !run_bind.
  destruct (createGexf nodeRecords edgeRecords config h2) as [h3 [gexfObj|x]]; [|discriminate].
  destruct (saveAs config) as [path|].
  - rewrite run_bind. unfold lift.
    destruct (saveGexf gexfObj path) as [gexfObj'|x]; [|discriminate].
    intros [= _ <-]. by eexists.
  - intros [= _ <-]. by eexists.
Qed.

(** ** When parseValues and addEdges return *)

Lemma parseColumn_returns (records : list record) (header : string)
    (parseFn : value → outcome value) :
  Forall (λ r, ∃ v, parseFn (get r header) = Return v) records →
  ∃ records', parseColumn records header parseFn = Return records'.
Proof.
  induction 1 as [|r records [v Hv] _ [records' IH]]; simpl; [by eexists|].
  rewrite Hv. simpl. rewrite IH. simpl. by eexists.
Qed.

Lemma parseValues_column_returns (isNodeSchema : bool) (e : schemaEl) (hd : string)
    (records : list record) (h : heap) :
  coercible e = true →
  Forall (textual [hd]) records →
  ∃ h1 records1, parseValues_column isNodeSchema e hd records h = (h1, Return records1).
Proof.
  intros Hc Htext.
  assert (∀ f, (∀ s, ∃ v, f (VString s) = Return v) →
            ∃ records1, parseColumn records hd f = Return records1) as Hcol.
  { intros f Hf. apply parseColumn_returns. eapply Forall_impl; [exact Htext|].
    intros r Hr. destruct (Hr hd) as [s ->]; [left|]. apply Hf. }
  destruct (Hcol viaParseFloat) as [rf Hrf]; [by eexists|].
  destruct (Hcol viaParseInt) as [ri Hri]; [by eexists|].
  destruct (Hcol parseBoolean) as [rb Hrb]; [by eexists|].
  destruct e as [s|l| | |]; simpl in Hc; try discriminate.
  - unfold parseValues_column. apply negb_true_iff in Hc. rewrite Hc.
    destruct (String.eqb s "weight"); unfold lift; rewrite ?Hrf; by do 2 eexists.
  - simpl. rewrite !run_bind. unfold read, write. simpl. rewrite !run_bind. simpl.
    repeat case_match; unfold lift; rewrite ?Hrf, ?Hri, ?Hrb; by do 2 eexists.
Qed.

Lemma parseValues_loop_returns (isNodeSchema : bool) (cols : list (schemaEl * string))
    (records : list record) (h : heap) :
  NoDup cols.*2 →
  forallb coercible cols.*1 = true →
  Forall (textual cols.*2) records →
  ∃ h' records', parseValues_loop isNodeSchema cols records h = (h', Return records').
Proof.
  revert records h. induction cols as [|[e hd] cols IH]; intros records h Hnd Hc Htext.
  - by do 2 eexists.
  - cbn [fmap list_fmap fst snd forallb] in *.
    apply andb_true_iff in Hc as [Hce Hc]. apply NoDup_cons in Hnd as [Hnotin Hnd].
    destruct (parseValues_column_returns isNodeSchema e hd records h Hce)
      as (h1 & records1 & Hcol).
    { eapply Forall_impl; [exact Htext|]. intros r Hr hd' ->%list_elem_of_singleton.
      apply Hr. left. }
    unfold parseValues_loop. cbn [fold_each fst snd]. rewrite run_bind, Hcol.
    apply (IH records1 h1 Hnd Hc).
    apply parseValues_column_others in Hcol.
    clear -Hcol Htext Hnotin. induction Hcol as [|r r1 records records1 Hr _ IH'].
    + constructor.
    + apply Forall_cons in Htext as [Htr Htext]. constructor; [|by apply IH'].
      intros hd' Hin. rewrite Hr by (by intros ->). apply Htr. by right.
Qed.

(** X1. On records of strings with distinct headers, and a schema of as many
    elements as there are headers, all of them objects or strings other than
    ['type'], [parseValues] returns. *)
Lemma parseValues_returns (r : record) (rest : list record) (schema : list schemaEl)
    (isNodeSchema : bool) (h : heap) :
  NoDup (keys r) →
  length (keys r) = length schema →
  forallb coercible schema = true →
  Forall (textual (keys r)) (r :: rest) →
  ∃ h' records', parseValues (r :: rest) schema isNodeSchema h = (h', Return records').
Proof.
  intros Hnd Hlen Hc Htext. rewrite parseValues_run.
  apply parseValues_loop_returns.
  - by rewrite visited_snd.
  - rewrite visited_same_length, fst_zip by lia. done.
  - by rewrite visited_snd.
Qed.

Lemma addEdges_column_returns (h : heap) (sch : list schemaEl) (headers : list string)
    (rec : record) (e : edge) (coli : nat) :
  schema_at sch coli ≠ SNull → schema_at sch coli ≠ SUndefined →
  ∃ e1, addEdges_column h sch headers rec e coli = Return e1.
Proof.
  intros Hnn Hnu. unfold addEdges_column.
  destruct (schema_at sch coli) as [s|l| | |] eqn:E; try done.
  - repeat case_match; by eexists.
  - repeat case_match; by eexists.
  - by eexists.
Qed.

(** X2. When the document layer accepts every edge and the schema has, for
    each column, an element that is neither [null] nor [undefined],
    [addEdges] returns. *)
Lemma addEdges_returns (h : heap) (r : record) (rest : list record)
    (config : tableConfig) (g : Gexf) :
  (∀ g e, edgeFault g e = None) →
  length (keys r) = length (schema config) →
  SNull ∉ schema config → SUndefined ∉ schema config →
  ∃ g', addEdges h (r :: rest) config g = (g', Return tt).
Proof.
  intros Hacc Hlen Hnn Hnu. unfold addEdges. rewrite run_bind.
  unfold lift at 1. cbn [first_keys]. rewrite run_bind.
  assert (Hentry : ∀ rec idi, ∃ e idi',
            addEdges_entry h (schema config) (keys r) rec idi = Return (e, idi')).
  { intros rec idi. unfold addEdges_entry.
    assert (∀ idxs e0, (∀ i, i ∈ idxs → (i < length (keys r))%nat) →
              ∃ e1, fold_each idxs (addEdges_column h (schema config) (keys r) rec) e0
                    = Return e1) as Hscan.
    { induction idxs as [|i idxs IH]; intros e0 Hin; [by eexists|]. simpl.
      destruct (addEdges_column_returns h (schema config) (keys r) rec e0 i) as [e1 ->].
      1,2: unfold schema_at;
        destruct (lookup_lt_is_Some_2 (schema config) i) as [el Hel];
        [rewrite <- Hlen; apply Hin; left|];
        rewrite Hel; simpl; intros ->;
        first [apply Hnn; by eapply list_elem_of_lookup_2
              |apply Hnu; by eapply list_elem_of_lookup_2].
      simpl. apply IH. intros i' Hi'. apply Hin. by right. }
    destruct (Hscan (seq 0 (length (keys r)))
                (Edge VUndefined VUndefined VUndefined VUndefined VUndefined VUndefined
                      None None)) as [e1 ->].
    { intros i Hi. apply elem_of_seq in Hi. lia. }
    simpl. repeat case_match; simplify_eq; by do 2 eexists. }
  generalize (r :: rest) as records. generalize 1%nat as idi. intros idi records.
  revert idi g. induction records as [|rec records IH]; intros idi g.
  - by eexists.
  - cbn [fold_each]. rewrite !run_bind. unfold lift at 1.
    destruct (Hentry rec idi) as (e & idi' & ->). rewrite !run_bind.
    unfold addEdge at 1. rewrite Hacc. cbn [mret ST_ret].
    apply IH.
Qed.

(** ** deriveModel *)

(** X3. On a schema without [null], [deriveModel] returns the entries of the
    attribute declarations, in column order, each with the id, the type and
    the title of its declaration. *)
Lemma deriveModel_attributes (h : heap) (schema : list schemaEl) :
  SNull ∉ schema → deriveModel h schema = Return (omap (model_of h) schema).
Proof.
  induction schema as [|e schema IH]; intros Hnn; [done|].
  apply not_elem_of_cons in Hnn as [Hne Hnn]. specialize (IH Hnn).
  destruct e as [s|l| | |]; simpl; try done.
  rewrite IH. simpl. by destruct (str_is_opt "attributes" (spec_target (h !!! l))).
Qed.

(** ** One node, from its record to its entry *)

(** The table with the schema [['id', 'label', {target: 'attributes', type:
    'float'}]] and the one row [n1, Node One, 3.14]: [checkSchema] and
    [parseValues] return, and the entry that [addNodes] then builds has the
    id, the label, and under the header of the third column the number that
    [parseFloat] makes of ['3.14']. *)
Example node_entry_of_record :
  let record := [("id", VString "n1"); ("label", VString "Node One");
                 ("score", VString "3.14")] in
  let schema := [SString "id"; SString "label"; SObject 0] in
  let h := {[ 0%nat := SpecObj (Some "attributes") None None (Some "float") ]} in
  let h' := {[ 0%nat := SpecObj (Some "attributes") (Some "score") (Some "score")
                                (Some "float") ]} in
  let record' := [("id", VString "n1"); ("label", VString "Node One");
                  ("score", VNumber (parseFloat (VString "3.14")))] in
  checkSchema [record] schema true h = (h', Return tt)
  ∧ parseValues [record] schema true h' = (h', Return [record'])
  ∧ addNodes_entry h' schema (keys record') record'
    = Return (Node (VString "n1") (VString "Node One")
                   (Some {[ "score" := VNumber (parseFloat (VString "3.14")) ]}) None).
Proof. split_and!; vm_compute; reflexivity. Qed.

(** ** checkSchema: every outcome *)

Lemma with_defaults_other (hd : string) (o : specObj) :
  spec_target o ≠ Some "attributes" → with_defaults hd o = o.
Proof.
  intros Hne. unfold with_defaults. destruct (spec_target o) as [tg|]; [|done].
  cbn [str_is_opt]. destruct (String.eqb_spec "attributes" tg) as [<-|]; [by destruct Hne|done].
Qed.

(** What a column of [checkSchema] leaves in the heap, whether it returns or
    throws: the defaults of its element and nothing else; it returns on a
    valid element only, and what it throws on an element other than [null]
    is an [Error]. *)
Lemma checkSchema_column_step (isNodeSchema : bool) (ctxt : string) (h h1 : heap)
    (e : schemaEl) (hd : string) (out : outcome unit) :
  checkSchema_column isNodeSchema ctxt e hd h = (h1, out) →
  (∀ l, e = SObject l → h1 !!! l = with_defaults hd (h !!! l))
  ∧ (∀ l, e ≠ SObject l → h1 !! l = h !! l)
  ∧ (out = Return tt → valid_element isNodeSchema h e = true)
  ∧ (∀ x, out = Throw x → e ≠ SNull → is_Error x).
Proof.
  destruct e as [s|l| | |]; cbn [valid_element].
  - unfold checkSchema_column. rewrite !mem_indexOf.
    destruct isNodeSchema; simpl; destruct (mem s _); simpl;
      unfold mret, ST_ret, throw; intros [= <- <-];
      split_and!; try done; by intros x [= <-] _.
  - unfold checkSchema_column. rewrite run_bind. unfold read at 1.
    pose proof (with_defaults_other hd (h !!! l)) as Hother.
    destruct (h !!! l) as [tg i t ty] eqn:Ho.
    cbn [spec_target spec_id spec_title spec_type] in *.
    destruct tg as [tg|].
    2:{ simpl. unfold throw. intros [= <- <-]. split_and!; try done.
        - intros l0 [= <-]. by rewrite Ho, Hother.
        - by intros x [= <-] _. }
    cbn [str_is_opt]. rewrite !(String.eqb_sym _ tg).
    destruct (String.eqb_spec tg "attributes") as [->|Hna].
    + clear Hother. unfold with_defaults.
      destruct i as [i|], t as [t|]; simpl;
        repeat (rewrite run_bind; unfold read, write, mret, ST_ret; simpl;
                rewrite ?lookup_total_insert_eq, ?Ho; simpl);
        rewrite ?mem_opt_indexOf; destruct (mem_opt ty attributeTypes); simpl;
        unfold mret, ST_ret, throw; intros [= <- <-]; split_and!; try done.
      all: try (intros l0 [= <-]; rewrite ?lookup_total_insert_eq, ?Ho; reflexivity).
      all: try (intros l0 Hne; rewrite ?lookup_insert_ne by congruence; reflexivity).
      all: by intros x [= <-] _.
    + assert (Hsame : ∀ l0, SObject l = SObject l0 → h !!! l0 = with_defaults hd (h !!! l0)).
      { intros l0 [= <-]. rewrite Ho, Hother; [done|congruence]. }
      destruct (String.eqb_spec tg "viz") as [->|Hnv].
      * rewrite !mem_opt_indexOf.
        destruct isNodeSchema, i as [i|]; simpl;
          try destruct (mem i _); simpl; unfold mret, ST_ret, throw;
          intros [= <- <-]; split_and!; try done.
        all: by intros x [= <-] _.
      * simpl. unfold throw. intros [= <- <-]. split_and!; try done.
        by intros x [= <-] _.
  - simpl. unfold throw. intros [= <- <-]. split_and!; done.
  - simpl. unfold throw. intros [= <- <-]. split_and!; try done. by intros x [= <-] _.
  - simpl. unfold throw. intros [= <- <-]. split_and!; try done. by intros x [= <-] _.
Qed.

Lemma checkSchema_loop_step (isNodeSchema : bool) (ctxt : string)
    (cols : list (schemaEl * string)) (h h' : heap) (out : outcome unit) :
  for_each cols (λ p, checkSchema_column isNodeSchema ctxt p.1 p.2) h = (h', out) →
  (∀ l, h' !!! l = h !!! l
        ∨ ∃ hd, (SObject l, hd) ∈ cols ∧ h' !!! l = with_defaults hd (h !!! l))
  ∧ (∀ l, SObject l ∉ cols.*1 → h' !! l = h !! l)
  ∧ (out = Return tt → forallb (valid_element isNodeSchema h) cols.*1 = true)
  ∧ (∀ x, out = Throw x → SNull ∉ cols.*1 → is_Error x).
Proof.
  revert h. induction cols as [|[e hd] cols IH]; intros h Hrun.
  - injection Hrun as <- <-. split_and!; try done. by left.
  - cbn [for_each fst snd] in Hrun. rewrite run_bind in Hrun.
    destruct (checkSchema_column isNodeSchema ctxt e hd h) as [h1 out1] eqn:Hcol.
    apply checkSchema_column_step in Hcol as (Hat & Hframe & Hvalid & Herr).
    assert (Hstep : ∀ l, h1 !!! l = if decide (e = SObject l) then with_defaults hd (h !!! l)
                                      else h !!! l).
    { intros l. case_decide as He; [by apply Hat|]. by apply lookup_total_agree, Hframe. }
    cbn [fmap list_fmap fst forallb].
    destruct out1 as [[]|x].
    + destruct (IH h1 Hrun) as (Hat' & Hframe' & Hvalid' & Herr'). split_and!.
      * intros l. specialize (Hstep l).
        destruct (Hat' l) as [Heq|(hd' & Hin & Heq)]; rewrite Heq, Hstep;
          case_decide as He; subst.
        -- right. exists hd. split; [left|done].
        -- by left.
        -- right. exists hd. split; [left|]. apply with_defaults_absorb.
        -- right. exists hd'. split; [by right|done].
      * intros l [Hne Hl]%not_elem_of_cons. rewrite (Hframe' l Hl). by apply Hframe.
      * intros Hout. rewrite (Hvalid eq_refl). simpl. rewrite <- (Hvalid' Hout).
        apply forallb_agree. intros e' _. symmetry. apply valid_element_defaults.
        intros l. rewrite Hstep. case_decide; eauto.
      * intros x Hout [Hne Hnn]%not_elem_of_cons. by apply (Herr' x).
    + injection Hrun as <- <-. split_and!.
      * intros l. rewrite Hstep. case_decide as He; [|by left]. subst.
        right. exists hd. split; [left|done].
      * intros l [Hne Hl]%not_elem_of_cons. by apply Hframe.
      * done.
      * intros x' Hout [Hne Hnn]%not_elem_of_cons. apply Herr; [done|congruence].
Qed.

Lemma checkSchema_early (r : record) (rest : list record) (schema : list schemaEl)
    (isNodeSchema : bool) (h : heap) :
  length (keys r) ≠ length schema
  ∨ (if isNodeSchema then has_marker "id" schema
     else has_marker "source" schema && has_marker "target" schema) = false →
  ∃ msg, checkSchema (r :: rest) schema isNodeSchema h = (h, Throw (Error msg)).
Proof.
  intros Hcase. unfold checkSchema. rewrite run_bind. simpl.
  destruct (Nat.eqb_spec (length (keys r)) (length schema)) as [Heq|Hne]; simpl;
    [|by eexists].
  destruct Hcase as [Hne|Hreq]; [done|].
  rewrite !run_bind, !has_marker_indexOf. destruct isNodeSchema.
  - rewrite Hreq. by eexists.
  - destruct (has_marker "source" schema); simpl; [|by eexists].
    simpl in Hreq. rewrite Hreq. by eexists.
Qed.

(** [checkSchema] in every outcome, on a record set that is not empty. *)
Lemma checkSchema_step (r : record) (rest : list record) (sch : list schemaEl)
    (isNodeSchema : bool) (h h' : heap) (out : outcome unit) :
  checkSchema (r :: rest) sch isNodeSchema h = (h', out) →
  (∀ l, h' !!! l = h !!! l
        ∨ ∃ coli, sch !! coli = Some (SObject l)
            ∧ h' !!! l = with_defaults (keys r !!! coli) (h !!! l))
  ∧ (∀ l, SObject l ∉ sch → h' !! l = h !! l)
  ∧ (out = Return tt → length (keys r) = length sch ∧ valid_schema isNodeSchema h sch = true)
  ∧ (∀ x, out = Throw x → SNull ∉ sch → is_Error x).
Proof.
  intros Hrun.
  destruct (decide (length (keys r) = length sch)) as [Hlen|Hlen].
  2:{ destruct (checkSchema_early r rest sch isNodeSchema h) as [msg Hthrow]; [by left|].
      rewrite Hthrow in Hrun. injection Hrun as <- <-.
      split_and!; try done; [by left|by intros x [= <-] _]. }
  destruct (if isNodeSchema then has_marker "id" sch
            else has_marker "source" sch && has_marker "target" sch) eqn:Hreq.
  2:{ destruct (checkSchema_early r rest sch isNodeSchema h) as [msg Hthrow]; [by right|].
      rewrite Hthrow in Hrun. injection Hrun as <- <-.
      split_and!; try done; [by left|by intros x [= <-] _]. }
  rewrite checkSchema_run in Hrun by done.
  apply checkSchema_loop_step in Hrun as (Hat & Hframe & Hvalid & Herr).
  rewrite fst_zip in Hframe, Hvalid, Herr by lia.
  split_and!; try done.
  - intros l. destruct (Hat l) as [Heq|(hd & Hin & Heq)]; [by left|]. right.
    apply list_elem_of_lookup in Hin as [coli Hz]. apply lookup_zip_Some in Hz as [Hs Hk].
    exists coli. split; [done|]. by rewrite (list_lookup_total_correct _ _ _ Hk).
  - intros Hout. split; [done|]. unfold valid_schema. by rewrite Hreq, (Hvalid Hout).
Qed.

(** X5. [checkSchema] returns exactly on the valid schemas: on a record set
    that is not empty it returns if and only if the first record has as many
    headers as the schema has elements and the schema, as it stands when
    [checkSchema] is called, is valid. *)
Theorem checkSchema_returns_iff_valid (r : record) (rest : list record)
    (sch : list schemaEl) (isNodeSchema : bool) (h : heap) :
  (∃ h', checkSchema (r :: rest) sch isNodeSchema h = (h', Return tt))
  ↔ length (keys r) = length sch ∧ valid_schema isNodeSchema h sch = true.
Proof.
  split.
  - intros [h' Hrun]. by apply checkSchema_step in Hrun as (_ & _ & Hvalid & _); auto.
  - intros [Hlen Hvalid]. apply andb_true_iff in Hvalid as [Hreq Hall].
    destruct (checkSchema_loop_valid isNodeSchema (ctxt_of isNodeSchema)
                (zip sch (keys r)) h) as (h' & Hrun & _).
    { rewrite fst_zip by lia. done. }
    exists h'. by rewrite checkSchema_run.
Qed.

(** X6. Whether [checkSchema] returns or throws, it has changed no target and
    no type, it has put an id or a title only where there was none, it has
    left every object that is no attribute declaration as it was, and it
    has touched no object outside the schema. *)
Theorem checkSchema_keeps_given (records : list record) (sch : list schemaEl)
    (isNodeSchema : bool) (h h' : heap) (out : outcome unit) (l : loc) :
  checkSchema records sch isNodeSchema h = (h', out) →
  spec_target (h' !!! l) = spec_target (h !!! l)
  ∧ spec_type (h' !!! l) = spec_type (h !!! l)
  ∧ (∀ i, spec_id (h !!! l) = Some i → spec_id (h' !!! l) = Some i)
  ∧ (∀ t, spec_title (h !!! l) = Some t → spec_title (h' !!! l) = Some t)
  ∧ (spec_target (h !!! l) ≠ Some "attributes" → h' !!! l = h !!! l)
  ∧ (SObject l ∉ sch → h' !! l = h !! l).
Proof.
  intros Hrun. destruct records as [|r rest].
  { injection Hrun as <- <-. done. }
  apply checkSchema_step in Hrun as (Hat & Hframe & _).
  destruct (Hat l) as [->|(coli & _ & ->)]; [split_and!; auto|].
  split_and!; auto.
  - unfold with_defaults. by case_match.
  - unfold with_defaults. by case_match.
  - intros i Hi. unfold with_defaults. case_match; [|done]. simpl. by rewrite Hi.
  - intros t Ht. unfold with_defaults. case_match; [|done]. simpl. by rewrite Ht.
  - apply with_defaults_other.
Qed.

(** X7. What [checkSchema] throws on a record set that is not empty and a
    schema without [null] is an [Error], whichever check fails. *)
Theorem checkSchema_throws_Error (r : record) (rest : list record)
    (sch : list schemaEl) (isNodeSchema : bool) (h h' : heap) (x : exn) :
  SNull ∉ sch →
  checkSchema (r :: rest) sch isNodeSchema h = (h', Throw x) →
  is_Error x.
Proof.
  intros Hnn Hrun. apply checkSchema_step in Hrun as (_ & _ & _ & Herr). by apply Herr.
Qed.

Lemma for_each_app_ST {S A} (xs ys : list A) (body : A → ST S unit) (s : S) :
  for_each (xs ++ ys) body s =
    match for_each xs body s with
    | (s', Return _) => for_each ys body s'
    | (s', Throw e) => (s', Throw e)
    end.
Proof.
  revert s. induction xs as [|x xs IH]; intros s; [done|].
  simpl. rewrite !run_bind. destruct (body x s) as [s1 [[]|e]]; [apply IH|done].
Qed.

Lemma defaults_along_app (xs ys : list (schemaEl * string)) (l : loc) (o : specObj) :
  defaults_along (xs ++ ys) l o = defaults_along ys l (defaults_along xs l o).
Proof. revert o. induction xs as [|[e hd] xs IH]; intros o; [done|]. simpl. apply IH. Qed.

Lemma defaults_along_shape (cols : list (schemaEl * string)) (l : loc) (o : specObj) :
  defaults_along cols l o = o ∨ ∃ hd, defaults_along cols l o = with_defaults hd o.
Proof.
  revert o. induction cols as [|[e hd] cols IH]; intros o; simpl; [by left|].
  case_decide; [|apply IH]. right. exists hd. apply defaults_along_absorb.
Qed.

(** X8. No rollback.  When the header count is the schema length, the
    required markers are there, the elements before a column are valid and
    the element of that column is not, [checkSchema] throws (an [Error],
    unless the element is [null]), and it leaves the defaults that the columns
    up to that one give: those before it, and the id and title of the
    attribute declaration whose type it refuses. *)
Theorem checkSchema_first_invalid (r : record) (rest : list record)
    (sch : list schemaEl) (isNodeSchema : bool) (h : heap) (coli : nat) (e : schemaEl) :
  length (keys r) = length sch →
  (if isNodeSchema then has_marker "id" sch
   else has_marker "source" sch && has_marker "target" sch) = true →
  sch !! coli = Some e →
  forallb (valid_element isNodeSchema h) (take coli sch) = true →
  valid_element isNodeSchema h e = false →
  ∃ h' x, checkSchema (r :: rest) sch isNodeSchema h = (h', Throw x)
    ∧ (e ≠ SNull → is_Error x)
    ∧ ∀ l, h' !!! l = defaults_along (take (S coli) (zip sch (keys r))) l (h !!! l).
Proof.
  intros Hlen Hreq He Hpre Hbad. rewrite checkSchema_run by done.
  destruct (lookup_lt_is_Some_2 (keys r) coli) as [hd Hhd].
  { rewrite Hlen. by eapply lookup_lt_Some. }
  assert (Hz : zip sch (keys r) !! coli = Some (e, hd)) by (by apply lookup_zip_Some).
  rewrite (take_S_r _ _ _ Hz).
  remember (take coli (zip sch (keys r))) as pre eqn:Hpre_eq.
  rewrite <- (take_drop_middle _ _ _ Hz), <- Hpre_eq, for_each_app_ST.
  destruct (checkSchema_loop_valid isNodeSchema (ctxt_of isNodeSchema)
              pre h) as (h1 & -> & Hat & _).
  { rewrite Hpre_eq, fmap_take, fst_zip by lia. done. }
  cbn [for_each fst snd]. rewrite run_bind.
  destruct (checkSchema_column isNodeSchema (ctxt_of isNodeSchema) e hd h1)
    as [h2 out] eqn:Hcol.
  apply checkSchema_column_step in Hcol as (Hat2 & Hframe2 & Hvalid2 & Herr2).
  destruct out as [[]|x].
  - rewrite (valid_element_defaults isNodeSchema h h1) in Hvalid2.
    + rewrite Hbad in Hvalid2. by specialize (Hvalid2 eq_refl).
    + intros l. rewrite Hat. apply defaults_along_shape.
  - exists h2, x. split_and!; [done|by apply Herr2|].
    intros l. rewrite defaults_along_app. simpl.
    rewrite <- Hat. case_decide as Hel; [by apply Hat2|].
    by apply lookup_total_agree, Hframe2.
Qed.

(** ** parseValues: the cells it makes *)

Lemma coercion_heap (h h1 : heap) (e : schemaEl) (v : value) :
  (∀ l, spec_type (h1 !!! l) = spec_type (h !!! l)) → coercion h1 e v = coercion h e v.
Proof. intros Hty. destruct e as [s|l| | |]; try done. unfold coercion. by rewrite Hty. Qed.

Lemma parseValues_column_cells (isNodeSchema : bool) (e : schemaEl) (hd : string)
    (records records1 : list record) (h h1 : heap) :
  parseValues_column isNodeSchema e hd records h = (h1, Return records1) →
  Forall2 (λ r r1, coercion h e (get r hd) = Return (get r1 hd)) records records1.
Proof.
  assert (Hcol : ∀ f, parseColumn records hd f = Return records1 →
            Forall2 (λ r r1, f (get r hd) = Return (get r1 hd)) records records1).
  { intros f Hrun. apply parseColumn_spec in Hrun.
    eapply Forall2_impl; [exact Hrun|]. by intros r r' [? _]. }
  destruct e as [s|l| | |]; cbn [parseValues_column coercion]; try discriminate.
  - destruct (String.eqb s "weight").
    { unfold lift. intros [= _ Hrun]. by apply Hcol. }
    destruct (String.eqb s "type").
    + rewrite run_bind. unfold lift.
      destruct (assertColumn records hd (assertEdgeType hd)); [|discriminate].
      intros [= _ <-]. by apply Forall2_same.
    + intros [= _ <-]. by apply Forall2_same.
  - rewrite !run_bind. unfold read, write. simpl. rewrite !run_bind. simpl.
    rewrite lookup_total_insert_eq. simpl.
    repeat case_match; unfold lift; intros [= _ Hrun];
      first [by apply Hcol | subst; by apply Forall2_same].
Qed.

Lemma parseValues_loop_cells (isNodeSchema : bool) (cols : list (schemaEl * string))
    (records records' : list record) (h h' : heap) :
  parseValues_loop isNodeSchema cols records h = (h', Return records') →
  NoDup cols.*2 → ∀ e hd, (e, hd) ∈ cols →
  Forall2 (λ r r', coercion h e (get r hd) = Return (get r' hd)) records records'.
Proof.
  revert records h. induction cols as [|[e0 hd0] cols IH]; intros records h Hrun Hnd e hd Hin.
  { by apply elem_of_nil in Hin. }
  pose proof Hrun as Hloop.
  unfold parseValues_loop in Hrun. cbn [fold_each fst snd] in Hrun.
  rewrite run_bind in Hrun.
  destruct (parseValues_column isNodeSchema e0 hd0 records h) as [h1 [records1|x]] eqn:Hcol;
    [|discriminate].
  pose proof (λ l, parseValues_column_type _ _ _ _ _ _ _ l Hcol) as Hfields.
  pose proof (parseValues_column_others _ _ _ _ _ _ _ Hcol) as Hothers.
  pose proof (parseValues_column_cells _ _ _ _ _ _ _ Hcol) as Hcells.
  cbn [fmap list_fmap snd] in Hnd. apply NoDup_cons in Hnd as [Hnotin Hnd].
  apply elem_of_cons in Hin as [[= -> ->]|Hin].
  - apply parseValues_loop_spec in Hrun as (_ & _ & Hkeep & _).
    eapply Forall2_compose; [|exact Hcells|exact (Hkeep _ Hnotin)].
    intros x y z Hxy Hyz. cbn beta in Hyz. by rewrite Hyz.
  - assert (hd ≠ hd0) as Hne.
    { intros ->. apply Hnotin. apply list_elem_of_fmap. by exists (e, hd0). }
    eapply Forall2_compose; [|exact Hothers|exact (IH records1 h1 Hrun Hnd e hd Hin)].
    intros x y z Hxy Hyz. cbn beta in *. rewrite <- (Hxy hd Hne), <- Hyz.
    symmetry. apply coercion_heap. intros l. by destruct (Hfields l) as (? & _).
Qed.

Lemma keys_assign (r : record) (hd : string) (v : value) :
  hd ∈ keys r → keys (assign r hd v) = keys r.
Proof.
  intros Hin. unfold assign. rewrite (proj2 (has_key_spec r hd) Hin). clear Hin.
  induction r as [|[k w] r IH]; [done|].
  cbn [replace_key]. destruct (String.eqb k hd); [done|].
  cbn [keys fmap list_fmap fst] in *. by f_equal.
Qed.

Lemma parseColumn_keys (records records' : list record) (header : string)
    (parseFn : value → outcome value) :
  parseColumn records header parseFn = Return records' →
  Forall2 (λ r r', header ∈ keys r → keys r' = keys r) records records'.
Proof.
  revert records'. induction records as [|r records IH]; intros records' Hrun; simpl in Hrun.
  - injection Hrun as <-. constructor.
  - destruct (parseFn (get r header)) as [v|e]; simpl in Hrun; [|discriminate].
    destruct (parseColumn records header parseFn) as [rest'|e]; simpl in Hrun; [|discriminate].
    injection Hrun as <-. constructor; [|by apply IH]. apply keys_assign.
Qed.

Lemma parseValues_column_keys (isNodeSchema : bool) (e : schemaEl) (hd : string)
    (records records1 : list record) (h h1 : heap) :
  parseValues_column isNodeSchema e hd records h = (h1, Return records1) →
  Forall2 (λ r r1, hd ∈ keys r → keys r1 = keys r) records records1.
Proof.
  destruct e as [s|l| | |]; simpl; try (by intros [= _ ?]).
  - destruct (String.eqb s "weight").
    { unfold lift. intros [= _ Hrun]. by apply parseColumn_keys in Hrun. }
    destruct (String.eqb s "type").
    + rewrite run_bind. unfold lift.
      destruct (assertColumn records hd (assertEdgeType hd)); [|by intros [= _ ?]].
      intros [= _ <-]. by apply Forall2_same.
    + intros [= _ <-]. by apply Forall2_same.
  - rewrite !run_bind. unfold read, write. simpl. rewrite !run_bind. simpl.
    repeat case_match; unfold lift; intros [= _ Hrun];
      first [by apply parseColumn_keys in Hrun | subst; by apply Forall2_same].
Qed.

Lemma parseValues_loop_keys (isNodeSchema : bool) (cols : list (schemaEl * string))
    (records records' : list record) (h h' : heap) :
  parseValues_loop isNodeSchema cols records h = (h', Return records') →
  Forall2 (λ r r', (∀ hd, hd ∈ cols.*2 → hd ∈ keys r) → keys r' = keys r) records records'.
Proof.
  revert records h. induction cols as [|[e hd] cols IH]; intros records h Hrun.
  - injection Hrun as <- <-. by apply Forall2_same.
  - unfold parseValues_loop in Hrun. cbn [fold_each fst snd] in Hrun.
    rewrite run_bind in Hrun.
    destruct (parseValues_column isNodeSchema e hd records h) as [h1 [records1|x]] eqn:Hcol;
      [|discriminate].
    apply parseValues_column_keys in Hcol.
    eapply Forall2_compose; [|exact Hcol|exact (IH records1 h1 Hrun)].
    intros x y z Hxy Hyz Hall. cbn beta in *. cbn [fmap list_fmap snd] in Hall.
    assert (keys y = keys x) as Hy by (apply Hxy, Hall; left).
    rewrite Hyz, Hy; [done|]. intros hd' Hin. rewrite Hy. apply Hall. by right.
Qed.

(** X9. When [parseValues] returns, the keys of a record being distinct,
    every record (the first included) has under the header of each column
    what the parser of that column makes of the cell it had: the number of
    [parseFloat] under the marker ['weight'] and under an object of type
    ['float'], the number of [parseInt] under an object of type ['integer'],
    the boolean of [parseBoolean] under an object of type ['boolean'], and
    the cell itself under every other element.  The target and the id of an
    object have no part in it.  Cells under other keys, and the keys of each
    record that has the headers of the first, are as they were. *)
Theorem parseValues_cells (r : record) (rest : list record) (sch : list schemaEl)
    (isNodeSchema : bool) (h h' : heap) (records' : list record) :
  NoDup (keys r) →
  parseValues (r :: rest) sch isNodeSchema h = (h', Return records') →
  (∀ coli, (coli < length (keys r))%nat →
     Forall2 (λ rec rec', coercion h (schema_at sch coli) (get rec (keys r !!! coli))
                          = Return (get rec' (keys r !!! coli))) (r :: rest) records')
  ∧ (∀ hd, hd ∉ keys r → Forall2 (λ rec rec', get rec' hd = get rec hd) (r :: rest) records')
  ∧ Forall2 (λ rec rec', keys r ⊆ keys rec → keys rec' = keys rec) (r :: rest) records'.
Proof.
  intros Hnd Hrun. rewrite parseValues_run in Hrun. split_and!.
  - intros coli Hlt. eapply parseValues_loop_cells; [exact Hrun|by rewrite visited_snd|].
    apply list_elem_of_lookup. exists coli. by apply visited_lookup.
  - intros hd Hno. apply parseValues_loop_spec in Hrun as (_ & _ & Hkeep & _).
    apply Hkeep. by rewrite visited_snd.
  - apply parseValues_loop_keys in Hrun. rewrite visited_snd in Hrun.
    eapply Forall2_impl; [exact Hrun|]. intros rec rec' Hk Hsub. apply Hk. apply Hsub.
Qed.

(** ** parseValues: every outcome *)

Lemma parseValues_loop_heap (isNodeSchema : bool) (cols : list (schemaEl * string))
    (records : list record) (h h' : heap) (out : outcome (list record)) (l : loc) :
  parseValues_loop isNodeSchema cols records h = (h', out) →
  (h' !!! l = h !!! l ∨ h' !!! l = with_target (h !!! l) "attributes")
  ∧ (SObject l ∉ cols.*1 → h' !! l = h !! l).
Proof.
  revert records h. induction cols as [|[e hd] cols IH]; intros records h Hrun.
  - injection Hrun as <- <-. split; [by left|done].
  - unfold parseValues_loop in Hrun. cbn [fold_each fst snd] in Hrun.
    rewrite run_bind in Hrun.
    destruct (parseValues_column isNodeSchema e hd records h) as [h1 out1] eqn:Hcol.
    apply parseValues_column_heap in Hcol.
    assert (Hstep : (h1 !!! l = h !!! l ∨ h1 !!! l = with_target (h !!! l) "attributes")
                    ∧ (e ≠ SObject l → h1 !! l = h !! l)).
    { subst h1. destruct e as [s|l'| | |]; try (split; [by left|done]).
      destruct (decide (l' = l)) as [->|Hne].
      - rewrite lookup_total_insert_eq. split; [by right|done].
      - rewrite lookup_total_insert_ne, lookup_insert_ne by done. split; [by left|done]. }
    destruct Hstep as [Hat Hframe]. cbn [fmap list_fmap fst].
    destruct out1 as [records1|x].
    + destruct (IH records1 h1 Hrun) as [Hat' Hframe']. split.
      * destruct Hat' as [->| ->]; [done|]. right. by destruct Hat as [->| ->].
      * intros [Hne Hl]%not_elem_of_cons. rewrite (Hframe' Hl). apply Hframe. congruence.
    + injection Hrun as <- <-. split; [done|].
      intros [Hne Hl]%not_elem_of_cons. apply Hframe. congruence.
Qed.

Lemma parseValues_heap (records : list record) (sch : list schemaEl)
    (isNodeSchema : bool) (h h' : heap) (out : outcome (list record)) (l : loc) :
  parseValues records sch isNodeSchema h = (h', out) →
  h' !!! l = h !!! l ∨ h' !!! l = with_target (h !!! l) "attributes".
Proof.
  intros Hrun. destruct records as [|r rest].
  { injection Hrun as <- <-. by left. }
  rewrite parseValues_run in Hrun.
  by apply (parseValues_loop_heap _ _ _ _ _ _ l) in Hrun as [Hat _].
Qed.

Lemma parseValues_frame (records : list record) (sch : list schemaEl)
    (isNodeSchema : bool) (h h' : heap) (out : outcome (list record)) :
  parseValues records sch isNodeSchema h = (h', out) →
  ∀ l, SObject l ∉ sch → h' !! l = h !! l.
Proof.
  intros Hrun l Hno. destruct records as [|r rest].
  { by injection Hrun as <- <-. }
  rewrite parseValues_run in Hrun.
  destruct (parseValues_loop_heap _ _ _ _ _ _ l Hrun) as [_ Hframe].
  apply Hframe. intros Hin. apply Hno.
  apply list_elem_of_fmap in Hin as [[e hd] [He Hin]]. simpl in He. subst e.
  apply list_elem_of_lookup in Hin as [coli Hcoli].
  pose proof (lookup_lt_Some _ _ _ Hcoli) as Hlt.
  unfold visited in Hlt. rewrite length_fmap, length_seq in Hlt.
  rewrite visited_lookup in Hcoli by done. injection Hcoli as Hs _.
  apply schema_at_elem in Hs. by eapply list_elem_of_lookup_2.
Qed.

(** X10. Whether [parseValues] returns or throws, all it has done to the
    objects of the schema is to set targets to ['attributes']: every id,
    title and type is as it was, and an object that is at no column of the
    schema is untouched. *)
Theorem parseValues_keeps_declarations (records : list record) (sch : list schemaEl)
    (isNodeSchema : bool) (h h' : heap) (out : outcome (list record)) (l : loc) :
  parseValues records sch isNodeSchema h = (h', out) →
  (h' !!! l = h !!! l ∨ h' !!! l = with_target (h !!! l) "attributes")
  ∧ (SObject l ∉ sch → h' !! l = h !! l).
Proof.
  intros Hrun. split.
  - by eapply parseValues_heap.
  - by eapply parseValues_frame.
Qed.

Lemma settled_refl (h : heap) : settled h h.
Proof. by intros l. Qed.

Lemma settled_trans (h1 h2 h3 : heap) : settled h1 h2 → settled h2 h3 → settled h1 h3.
Proof.
  intros H12 H23 l. destruct (H12 l) as [E1 T1], (H23 l) as [E2 T2].
  split; [congruence|auto].
Qed.

Lemma checkSchema_settled (records : list record) (sch : list schemaEl)
    (isNodeSchema : bool) (h h' : heap) (out : outcome unit) :
  checkSchema records sch isNodeSchema h = (h', out) → settled h h'.
Proof.
  intros Hrun l. destruct records as [|r rest].
  { injection Hrun as <- <-. done. }
  apply checkSchema_step in Hrun as (Hat & _).
  destruct (Hat l) as [->|(coli & _ & ->)]; [done|].
  unfold with_defaults. by case_match.
Qed.

Lemma parseValues_settled (records : list record) (sch : list schemaEl)
    (isNodeSchema : bool) (h h' : heap) (out : outcome (list record)) :
  parseValues records sch isNodeSchema h = (h', out) → settled h h'.
Proof.
  intros Hrun l. destruct records as [|r rest].
  { injection Hrun as <- <-. done. }
  rewrite parseValues_run in Hrun.
  destruct (parseValues_loop_heap _ _ _ _ _ _ l Hrun) as [[Heq|Heq] _];
    by rewrite Heq.
Qed.

(** ** deriveModel once parseValues has run *)

Lemma parseValues_loop_no_null (isNodeSchema : bool) (cols : list (schemaEl * string))
    (records records' : list record) (h h' : heap) :
  parseValues_loop isNodeSchema cols records h = (h', Return records') →
  (SNull ∉ cols.*1) ∧ (SUndefined ∉ cols.*1).
Proof.
  revert records h. induction cols as [|[e hd] cols IH]; intros records h Hrun.
  - split; apply not_elem_of_nil.
  - unfold parseValues_loop in Hrun. cbn [fold_each fst snd] in Hrun.
    rewrite run_bind in Hrun.
    destruct (parseValues_column isNodeSchema e hd records h) as [h1 [records1|x]] eqn:Hcol;
      [|discriminate].
    destruct (IH records1 h1 Hrun) as [Hnn Hnu]. cbn [fmap list_fmap fst].
    split; apply not_elem_of_cons; (split; [|done]); intros <-; discriminate.
Qed.

Lemma deriveModel_all (h : heap) (sch : list schemaEl) :
  SNull ∉ sch →
  (∀ l, SObject l ∈ sch → spec_target (h !!! l) = Some "attributes") →
  deriveModel h sch = Return (omap (entry_of h) sch).
Proof.
  induction sch as [|e sch IH]; intros Hnn Htg; [done|].
  apply not_elem_of_cons in Hnn as [Hne Hnn].
  assert (IH' : deriveModel h sch = Return (omap (entry_of h) sch)).
  { apply IH; [done|]. intros l Hl. apply Htg. by right. }
  destruct e as [s|l| | |]; simpl; try done.
  rewrite IH'. simpl. rewrite (Htg l) by left. done.
Qed.

(** X11. Once [parseValues] has returned on a record set whose header count
    is the schema length, [deriveModel] returns one entry for each object of
    the schema, in column order, the viz declarations included, with the id,
    the type and the title that the object had when [parseValues] was
    called. *)
Theorem deriveModel_after_parseValues (r : record) (rest : list record)
    (sch : list schemaEl) (isNodeSchema : bool) (h h' : heap) (records' : list record) :
  length (keys r) = length sch →
  parseValues (r :: rest) sch isNodeSchema h = (h', Return records') →
  deriveModel h' sch = Return (omap (entry_of h) sch).
Proof.
  intros Hlen Hrun. pose proof Hrun as Hheap. rewrite parseValues_run in Hrun.
  pose proof (parseValues_loop_no_null _ _ _ _ _ _ Hrun) as [Hnn _].
  apply parseValues_loop_spec in Hrun as (_ & Htg & _).
  rewrite visited_same_length, fst_zip in Hnn by lia.
  rewrite deriveModel_all; [|done|].
  - f_equal. apply list_omap_ext, Forall2_same. intros e.
    destruct e as [s|l| | |]; try done. simpl.
    by destruct (parseValues_heap _ _ _ _ _ _ l Hheap) as [->| ->].
  - intros l Hin. apply list_elem_of_lookup in Hin as [coli Hcoli].
    apply (Htg l (keys r !!! coli)). apply visited_elem; [|done].
    rewrite Hlen. by eapply lookup_lt_Some.
Qed.

(** ** The marker fields of the entries *)

Lemma scan_marker {E} (column : E → nat → outcome E) (f : E → value) (s : string)
    (sch : list schemaEl) (headers : list string) (rec : record) :
  (∀ e e1 coli, column e coli = Return e1 →
     f e1 = if el_is_str (schema_at sch coli) s then get rec (headers !!! coli) else f e) →
  ∀ idxs e e', fold_each idxs column e = Return e' →
  f e' = match last_marker sch s idxs with
         | Some i => get rec (headers !!! i)
         | None => f e
         end.
Proof.
  intros Hcol. induction idxs as [|i idxs IH]; intros e e' Hrun; simpl in Hrun.
  - by injection Hrun as <-.
  - destruct (column e i) as [e1|x] eqn:Hi; [|discriminate]. simpl in Hrun.
    rewrite (IH e1 e' Hrun). simpl. destruct (last_marker sch s idxs); [done|].
    rewrite (Hcol _ _ _ Hi). by destruct (el_is_str (schema_at sch i) s).
Qed.

Lemma scan_returns {E} (column : E → nat → outcome E) (idxs : list nat) :
  (∀ e i, i ∈ idxs → ∃ e1, column e i = Return e1) →
  ∀ e, ∃ e', fold_each idxs column e = Return e'.
Proof.
  induction idxs as [|i idxs IH]; intros Hcol e; [by eexists|]. simpl.
  destruct (Hcol e i) as [e1 ->]; [left|]. simpl. apply IH.
  intros e0 i' Hi'. apply Hcol. by right.
Qed.

Lemma schema_at_in_range (sch : list schemaEl) (n coli : nat) :
  n = length sch → SNull ∉ sch → SUndefined ∉ sch → (coli < n)%nat →
  schema_at sch coli ≠ SNull ∧ schema_at sch coli ≠ SUndefined.
Proof.
  intros -> Hnn Hnu Hlt. unfold schema_at.
  destruct (lookup_lt_is_Some_2 sch coli Hlt) as [e He]. rewrite He. simpl.
  split; intros ->; [apply Hnn|apply Hnu]; by eapply list_elem_of_lookup_2.
Qed.

Ltac split_marker s :=
  repeat (match goal with
          | |- context [String.eqb s ?t] => destruct (String.eqb_spec s t) as [->|?]
          end; simpl).

Lemma addEdges_column_markers (h : heap) (sch : list schemaEl) (headers : list string)
    (rec : record) (e e1 : edge) (coli : nat) :
  addEdges_column h sch headers rec e coli = Return e1 →
  let mark := el_is_str (schema_at sch coli) in
  let value := get rec (headers !!! coli) in
  e_id e1 = (if mark "id" then value else e_id e)
  ∧ e_label e1 = (if mark "label" then value else e_label e)
  ∧ e_type e1 = (if mark "type" then value else e_type e)
  ∧ e_source e1 = (if mark "source" then value else e_source e)
  ∧ e_target e1 = (if mark "target" then value else e_target e)
  ∧ e_weight e1 = (if mark "weight" then value else e_weight e).
Proof.
  unfold addEdges_column.
  destruct (schema_at sch coli) as [s|l| | |]; cbn [el_is_str]; try discriminate.
  - split_marker s; by intros [= <-].
  - repeat case_match; by intros [= <-].
  - by intros [= <-].
Qed.

Lemma addNodes_column_markers (h : heap) (sch : list schemaEl) (headers : list string)
    (rec : record) (n n1 : node) (coli : nat) :
  addNodes_column h sch headers rec n coli = Return n1 →
  let mark := el_is_str (schema_at sch coli) in
  let value := get rec (headers !!! coli) in
  n_id n1 = (if mark "id" then value else n_id n)
  ∧ n_label n1 = (if mark "label" then value else n_label n).
Proof.
  unfold addNodes_column.
  destruct (schema_at sch coli) as [s|l| | |]; cbn [el_is_str]; try discriminate.
  - split_marker s; by intros [= <-].
  - repeat case_match; by intros [= <-].
  - by intros [= <-].
Qed.

Lemma addNodes_column_returns (h : heap) (sch : list schemaEl) (headers : list string)
    (rec : record) (n : node) (coli : nat) :
  schema_at sch coli ≠ SNull → schema_at sch coli ≠ SUndefined →
  ∃ n1, addNodes_column h sch headers rec n coli = Return n1.
Proof.
  intros Hnn Hnu. unfold addNodes_column.
  destruct (schema_at sch coli) as [s|l| | |] eqn:E; try done.
  - repeat case_match; by eexists.
  - repeat case_match; by eexists.
  - by eexists.
Qed.

(** The entry of a node, from the cells under its markers. *)
Lemma addNodes_entry_fields (h : heap) (sch : list schemaEl) (headers : list string)
    (rec : record) (n : node) :
  addNodes_entry h sch headers rec = Return n →
  n_id n = marker_cell sch headers rec "id"
  ∧ n_label n = marker_cell sch headers rec "label"
  ∧ marker_cell sch headers rec "label" ≠ VUndefined.
Proof.
  unfold addNodes_entry, marker_cell.
  destruct (fold_each _ _ _) as [n0|x] eqn:Hscan; [|discriminate]. simpl.
  pose proof (scan_marker _ n_id "id" sch headers rec
    (λ e e1 coli H, proj1 (addNodes_column_markers h sch headers rec e e1 coli H))
    _ _ _ Hscan) as Hid.
  pose proof (scan_marker _ n_label "label" sch headers rec
    (λ e e1 coli H, proj2 (addNodes_column_markers h sch headers rec e e1 coli H))
    _ _ _ Hscan) as Hlabel.
  simpl in Hid, Hlabel. rewrite <- Hid, <- Hlabel.
  destruct (n_label n0) eqn:El; try discriminate; intros [= <-]; simpl; by rewrite El.
Qed.

Lemma addNodes_entry_returns (h : heap) (sch : list schemaEl) (headers : list string)
    (rec : record) :
  length headers = length sch → SNull ∉ sch → SUndefined ∉ sch →
  marker_cell sch headers rec "label" ≠ VUndefined →
  ∃ n, addNodes_entry h sch headers rec = Return n.
Proof.
  intros Hlen Hnn Hnu Hlabel. unfold addNodes_entry.
  destruct (scan_returns (addNodes_column h sch headers rec) (seq 0 (length headers)))
    with (e := Node VUndefined VUndefined None None) as [n0 Hscan].
  { intros n i Hi. apply elem_of_seq in Hi.
    destruct (schema_at_in_range sch (length headers) i) as [? ?]; try done; [lia|].
    by apply addNodes_column_returns. }
  rewrite Hscan. simpl.
  pose proof (scan_marker _ n_label "label" sch headers rec
    (λ e e1 coli H, proj2 (addNodes_column_markers h sch headers rec e e1 coli H))
    _ _ _ Hscan) as Hl.
  simpl in Hl. unfold marker_cell in Hlabel. rewrite <- Hl in Hlabel.
  destruct (n_label n0); try done; by eexists.
Qed.

Lemma addNodes_loop_returns (h : heap) (sch : list schemaEl) (headers : list string)
    (records : list record) (g : Gexf) :
  (∀ g n, nodeFault g n = None) →
  Forall (λ rec, ∃ n, addNodes_entry h sch headers rec = Return n) records →
  ∃ g', for_each records (λ record,
          n ← lift (addNodes_entry h sch headers record); addNode n) g = (g', Return tt).
Proof.
  intros Hacc Hall. revert g. induction Hall as [|rec records [n Hn] _ IH]; intros g.
  - by eexists.
  - cbn [for_each]. rewrite !run_bind. unfold lift at 1. rewrite Hn.
    unfold addNode at 1. rewrite Hacc. apply IH.
Qed.

Lemma addNodes_labelled_returns (h : heap) (r : record) (rest : list record)
    (config : tableConfig) (g : Gexf) :
  (∀ g n, nodeFault g n = None) →
  length (keys r) = length (schema config) →
  SNull ∉ schema config → SUndefined ∉ schema config →
  Forall (λ rec, marker_cell (schema config) (keys r) rec "label" ≠ VUndefined) (r :: rest) →
  ∃ g', addNodes h (r :: rest) config g = (g', Return tt).
Proof.
  intros Hacc Hlen Hnn Hnu Hall.
  unfold addNodes. rewrite run_bind. unfold lift at 1. cbn [first_keys].
  apply addNodes_loop_returns; [done|].
  eapply Forall_impl; [exact Hall|]. intros rec Hl. by apply addNodes_entry_returns.
Qed.

(** X12. When the document layer accepts every node and the schema has, for
    each header, an element that is neither [null] nor [undefined],
    [addNodes] returns exactly when every record has a cell under the last
    ['label'] column; it then has added one entry for each record, in the
    order of the records, with the cell under the last ['id'] column as id
    and the cell under the last ['label'] column as label. *)
Theorem addNodes_returns_iff_labelled (h : heap) (r : record) (rest : list record)
    (config : tableConfig) (g : Gexf) :
  (∀ g n, nodeFault g n = None) →
  length (keys r) = length (schema config) →
  SNull ∉ schema config → SUndefined ∉ schema config →
  let cell := marker_cell (schema config) (keys r) in
  ((∃ g', addNodes h (r :: rest) config g = (g', Return tt))
   ↔ Forall (λ rec, cell rec "label" ≠ VUndefined) (r :: rest))
  ∧ ∀ g', addNodes h (r :: rest) config g = (g', Return tt) →
      ∃ new : list node, g' = MkGexf (g_params g) (g_nodes g ++ new) (g_edges g)
        ∧ Forall2 (λ rec n, n_id n = cell rec "id" ∧ n_label n = cell rec "label")
            (r :: rest) new.
Proof.
  intros Hacc Hlen Hnn Hnu cell.
  assert (Hfields : ∀ g', addNodes h (r :: rest) config g = (g', Return tt) →
            ∃ new : list node, g' = MkGexf (g_params g) (g_nodes g ++ new) (g_edges g)
              ∧ Forall2 (λ rec n, n_id n = cell rec "id" ∧ n_label n = cell rec "label"
                                  ∧ cell rec "label" ≠ VUndefined) (r :: rest) new).
  { intros g' Hrun. apply addNodes_entries in Hrun as (r0 & rest0 & new & [= <- <-] & -> & Hall).
    exists new. split; [done|]. eapply Forall2_impl; [exact Hall|].
    intros rec n Hentry. by apply addNodes_entry_fields in Hentry. }
  split; [split|].
  - intros [g' Hrun]. destruct (Hfields g' Hrun) as (new & _ & Hall).
    clear -Hall. induction Hall as [|rec n records new (_ & _ & Hl) _ IH]; constructor; done.
  - intros Hall. by apply addNodes_labelled_returns.
  - intros g' Hrun. destruct (Hfields g' Hrun) as (new & -> & Hall).
    exists new. split; [done|]. eapply Forall2_impl; [exact Hall|].
    by intros rec n (? & ? & _).
Qed.

Lemma addEdges_entry_fields (h : heap) (sch : list schemaEl) (headers : list string)
    (rec : record) (idi idi' : nat) (e : edge) :
  addEdges_entry h sch headers rec idi = Return (e, idi') →
  let cell := marker_cell sch headers rec in
  e_source e = cell "source" ∧ e_target e = cell "target"
  ∧ e_type e = cell "type" ∧ e_weight e = cell "weight"
  ∧ e_id e = (if cell "id" is VUndefined then VString ("e" +:+ pretty idi) else cell "id")
  ∧ e_label e = (if cell "label" is VUndefined then e_id e else cell "label")
  ∧ idi' = (if cell "id" is VUndefined then S idi else idi).
Proof.
  unfold addEdges_entry, marker_cell.
  destruct (fold_each _ _ _) as [e0|x] eqn:Hscan; [|discriminate]. simpl.
  assert (Hm : ∀ (f : edge → value) s,
            f (Edge VUndefined VUndefined VUndefined VUndefined VUndefined VUndefined
                    None None) = VUndefined →
            (∀ e e1 coli, addEdges_column h sch headers rec e coli = Return e1 →
               f e1 = if el_is_str (schema_at sch coli) s then get rec (headers !!! coli)
                      else f e) →
            f e0 = match last_marker sch s (seq 0 (length headers)) with
                   | Some i => get rec (headers !!! i)
                   | None => VUndefined
                   end).
  { intros f s Hinit Hcol.
    by rewrite (scan_marker _ f s sch headers rec Hcol _ _ _ Hscan), Hinit. }
  rewrite <- (Hm e_id "id"), <- (Hm e_label "label"), <- (Hm e_source "source"),
    <- (Hm e_target "target"), <- (Hm e_type "type"), <- (Hm e_weight "weight");
    try reflexivity.
  2-7: intros e1 e2 coli H; apply addEdges_column_markers in H; simpl in H; tauto.
  destruct (e_id e0) eqn:Ei, (e_label e0) eqn:El; simpl; intros [= <- <-]; simpl;
    rewrite ?Ei, ?El; done.
Qed.

Lemma edges_built_Forall2 (h : heap) (sch : list schemaEl) (headers : list string)
    (P : record → edge → Prop) (idi : nat) (records : list record) (new : list edge) :
  (∀ rec idi idi' e, addEdges_entry h sch headers rec idi = Return (e, idi') → P rec e) →
  edges_built h sch headers idi records new → Forall2 P records new.
Proof.
  intros HP. revert idi new.
  induction records as [|rec records IH]; intros idi [|e new] Hb; simpl in Hb; try done.
  destruct Hb as (idi' & Hentry & Hb). constructor; eauto.
Qed.

(** X13. Whenever [addEdges] returns, it has added one entry for each record,
    in the order of the records, whose source, target, type and weight are
    the cells under the last column with that marker ([undefined] when the
    schema has none), whose id is the cell under the last ['id'] column when
    there is one, and whose label is the cell under the last ['label'] column
    or else the id. *)
Theorem addEdges_marker_fields (h : heap) (records : list record)
    (config : tableConfig) (g g' : Gexf) :
  addEdges h records config g = (g', Return tt) →
  ∃ r rest (new : list edge), records = r :: rest
    ∧ g' = MkGexf (g_params g) (g_nodes g) (g_edges g ++ new)
    ∧ Forall2 (λ rec e,
        let cell := marker_cell (schema config) (keys r) rec in
        e_source e = cell "source" ∧ e_target e = cell "target"
        ∧ e_type e = cell "type" ∧ e_weight e = cell "weight"
        ∧ (cell "id" ≠ VUndefined → e_id e = cell "id")
        ∧ e_label e = (if cell "label" is VUndefined then e_id e else cell "label"))
        records new.
Proof.
  intros Hrun. apply addEdges_entries in Hrun as (r & rest & new & -> & -> & Hb).
  exists r, rest, new. split_and!; try done.
  eapply edges_built_Forall2; [|exact Hb]. intros rec idi idi' e Hentry.
  apply addEdges_entry_fields in Hentry as (Hs & Ht & Hty & Hw & Hid & Hl & _).
  split_and!; try done. intros Hdef. rewrite Hid.
  by destruct (marker_cell (schema config) (keys r) rec "id").
Qed.

(** ** createGexf *)

(** [createGexf] reads the heap and leaves it as it is; what it settles to is
    the outcome of its four steps. *)
Lemma createGexf_run (nodeRecords edgeRecords : list record) (config : config) (h : heap) :
  createGexf nodeRecords edgeRecords config h =
    (h, nodeModel ← deriveModel h (schema (cfg_nodes config));
        edgeModel ← deriveModel h (schema (cfg_edges config));
        gexfObj ← create (GraphParams (defaultEdgeType (cfg_graphParams config))
                            (meta (cfg_graphParams config))
                            (Some (nodeModel, edgeModel)));
        on_document (addNodes h nodeRecords (cfg_nodes config);;
                     addEdges h edgeRecords (cfg_edges config)) gexfObj).
Proof.
  unfold createGexf. rewrite run_bind. unfold get_heap. rewrite !run_bind. unfold lift at 1.
  destruct (deriveModel h (schema (cfg_nodes config))) as [nm|x]; [|done].
  rewrite run_bind. unfold lift at 1.
  destruct (deriveModel h (schema (cfg_edges config))) as [em|x]; [|done].
  rewrite run_bind. unfold lift at 1. simpl.
  destruct (create _) as [g0|x]; [|done]. reflexivity.
Qed.

(** X14. Whenever [createGexf] resolves, the heap is as it was, the model of
    the document is what [deriveModel] gives for the two schemas, beside the
    default edge type and the meta data of the configuration, and the
    document holds one node for each node record and one edge for each edge
    record, in the order of the records: each node with the cells under the
    ['id'] and ['label'] columns, each edge with the cells under the
    ['source'] and ['target'] columns. *)
Theorem createGexf_document (nodeRecords edgeRecords : list record) (config : config)
    (h h' : heap) (gexfObj : Gexf) :
  createGexf nodeRecords edgeRecords config h = (h', Return gexfObj) →
  h' = h
  ∧ (∃ nodeModel edgeModel,
       deriveModel h (schema (cfg_nodes config)) = Return nodeModel
       ∧ deriveModel h (schema (cfg_edges config)) = Return edgeModel
       ∧ g_params gexfObj = GraphParams (defaultEdgeType (cfg_graphParams config))
                              (meta (cfg_graphParams config))
                              (Some (nodeModel, edgeModel)))
  ∧ (∃ r rest, nodeRecords = r :: rest
       ∧ Forall2 (λ rec n,
           let cell := marker_cell (schema (cfg_nodes config)) (keys r) rec in
           n_id n = cell "id" ∧ n_label n = cell "label") nodeRecords (g_nodes gexfObj))
  ∧ (∃ r rest, edgeRecords = r :: rest
       ∧ Forall2 (λ rec e,
           let cell := marker_cell (schema (cfg_edges config)) (keys r) rec in
           e_source e = cell "source" ∧ e_target e = cell "target")
           edgeRecords (g_edges gexfObj)).
Proof.
  rewrite createGexf_run. intros [= <- Hout]. split; [done|].
  destruct (deriveModel h (schema (cfg_nodes config))) as [nm|x]; [|discriminate].
  destruct (deriveModel h (schema (cfg_edges config))) as [em|x]; [|discriminate].
  simpl in Hout. unfold create in Hout. destruct (createFault _); [discriminate|].
  simpl in Hout. unfold on_document in Hout. rewrite run_bind in Hout.
  destruct (addNodes h nodeRecords (cfg_nodes config) _) as [g1 [[]|x]] eqn:Hnodes;
    [|discriminate].
  destruct (addEdges h edgeRecords (cfg_edges config) g1) as [g2 [[]|x]] eqn:Hedges;
    [|discriminate].
  injection Hout as <-.
  apply addNodes_entries in Hnodes as (nr & nrest & nodes & -> & -> & Hn).
  apply addEdges_entries in Hedges as (er & erest & edges & -> & -> & He).
  split_and!.
  - by exists nm, em.
  - exists nr, nrest. split; [done|]. simpl.
    eapply Forall2_impl; [exact Hn|]. intros rec n Hentry.
    apply addNodes_entry_fields in Hentry. tauto.
  - exists er, erest. split; [done|]. simpl.
    eapply edges_built_Forall2; [|exact He]. intros rec idi idi' e Hentry.
    apply addEdges_entry_fields in Hentry. simpl in Hentry. tauto.
Qed.

(** ** loadCSV *)

Lemma loadCSV_returns_inv (config : tableConfig) (isNodeSchema : bool) (h h' : heap)
    (records' : list record) :
  loadCSV config isNodeSchema h = (h', Return records') →
  ∃ data r rest h1,
    readFile (path_resolve (file config)) = Return data
    ∧ csv_parse data (ParseOptions true (other_options (tc_parseOptions config)))
      = Return (r :: rest)
    ∧ checkSchema (r :: rest) (schema config) isNodeSchema h = (h1, Return tt)
    ∧ parseValues (r :: rest) (schema config) isNodeSchema h1 = (h', Return records').
Proof.
  unfold loadCSV. destruct (readFile _) as [data|x] eqn:Hread; [|discriminate].
  destruct (csv_parse _ _) as [records|x] eqn:Hcsv; [|discriminate].
  rewrite run_bind.
  destruct (checkSchema records (schema config) isNodeSchema h) as [h1 [[]|x]] eqn:Hcheck;
    [|discriminate].
  intros Hparse. destruct records as [|r rest]; [discriminate|].
  by exists data, r, rest, h1.
Qed.

Lemma loadCSV_settled (config : tableConfig) (isNodeSchema : bool) (h h' : heap)
    (out : outcome (list record)) :
  loadCSV config isNodeSchema h = (h', out) → settled h h'.
Proof.
  unfold loadCSV. destruct (readFile _) as [data|x].
  2:{ intros [= <- _]. apply settled_refl. }
  destruct (csv_parse _ _) as [records|x].
  2:{ intros [= <- _]. apply settled_refl. }
  rewrite run_bind.
  destruct (checkSchema records (schema config) isNodeSchema h) as [h1 [[]|x]] eqn:Hcheck.
  - intros Hparse. eapply settled_trans.
    + by eapply checkSchema_settled.
    + by eapply parseValues_settled.
  - intros [= <- _]. by eapply checkSchema_settled.
Qed.

(** X15. A table without a data row: when the file is read and the parser
    gives no record, [loadCSV] rejects with the [TypeError] of
    [Object.keys(undefined)], before any check of the schema, which it leaves
    as it is. *)
Theorem loadCSV_empty_table (config : tableConfig) (isNodeSchema : bool) (h : heap)
    (data : string) :
  readFile (path_resolve (file config)) = Return data →
  csv_parse data (ParseOptions true (other_options (tc_parseOptions config))) = Return [] →
  loadCSV config isNodeSchema h
  = (h, Throw (TypeError "Cannot convert undefined or null to object")).
Proof. intros Hread Hparse. unfold loadCSV. by rewrite Hread, Hparse. Qed.

(** ** convert *)

Lemma convert_run (config : config) (h : heap) :
  convert config h =
    match loadCSV (cfg_nodes config) true h with
    | (h1, Throw x) => (h1, Throw x)
    | (h1, Return nodeRecords) =>
        match loadCSV (cfg_edges config) false h1 with
        | (h2, Throw x) => (h2, Throw x)
        | (h2, Return edgeRecords) =>
            match createGexf nodeRecords edgeRecords config h2 with
            | (h3, Throw x) => (h3, Throw x)
            | (h3, Return gexfObj) =>
                match saveAs config with
                | Some path =>
                    match saveGexf gexfObj path with
                    | Return gexfObj' => (h3, Return (Document gexfObj'))
                    | Throw x => (h3, Throw x)
                    end
                | None => (h3, Return (Document gexfObj))
                end
            end
        end
    end.
Proof.
  unfold convert. rewrite run_bind.
  destruct (loadCSV (cfg_nodes config) true h) as [h1 [nodeRecords|x]]; [|done].
  rewrite run_bind.
  destruct (loadCSV (cfg_edges config) false h1) as [h2 [edgeRecords|x]]; [|done].
  rewrite run_bind.
  destruct (createGexf nodeRecords edgeRecords config h2) as [h3 [gexfObj|x]]; [|done].
  destruct (saveAs config) as [path|]; [|done].
  rewrite run_bind. unfold lift. by destruct (saveGexf gexfObj path).
Qed.

(** X16. What [saveAs] adds.  With a [saveAs], [convert] does what it does
    without one and then saves: if the conversion fails, it rejects with the
    same error; if the serializer throws, it rejects with that error; if
    writing the file fails, it rejects with the fixed string ['Failed to save
    the Gexf file. ${err}'], which does not hold the cause; otherwise it
    resolves to the same document.  The schema objects end as they do
    without [saveAs]. *)
Theorem convert_saveAs_step (config : config) (h : heap) (path : string) :
  saveAs config = Some path →
  convert config h =
    match convert (without_saveAs config) h with
    | (h', Return (Document gexfObj)) =>
        (h', match serialize gexfObj with
             | Throw x => Throw x
             | Return xml =>
                 match writeFile path (formatXml xml) with
                 | Some _ => Throw (Reason "Failed to save the Gexf file. ${err}")
                 | None => Return (Document gexfObj)
                 end
             end)
    | other => other
    end.
Proof.
  intros Hsave. rewrite !convert_run. rewrite Hsave. simpl.
  destruct (loadCSV (cfg_nodes config) true h) as [h1 [nodeRecords|x]]; [|done].
  destruct (loadCSV (cfg_edges config) false h1) as [h2 [edgeRecords|x]]; [|done].
  assert (createGexf nodeRecords edgeRecords (without_saveAs config) h2
          = createGexf nodeRecords edgeRecords config h2) as -> by done.
  destruct (createGexf nodeRecords edgeRecords config h2) as [h3 [gexfObj|x]]; [|done].
  unfold saveGexf. destruct (serialize gexfObj) as [xml|x]; [|done]. simpl.
  by destruct (writeFile path (formatXml xml)).
Qed.

(** ** A conversion that succeeds *)

Lemma last_marker_seq (sch : list schemaEl) (s : string) (a n : nat) :
  match last_marker sch s (seq a n) with
  | Some i => (a ≤ i < a + n)%nat ∧ el_is_str (schema_at sch i) s = true
  | None => ∀ j, (a ≤ j < a + n)%nat → el_is_str (schema_at sch j) s = false
  end.
Proof.
  revert a. induction n as [|n IH]; intros a; simpl; [intros; lia|].
  specialize (IH (S a)). destruct (last_marker sch s (seq (S a) n)) as [i|].
  - destruct IH as [Hi Hm]. split; [lia|done].
  - destruct (el_is_str (schema_at sch a) s) eqn:Hm.
    + split; [lia|done].
    + intros j Hj. destruct (decide (j = a)) as [->|]; [done|]. apply IH. lia.
Qed.

Lemma last_marker_present (sch : list schemaEl) (s : string) :
  has_marker s sch = true →
  ∃ i, last_marker sch s (seq 0 (length sch)) = Some i
    ∧ (i < length sch)%nat ∧ schema_at sch i = SString s.
Proof.
  intros Hm. pose proof (last_marker_seq sch s 0 (length sch)) as Hlast.
  destruct (last_marker sch s (seq 0 (length sch))) as [i|].
  - destruct Hlast as [Hi Hs]. exists i. split_and!; [done|lia|].
    destruct (schema_at sch i) as [t| | | |]; try discriminate.
    simpl in Hs. by apply String.eqb_eq in Hs as ->.
  - unfold has_marker in Hm. apply existsb_exists in Hm as (e & Hin & He).
    apply list_elem_of_In, list_elem_of_lookup in Hin as [j Hj].
    pose proof (lookup_lt_Some _ _ _ Hj) as Hlt.
    specialize (Hlast j ltac:(lia)). unfold schema_at in Hlast. rewrite Hj in Hlast.
    simpl in Hlast. congruence.
Qed.

Lemma valid_schema_agree (isNodeSchema : bool) (h h1 : heap) (sch : list schemaEl) :
  (∀ l, SObject l ∈ sch → h1 !! l = h !! l) →
  valid_schema isNodeSchema h1 sch = valid_schema isNodeSchema h sch.
Proof.
  intros Hag. unfold valid_schema. f_equal. apply forallb_agree.
  intros e He. destruct e as [s|l| | |]; try done. cbn [valid_element].
  by rewrite (lookup_total_agree h h1 l (Hag l He)).
Qed.

Lemma valid_schema_elements (isNodeSchema : bool) (h : heap) (sch : list schemaEl) :
  valid_schema isNodeSchema h sch = true →
  (SNull ∉ sch) ∧ (SUndefined ∉ sch)
  ∧ ∀ e, e ∈ sch → (∃ s, e = SString s) ∨ (∃ l, e = SObject l).
Proof.
  intros [_ Hall]%andb_true_iff.
  assert (Hel : ∀ e, e ∈ sch → valid_element isNodeSchema h e = true).
  { intros e He. eapply forallb_forall in Hall; [done|]. by apply list_elem_of_In. }
  split_and!.
  - intros Hin. by specialize (Hel _ Hin).
  - intros Hin. by specialize (Hel _ Hin).
  - intros e He. specialize (Hel e He). destruct e; try discriminate; eauto.
Qed.

(** [loadCSV] on a table as the parser gives it, under a valid schema without
    the marker ['type']. *)
Lemma loadCSV_returns (config : tableConfig) (isNodeSchema : bool) (h : heap)
    (data : string) (r : record) (rest : list record) :
  readFile (path_resolve (file config)) = Return data →
  csv_parse data (ParseOptions true (other_options (tc_parseOptions config)))
  = Return (r :: rest) →
  table r rest →
  length (keys r) = length (schema config) →
  valid_schema isNodeSchema h (schema config) = true →
  SString "type" ∉ schema config →
  ∃ h' r' rest',
    loadCSV config isNodeSchema h = (h', Return (r' :: rest'))
    ∧ keys r' = keys r
    ∧ length (r' :: rest') = length (r :: rest)
    ∧ (∀ coli, (coli < length (keys r))%nat →
         Forall2 (λ rec rec', coercion h (schema_at (schema config) coli)
                                (get rec (keys r !!! coli))
                              = Return (get rec' (keys r !!! coli))) (r :: rest) (r' :: rest'))
    ∧ (∀ l, SObject l ∉ schema config → h' !! l = h !! l).
Proof.
  intros Hread Hcsv [Hnd Htext] Hlen Hvalid Hnt.
  destruct (valid_schema_elements _ _ _ Hvalid) as (Hnn & Hnu & Hkind).
  unfold loadCSV. rewrite Hread, Hcsv, run_bind.
  destruct (checkSchema (r :: rest) (schema config) isNodeSchema h) as [h1 out] eqn:Hcheck.
  pose proof (checkSchema_step _ _ _ _ _ _ _ Hcheck) as (_ & Hframe1 & _).
  pose proof (checkSchema_settled _ _ _ _ _ _ Hcheck) as Hset1.
  apply andb_true_iff in Hvalid as [Hreq Hall].
  rewrite checkSchema_run in Hcheck by done.
  destruct (checkSchema_loop_valid isNodeSchema (ctxt_of isNodeSchema)
              (zip (schema config) (keys r)) h) as (h1' & Hrun1 & _).
  { rewrite fst_zip by lia. done. }
  rewrite Hrun1 in Hcheck. injection Hcheck as <- <-.
  destruct (parseValues_loop_returns isNodeSchema (visited (schema config) (keys r))
              (r :: rest) h1') as (h' & records' & Hrun2).
  { by rewrite visited_snd. }
  { rewrite visited_same_length, fst_zip by lia. apply forallb_forall.
    intros e He%list_elem_of_In. destruct (Hkind e He) as [[s ->]|[l ->]]; [|done].
    simpl. apply negb_true_iff, String.eqb_neq. by intros ->. }
  { by rewrite visited_snd. }
  pose proof Hrun2 as Hrun2'. rewrite <- parseValues_run in Hrun2'.
  rewrite Hrun2'.
  pose proof (parseValues_loop_keys _ _ _ _ _ _ Hrun2) as Hkeys.
  rewrite visited_snd in Hkeys.
  pose proof (parseValues_frame _ _ _ _ _ _ Hrun2') as Hframe2.
  destruct records' as [|r' rest']; [by apply Forall2_nil_inv_r in Hkeys|].
  exists h', r', rest'. split_and!; try done.
  - apply Forall2_cons_1 in Hkeys as [Hk _]. apply Hk.
    intros hd Hhd. exact Hhd.
  - symmetry. by eapply Forall2_length.
  - intros coli Hlt.
    eapply Forall2_impl.
    + eapply parseValues_loop_cells; [exact Hrun2|by rewrite visited_snd|].
      apply list_elem_of_lookup. exists coli. by apply visited_lookup.
    + intros rec rec' Hc. cbn beta in Hc. rewrite <- Hc. symmetry.
      apply coercion_heap. intros l. by destruct (Hset1 l).
  - intros l Hl. rewrite (Hframe2 l Hl). by apply Hframe1.
Qed.

Lemma deriveModel_returns (h : heap) (sch : list schemaEl) :
  SNull ∉ sch → ∃ m, deriveModel h sch = Return m.
Proof.
  induction sch as [|e sch IH]; intros Hnn; [by eexists|].
  apply not_elem_of_cons in Hnn as [Hne Hnn]. destruct (IH Hnn) as [m Hm].
  destruct e as [s|l| | |]; simpl; try done; rewrite ?Hm; simpl; eauto.
  destruct (str_is_opt "attributes" (spec_target (h !!! l))); eauto.
Qed.

Lemma addEdges_entry_returns (h : heap) (sch : list schemaEl) (headers : list string)
    (rec : record) (idi : nat) :
  length headers = length sch → SNull ∉ sch → SUndefined ∉ sch →
  ∃ e idi', addEdges_entry h sch headers rec idi = Return (e, idi').
Proof.
  intros Hlen Hnn Hnu. unfold addEdges_entry.
  destruct (scan_returns (addEdges_column h sch headers rec) (seq 0 (length headers)))
    with (e := Edge VUndefined VUndefined VUndefined VUndefined VUndefined VUndefined
                 None None) as [e0 ->].
  { intros e i Hi. apply elem_of_seq in Hi.
    destruct (schema_at_in_range sch (length headers) i) as [? ?]; try done; [lia|].
    by apply addEdges_column_returns. }
  simpl. repeat case_match; simplify_eq; by do 2 eexists.
Qed.

Lemma addEdges_total (h : heap) (r : record) (rest : list record)
    (config : tableConfig) (g : Gexf) :
  (∀ g e, edgeFault g e = None) →
  length (keys r) = length (schema config) →
  SNull ∉ schema config → SUndefined ∉ schema config →
  ∃ g', addEdges h (r :: rest) config g = (g', Return tt).
Proof.
  intros Hacc Hlen Hnn Hnu. unfold addEdges. rewrite run_bind.
  unfold lift at 1. cbn [first_keys]. rewrite run_bind.
  generalize (r :: rest) as records. generalize 1%nat as idi. intros idi records.
  revert idi g. induction records as [|rec records IH]; intros idi g.
  - by eexists.
  - cbn [fold_each]. rewrite !run_bind. unfold lift at 1.
    destruct (addEdges_entry_returns h (schema config) (keys r) rec idi)
      as (e & idi' & ->); try done.
    rewrite !run_bind. unfold addEdge at 1. rewrite Hacc. cbn [mret ST_ret].
    apply IH.
Qed.

(** X17. A conversion that succeeds.  Let both files be read and parsed into
    tables that are not empty, with distinct headers and a string in every
    cell; let each schema have one element for each header and be valid, the
    node schema with a ['label'] marker, the edge schema without a ['type']
    marker, and no object in both; let the document layer accept the
    parameters and every node and edge, the serializer return and the file
    be written.  Then [convert] resolves to a document with one node for
    each node record and one edge for each edge record. *)
Theorem convert_resolves (config : config) (h : heap) (nodeData edgeData : string)
    (nr er : record) (nrest erest : list record) :
  readFile (path_resolve (file (cfg_nodes config))) = Return nodeData →
  csv_parse nodeData (ParseOptions true (other_options (tc_parseOptions (cfg_nodes config))))
  = Return (nr :: nrest) →
  readFile (path_resolve (file (cfg_edges config))) = Return edgeData →
  csv_parse edgeData (ParseOptions true (other_options (tc_parseOptions (cfg_edges config))))
  = Return (er :: erest) →
  table nr nrest → table er erest →
  length (keys nr) = length (schema (cfg_nodes config)) →
  length (keys er) = length (schema (cfg_edges config)) →
  valid_schema true h (schema (cfg_nodes config)) = true →
  valid_schema false h (schema (cfg_edges config)) = true →
  has_marker "label" (schema (cfg_nodes config)) = true →
  SString "type" ∉ schema (cfg_edges config) →
  (∀ l, SObject l ∈ schema (cfg_nodes config) → SObject l ∉ schema (cfg_edges config)) →
  (∀ params, createFault params = None) →
  (∀ g n, nodeFault g n = None) →
  (∀ g e, edgeFault g e = None) →
  (∀ g, ∃ xml, serialize g = Return xml) →
  (∀ path data, writeFile path data = None) →
  ∃ h' gexfObj, convert config h = (h', Return (Document gexfObj))
    ∧ length (g_nodes gexfObj) = length (nr :: nrest)
    ∧ length (g_edges gexfObj) = length (er :: erest).
Proof.
  intros Hread1 Hcsv1 Hread2 Hcsv2 Htab1 Htab2 Hlen1 Hlen2 Hvalid1 Hvalid2 Hlabel Hnt
    Hdisj Hcf Hnf Hef Hser Hwf.
  destruct (valid_schema_elements _ _ _ Hvalid1) as (Hnn1 & Hnu1 & _).
  destruct (valid_schema_elements _ _ _ Hvalid2) as (Hnn2 & Hnu2 & _).
  rewrite convert_run.
  (* the node table *)
  destruct (loadCSV_returns (cfg_nodes config) true h nodeData nr nrest)
    as (h1 & nr' & nrest' & -> & Hk1 & Hn1 & Hcells1 & Hframe1); try done.
  { intros Hin. apply andb_true_iff in Hvalid1 as [_ Hall].
    eapply forallb_forall in Hall; [|by apply list_elem_of_In]. discriminate. }
  (* the edge table *)
  destruct (loadCSV_returns (cfg_edges config) false h1 edgeData er erest)
    as (h2 & er' & erest' & -> & Hk2 & Hn2 & _ & _); try done.
  { rewrite <- Hvalid2. apply valid_schema_agree. intros l Hl. apply Hframe1.
    intros Hin. by apply (Hdisj l). }
  (* the document *)
  rewrite createGexf_run.
  destruct (deriveModel_returns h2 _ Hnn1) as [nm ->].
  destruct (deriveModel_returns h2 _ Hnn2) as [em ->].
  simpl. unfold create. rewrite Hcf. simpl. unfold on_document. rewrite run_bind.
  destruct (addNodes_labelled_returns h2 nr' nrest' (cfg_nodes config)
              (MkGexf (GraphParams (defaultEdgeType (cfg_graphParams config))
                         (meta (cfg_graphParams config)) (Some (nm, em))) [] []))
    as [g1 Hnodes]; try done.
  { by rewrite Hk1. }
  { destruct (last_marker_present _ _ Hlabel) as (i & Hlast & Hi & Hel).
    destruct Htab1 as [_ Htext].
    eapply Forall2_Forall_r; [apply (Hcells1 i); lia|].
    eapply Forall_impl; [exact Htext|]. intros rec Hrec rec' Hc. cbn beta in Hc.
    unfold marker_cell. rewrite Hk1, Hlen1, Hlast.
    rewrite Hel in Hc. simpl in Hc. injection Hc as <-.
    destruct (Hrec (keys nr !!! i)) as [s ->]; [|done].
    apply list_elem_of_lookup_total_2. lia. }
  rewrite Hnodes.
  destruct (addEdges_total h2 er' erest' (cfg_edges config) g1) as [g2 Hedges]; try done.
  { by rewrite Hk2. }
  rewrite Hedges.
  apply addNodes_entries in Hnodes as (? & ? & nodes & _ & -> & Hnodes).
  apply addEdges_entries in Hedges as (? & ? & edges & _ & -> & Hedges).
  assert (length nodes = length (nr :: nrest)) as Hcount1.
  { rewrite <- Hn1. symmetry. by eapply Forall2_length. }
  assert (length edges = length (er :: erest)) as Hcount2.
  { rewrite <- Hn2. symmetry.
    eapply Forall2_length, (edges_built_Forall2 _ _ _ (λ _ _, True)); [done|exact Hedges]. }
  destruct (saveAs config) as [path|].
  - unfold saveGexf. destruct (Hser (MkGexf (GraphParams (defaultEdgeType (cfg_graphParams config))
                         (meta (cfg_graphParams config)) (Some (nm, em))) ([] ++ nodes) ([] ++ edges)))
      as [xml Hxml].
    simpl in *. rewrite Hxml. simpl. rewrite Hwf. by do 2 eexists.
  - by do 2 eexists.
Qed.

(** ** A conversion run again *)

Lemma untyped_attribute_invalid (isNodeSchema : bool) (h : heap) (sch : list schemaEl)
    (l : loc) :
  SObject l ∈ sch →
  spec_target (h !!! l) = Some "attributes" →
  mem_opt (spec_type (h !!! l)) attributeTypes = false →
  valid_schema isNodeSchema h sch = false.
Proof.
  intros Hin Htg Hty. unfold valid_schema. apply andb_false_iff. right.
  apply not_true_is_false. intros Hall.
  eapply forallb_forall in Hall; [|by apply list_elem_of_In].
  cbn [valid_element] in Hall. rewrite Htg in Hall. simpl in Hall. congruence.
Qed.

Lemma loadCSV_returns_valid (config : tableConfig) (isNodeSchema : bool) (h h' : heap)
    (records' : list record) :
  loadCSV config isNodeSchema h = (h', Return records') →
  valid_schema isNodeSchema h (schema config) = true
  ∧ ∀ l, SObject l ∈ schema config → spec_target (h' !!! l) = Some "attributes".
Proof.
  intros Hload.
  apply loadCSV_returns_inv in Hload as (data & r & rest & h1 & _ & _ & Hcheck & Hparse).
  apply checkSchema_step in Hcheck as (_ & _ & Hvalid & _).
  destruct (Hvalid eq_refl) as [Hlen Hv]. split; [done|].
  intros l Hin. apply list_elem_of_lookup in Hin as [coli Hcoli].
  eapply (parseValues_targets r rest (schema config) isNodeSchema h1 h' records' coli l);
    try done.
  rewrite Hlen. by eapply lookup_lt_Some.
Qed.

(** X18. A conversion that has succeeded cannot be repeated on the same
    configuration when one of its schemas holds an object whose type is not
    an attribute type, as a viz declaration written without a type is:
    [parseValues] has made an attribute declaration of it, and the second
    [convert] rejects. *)
Theorem convert_twice (config : config) (h h' : heap) (res : resolution) (l : loc) :
  convert config h = (h', Return res) →
  SObject l ∈ schema (cfg_nodes config) ∨ SObject l ∈ schema (cfg_edges config) →
  mem_opt (spec_type (h !!! l)) attributeTypes = false →
  ∃ h'' x, convert config h' = (h'', Throw x).
Proof.
  intros Hrun Hin Hty. rewrite convert_run in Hrun.
  destruct (loadCSV (cfg_nodes config) true h) as [h1 [nodeRecords|x]] eqn:Hload1;
    [|discriminate].
  destruct (loadCSV (cfg_edges config) false h1) as [h2 [edgeRecords|x]] eqn:Hload2;
    [|discriminate].
  rewrite createGexf_run in Hrun.
  assert (h' = h2) as ->.
  { destruct (_ ≫= _) as [gexfObj|x]; [|discriminate].
    destruct (saveAs config) as [path|]; [|by injection Hrun as <- _].
    destruct (saveGexf gexfObj path); [by injection Hrun as <- _|discriminate]. }
  clear Hrun.
  pose proof (loadCSV_settled _ _ _ _ _ Hload1) as Hset1.
  pose proof (loadCSV_settled _ _ _ _ _ Hload2) as Hset2.
  destruct (loadCSV_returns_valid _ _ _ _ _ Hload1) as [_ Htg1].
  destruct (loadCSV_returns_valid _ _ _ _ _ Hload2) as [_ Htg2].
  assert (Htg : spec_target (h2 !!! l) = Some "attributes").
  { destruct Hin as [Hin|Hin]; [|by apply Htg2]. apply Hset2. by apply Htg1. }
  assert (Hty2 : mem_opt (spec_type (h2 !!! l)) attributeTypes = false).
  { destruct (Hset1 l) as [E1 _], (Hset2 l) as [E2 _]. by rewrite E2, E1. }
  rewrite convert_run.
  destruct (loadCSV (cfg_nodes config) true h2) as [k1 [nodeRecords2|x]] eqn:Hagain1;
    [|by do 2 eexists].
  destruct (loadCSV_returns_valid _ _ _ _ _ Hagain1) as [Hvalid1 _].
  pose proof (loadCSV_settled _ _ _ _ _ Hagain1) as Hset3.
  destruct Hin as [Hin|Hin].
  { by rewrite (untyped_attribute_invalid true h2 _ l) in Hvalid1. }
  destruct (loadCSV (cfg_edges config) false k1) as [k2 [edgeRecords2|x]] eqn:Hagain2;
    [|by do 2 eexists].
  destruct (loadCSV_returns_valid _ _ _ _ _ Hagain2) as [Hvalid2 _].
  rewrite (untyped_attribute_invalid false k1 _ l) in Hvalid2; [done|done| |].
  - by apply Hset3.
  - destruct (Hset3 l) as [E3 _]. by rewrite E3.
Qed.

(** ** The earlier revision of addEdges *)

Lemma addEdges_rev1_loop (h : heap) (sch : list schemaEl) (headers : list string)
    (records : list record) (g g' : Gexf) :
  for_each records (λ record,
    e ← lift (addEdges_entry_rev1 h sch headers record); addEdge e) g = (g', Return tt) →
  ∃ new, g' = MkGexf (g_params g) (g_nodes g) (g_edges g ++ new)
    ∧ Forall2 (λ record e, addEdges_entry_rev1 h sch headers record = Return e) records new.
Proof.
  revert g. induction records as [|record records IH]; intros g Hrun.
  - injection Hrun as <-. exists []. rewrite app_nil_r. by destruct g.
  - cbn [for_each] in Hrun. rewrite !run_bind in Hrun. unfold lift in Hrun.
    destruct (addEdges_entry_rev1 h sch headers record) as [e|x] eqn:Hentry; [|discriminate].
    unfold addEdge in Hrun. destruct (edgeFault g e); [discriminate|].
    apply IH in Hrun as (new & -> & Hall). exists (e :: new). simpl.
    rewrite <- app_assoc. split; [done|]. by constructor.
Qed.

(** X19. The earlier revision of [addEdges], under a schema without the
    marker ['id']: whenever it returns, it has added no entry for the first
    record and one for each of the others, and all of them have the same id,
    ["e"] followed by the number of headers plus one. *)
Theorem addEdges_rev1_one_id (h : heap) (records : list record) (config : tableConfig)
    (g g' : Gexf) :
  SString "id" ∉ schema config →
  addEdges_rev1 h records config g = (g', Return tt) →
  ∃ r rest (new : list edge), records = r :: rest
    ∧ g_edges g' = (g_edges g ++ new)%list
    ∧ length new = length rest
    ∧ Forall (λ e, e_id e = VString ("e" +:+ pretty (length (keys r) + 1)%nat)) new.
Proof.
  intros Hno. unfold addEdges_rev1. rewrite run_bind.
  destruct records as [|r rest]; [discriminate|].
  unfold lift at 1. cbn [first_keys tail]. intros Hrun.
  apply addEdges_rev1_loop in Hrun as (new & -> & Hall).
  exists r, rest, new. split_and!; try done.
  - symmetry. by eapply Forall2_length.
  - clear -Hall Hno. induction Hall as [|rec e recs new Hentry _ IH]; constructor; [|done].
    unfold addEdges_entry_rev1 in Hentry.
    destruct (fold_each _ _ _) as [e0|x] eqn:Hscan; [|discriminate]. simpl in Hentry.
    apply addEdges_scan_id_label in Hscan as [Hid _]. specialize (Hid Hno).
    simpl in Hid. rewrite Hid in Hentry. simpl in Hentry.
    by destruct (e_label e0); injection Hentry as <-.
Qed.

(** ** What a conversion that succeeds needs *)

Lemma has_marker_elem (s : string) (sch : list schemaEl) :
  has_marker s sch = true → SString s ∈ sch.
Proof.
  unfold has_marker. intros (e & Hin & He)%existsb_exists.
  destruct e as [t| | | |]; try discriminate. simpl in He.
  apply String.eqb_eq in He as ->. by apply list_elem_of_In.
Qed.

(** X20. [convert] resolves only if the node schema is valid as it stands,
    with the markers ['id'] and ['label'], and the edge schema has the
    markers ['source'] and ['target'] and not the marker ['type']: without a
    ['label'] column the assembly of the nodes throws, and a ['type'] column
    makes the coercion of the edge table throw, whatever its cells are. *)
Theorem convert_resolves_only_if (config : config) (h h' : heap) (res : resolution) :
  convert config h = (h', Return res) →
  valid_schema true h (schema (cfg_nodes config)) = true
  ∧ SString "id" ∈ schema (cfg_nodes config)
  ∧ SString "label" ∈ schema (cfg_nodes config)
  ∧ SString "source" ∈ schema (cfg_edges config)
  ∧ SString "target" ∈ schema (cfg_edges config)
  ∧ SString "type" ∉ schema (cfg_edges config).
Proof.
  intros Hrun. rewrite convert_run in Hrun.
  destruct (loadCSV (cfg_nodes config) true h) as [h1 [nodeRecords|x]] eqn:Hload1;
    [|discriminate].
  destruct (loadCSV (cfg_edges config) false h1) as [h2 [edgeRecords|x]] eqn:Hload2;
    [|discriminate].
  destruct (createGexf nodeRecords edgeRecords config h2) as [h3 [gexfObj|x]] eqn:Hcreate;
    [|discriminate].
  clear Hrun.
  destruct (loadCSV_returns_valid _ _ _ _ _ Hload1) as [Hvalid1 _].
  destruct (loadCSV_returns_valid _ _ _ _ _ Hload2) as [Hvalid2 _].
  pose proof Hvalid1 as [Hid _]%andb_true_iff.
  apply andb_true_iff in Hvalid2 as [[Hsrc Htgt]%andb_true_iff _].
  split_and!; try (by apply has_marker_elem); [done| |].
  - destruct (decide (SString "label" ∈ schema (cfg_nodes config))) as [|Hno]; [done|].
    exfalso. rewrite createGexf_run in Hcreate. injection Hcreate as _ Hout.
    destruct (deriveModel h2 (schema (cfg_nodes config))) as [nm|x]; [|discriminate].
    destruct (deriveModel h2 (schema (cfg_edges config))) as [em|x]; [|discriminate].
    simpl in Hout. unfold create in Hout. destruct (createFault _); [discriminate|].
    simpl in Hout. unfold on_document in Hout. rewrite run_bind in Hout.
    match type of Hout with
    | context [addNodes ?hh ?recs ?cfg ?g0] =>
        destruct (addNodes_without_label hh recs cfg g0 Hno) as [e He]; rewrite He in Hout
    end.
    discriminate.
  - intros Hin.
    apply loadCSV_returns_inv in Hload2 as (data & r & rest & k & _ & _ & Hcheck & Hparse).
    apply checkSchema_step in Hcheck as (_ & _ & Hvalid & _).
    destruct (Hvalid eq_refl) as [Hlen _].
    apply list_elem_of_lookup in Hin as [coli Hcoli].
    destruct (parseValues_type_marker_throws r rest (schema (cfg_edges config)) false k coli)
      as (k' & x & Hthrow); [|done|].
    + rewrite Hlen. by eapply lookup_lt_Some.
    + rewrite Hthrow in Hparse. discriminate.
Qed.

(** ** The schema once parseValues has run, and the assembly under it *)

(** C2. When [parseValues] returns on a record set whose header count is the
    schema length, every object of the schema, every viz declaration
    included, has the target ['attributes'].  Under that schema the assembly
    takes the attributes branch for every structured column: whenever
    [addNodes] or [addEdges] returns, on any record set, every entry it
    added has no viz map and has, in its attributes map under the id of each
    structured column, the cell of that column (of the last column with that
    id, when several have it; the id ['__proto__'] is no key of a map).  And
    they do return with such entries: [addNodes] on every record set whose
    header count is the schema length and whose records have a cell under
    the last ['label'] column, [addEdges] on every record set whose header
    count is the schema length, when the document layer accepts the entries. *)
Theorem parseValues_retargets_schema (r : record) (rest : list record)
    (sch : list schemaEl) (isNodeSchema : bool) (h h' : heap) (records' : list record) :
  length (keys r) = length sch →
  parseValues (r :: rest) sch isNodeSchema h = (h', Return records') →
  (∀ l, SObject l ∈ sch → spec_target (h' !!! l) = Some "attributes")
  ∧ (∀ records2 config g g',
       schema config = sch →
       addNodes h' records2 config g = (g', Return tt) →
       ∃ r2 rest2 (new : list node), records2 = r2 :: rest2
         ∧ g_nodes g' = (g_nodes g ++ new)%list
         ∧ Forall2 (λ record n,
             stored_as_attributes h' sch (keys r2) record (n_attributes n) (n_viz n))
             records2 new)
  ∧ (∀ records2 config g g',
       schema config = sch →
       addEdges h' records2 config g = (g', Return tt) →
       ∃ r2 rest2 (new : list edge), records2 = r2 :: rest2
         ∧ g_edges g' = (g_edges g ++ new)%list
         ∧ Forall2 (λ record e,
             stored_as_attributes h' sch (keys r2) record (e_attributes e) (e_viz e))
             records2 new)
  ∧ (∀ r2 rest2 config g,
       schema config = sch →
       length (keys r2) = length sch →
       (∀ g n, nodeFault g n = None) →
       Forall (λ rec, marker_cell sch (keys r2) rec "label" ≠ VUndefined) (r2 :: rest2) →
       ∃ g' (new : list node),
         addNodes h' (r2 :: rest2) config g = (g', Return tt)
         ∧ g_nodes g' = (g_nodes g ++ new)%list
         ∧ Forall2 (λ record n,
             stored_as_attributes h' sch (keys r2) record (n_attributes n) (n_viz n))
             (r2 :: rest2) new)
  ∧ (∀ r2 rest2 config g,
       schema config = sch →
       length (keys r2) = length sch →
       (∀ g e, edgeFault g e = None) →
       ∃ g' (new : list edge),
         addEdges h' (r2 :: rest2) config g = (g', Return tt)
         ∧ g_edges g' = (g_edges g ++ new)%list
         ∧ Forall2 (λ record e,
             stored_as_attributes h' sch (keys r2) record (e_attributes e) (e_viz e))
             (r2 :: rest2) new).
Proof.
  intros Hlen Hrun.
  assert (Htg : ∀ l, SObject l ∈ sch → spec_target (h' !!! l) = Some "attributes").
  { intros l Hin. apply list_elem_of_lookup in Hin as [coli Hcoli].
    eapply (parseValues_targets r rest sch isNodeSchema h h' records' coli l); try done.
    rewrite Hlen. by eapply lookup_lt_Some. }
  assert (Hnull : (SNull ∉ sch) ∧ (SUndefined ∉ sch)).
  { rewrite parseValues_run in Hrun. apply parseValues_loop_no_null in Hrun.
    by rewrite visited_same_length, fst_zip in Hrun by lia. }
  destruct Hnull as [Hnn Hnu].
  assert (Hnodes : ∀ records2 config g g',
            schema config = sch →
            addNodes h' records2 config g = (g', Return tt) →
            ∃ r2 rest2 (new : list node), records2 = r2 :: rest2
              ∧ g_nodes g' = (g_nodes g ++ new)%list
              ∧ Forall2 (λ record n,
                  stored_as_attributes h' sch (keys r2) record (n_attributes n) (n_viz n))
                  records2 new).
  { intros records2 config g g' <- Hadd.
    apply addNodes_entries in Hadd as (r2 & rest2 & new & -> & -> & Hall).
    exists r2, rest2, new. split_and!; try done.
    eapply Forall2_impl; [exact Hall|]. intros record n Hentry.
    by eapply addNodes_entry_stored. }
  assert (Hedges : ∀ records2 config g g',
            schema config = sch →
            addEdges h' records2 config g = (g', Return tt) →
            ∃ r2 rest2 (new : list edge), records2 = r2 :: rest2
              ∧ g_edges g' = (g_edges g ++ new)%list
              ∧ Forall2 (λ record e,
                  stored_as_attributes h' sch (keys r2) record (e_attributes e) (e_viz e))
                  records2 new).
  { intros records2 config g g' <- Hadd.
    apply addEdges_entries in Hadd as (r2 & rest2 & new & -> & -> & Hall).
    exists r2, rest2, new. split_and!; try done.
    by eapply edges_built_stored. }
  split_and!; [exact Htg|exact Hnodes|exact Hedges| |].
  - intros r2 rest2 config g Hs Hlen2 Hacc Hlabel.
    destruct (addNodes_labelled_returns h' r2 rest2 config g) as [g' Hadd];
      rewrite ?Hs; try done.
    destruct (Hnodes _ _ _ _ Hs Hadd) as (r3 & rest3 & new & [= <- <-] & Hg & Hall).
    by exists g', new.
  - intros r2 rest2 config g Hs Hlen2 Hacc.
    destruct (addEdges_total h' r2 rest2 config g) as [g' Hadd]; rewrite ?Hs; try done.
    destruct (Hedges _ _ _ _ Hs Hadd) as (r3 & rest3 & new & [= <- <-] & Hg & Hall).
    by exists g', new.
Qed.

(** ** The ids that addEdges makes *)

Lemma edges_built_indexed (h : heap) (sch : list schemaEl) (headers : list string)
    (idi : nat) (records : list record) (new : list edge) :
  SString "id" ∉ sch →
  edges_built h sch headers idi records new →
  ∀ k rec, records !! k = Some rec →
    ∃ e, new !! k = Some e
      ∧ addEdges_entry h sch headers rec (idi + k) = Return (e, S (idi + k)).
Proof.
  intros Hno. revert idi new.
  induction records as [|record records IH]; intros idi [|e new] Hb k rec Hk;
    simpl in Hb; try done.
  destruct Hb as (idi' & Hentry & Hb).
  pose proof (addEdges_entry_synthesized _ _ _ _ _ _ _ Hno Hentry) as (-> & _).
  destruct k as [|k]; simpl in Hk.
  - injection Hk as <-. exists e. by rewrite Nat.add_0_r.
  - destruct (IH (S idi) new Hb k rec Hk) as (e' & He' & Hentry').
    exists e'. split; [done|]. by replace (idi + S k)%nat with (S idi + k)%nat by lia.
Qed.

(** C4. Whenever [addEdges] returns under a schema without the marker ['id'],
    it has added one entry for each record, in the order of the records: the
    entry at index [k] is the entry of the record at index [k], what the
    body of the record loop builds from that record when the counter stands
    at [k + 1], with the cells of that record under the ['source'] and
    ['target'] columns as its source and target, and with the id ["e"]
    followed by [k + 1] in decimal.  These ids are pairwise distinct; and
    without a ['label'] marker the label of every entry is its id. *)
Theorem addEdges_synthesized_ids (h : heap) (records : list record)
    (config : tableConfig) (g g' : Gexf) :
  SString "id" ∉ schema config →
  addEdges h records config g = (g', Return tt) →
  ∃ (r : record) (rest : list record) (new : list edge),
    records = r :: rest
    ∧ g_edges g' = (g_edges g ++ new)%list
    ∧ length new = length records
    ∧ (∀ k rec, records !! k = Some rec →
         ∃ e, new !! k = Some e
           ∧ e_id e = VString ("e" +:+ pretty (S k))
           ∧ e_source e = marker_cell (schema config) (keys r) rec "source"
           ∧ e_target e = marker_cell (schema config) (keys r) rec "target"
           ∧ addEdges_entry h (schema config) (keys r) rec (S k) = Return (e, S (S k)))
    ∧ (∀ k e, new !! k = Some e → e_id e = VString ("e" +:+ pretty (S k)))
    ∧ NoDup (e_id <$> new)
    ∧ (SString "label" ∉ schema config → Forall (λ e, e_label e = e_id e) new).
Proof.
  intros Hno Hrun.
  apply addEdges_entries in Hrun as (r & rest & new & -> & -> & Hb).
  pose proof (edges_built_indexed _ _ _ _ _ _ Hno Hb) as Hindexed.
  apply edges_built_synthesized in Hb as (Hlen & Hids & Hlabels); [|done].
  exists r, rest, new. split_and!; try done.
  - intros k rec Hk. destruct (Hindexed k rec Hk) as (e & He & Hentry).
    exists e. pose proof (addEdges_entry_fields _ _ _ _ _ _ _ Hentry) as Hf.
    cbn zeta in Hf. destruct Hf as (Hs & Ht & _).
    split_and!; try done. by apply Hids.
  - assert (e_id <$> new = (λ k, VString ("e" +:+ pretty (S k))) <$> seq 0 (length new)) as ->.
    { apply list_eq. intros k. rewrite !list_lookup_fmap.
      destruct (new !! k) as [e|] eqn:Hk; simpl.
      - rewrite lookup_seq_lt by (by eapply lookup_lt_Some). simpl.
        by rewrite (Hids k e Hk).
      - rewrite lookup_seq_ge by (by apply lookup_ge_None). done. }
    apply NoDup_fmap_2; [|apply NoDup_seq].
    intros k1 k2 [= Heq]. apply pretty_nat_inj in Heq. lia.
Qed.
End Program.

(** * Runs of the program

    To run the program, what it takes from outside is fixed as follows: a
    number is kept as the text it was read from, the document layer accepts
    every entry, two files hold the tables of the example, the parser gives
    the records of each, and writing a file succeeds. *)

Definition text_number : Type := string.

Definition text_parse (v : @value text_number) : text_number :=
  match v with
  | VString s => s
  | VNumber n => n
  | _ => "NaN"
  end.

Definition text_show (n : text_number) : string := n.

Definition accept_params (params : @graphParams) : option exn := None.
Definition accept_node (g : @Gexf text_number) (n : @node text_number) : option exn := None.
Definition accept_edge (g : @Gexf text_number) (e : @edge text_number) : option exn := None.

Definition cell (header text : string) : string * @value text_number :=
  (header, VString text).

(** The node table and the edge table of the example. *)
Definition example_node_1 : @record text_number :=
  [cell "id" "n1"; cell "label" "Node One"; cell "score" "3.14"; cell "group" "a"].
Definition example_node_2 : @record text_number :=
  [cell "id" "n2"; cell "label" "Node Two"; cell "score" "2.5"; cell "group" "b"].
Definition example_nodes : list (@record text_number) :=
  [example_node_1; example_node_2].

Definition example_edge_1 : @record text_number :=
  [cell "from" "n1"; cell "to" "n2"; cell "kind" "friend"; cell "width" "2.0"].
Definition example_edge_2 : @record text_number :=
  [cell "from" "n2"; cell "to" "n1"; cell "kind" "friend"; cell "width" "1.0"].
Definition example_edge_3 : @record text_number :=
  [cell "from" "n1"; cell "to" "n1"; cell "kind" "self"; cell "width" "0.5"].
Definition example_edges : list (@record text_number) :=
  [example_edge_1; example_edge_2; example_edge_3].

(** The schemas of the example: the objects 0 and 1 belong to the node
    schema, the objects 2 and 3 to the edge schema. *)
Definition example_heap : heap :=
  list_to_map
    [ (0%nat, SpecObj (Some "attributes") (Some "attrib_1") None (Some "float"));
      (1%nat, SpecObj (Some "attributes") None None (Some "string"));
      (2%nat, SpecObj (Some "attributes") None None (Some "string"));
      (3%nat, SpecObj (Some "viz") (Some "thickness") None None) ].

Definition example_node_schema : list schemaEl :=
  [SString "id"; SString "label"; SObject 0; SObject 1].
Definition example_edge_schema : list schemaEl :=
  [SString "source"; SString "target"; SObject 2; SObject 3].

Definition example_config : config :=
  Config (GraphParams (Some "directed")
            [("description", "An example graph."); ("creator", "csv2gexf")] None)
         (TableConfig "csv/nodes.csv" example_node_schema (ParseOptions true []))
         (TableConfig "csv/edges.csv" example_edge_schema (ParseOptions true []))
         (Some "result.gexf").

Definition example_resolve (path : string) : string := "/work/" +:+ path.

Definition example_readFile (path : string) : outcome string :=
  if String.eqb path "/work/csv/nodes.csv" then Return "nodes"
  else if String.eqb path "/work/csv/edges.csv" then Return "edges"
  else Throw (Error ("ENOENT: no such file or directory, open '" +:+ path +:+ "'")).

Definition example_parse (data : string) (options : parseOptions)
    : outcome (list (@record text_number)) :=
  if String.eqb data "nodes" then Return example_nodes
  else if String.eqb data "edges" then Return example_edges
  else Throw (Error "Invalid data").

Definition example_serialize (g : @Gexf text_number) : outcome string :=
  Return "<gexf></gexf>".
Definition example_formatXml (xml : string) : string := xml.
Definition example_writeFile (path data : string) : option exn := None.

(** [convert] with everything from outside fixed as above. *)
Definition example_convert : config → M (@resolution text_number) :=
  convert text_parse text_parse text_show accept_params accept_node accept_edge
    example_resolve example_readFile example_parse example_serialize
    example_formatXml example_writeFile.

(** A table with a boolean column, and a table of five columns. *)
Definition flag_record_1 : @record text_number :=
  [cell "id" "n1"; cell "active" "TRUE"].
Definition flag_rest : list (@record text_number) :=
  [ [cell "id" "n2"; cell "active" "1"];
    [cell "id" "n3"; cell "active" "yes"] ].
Definition flag_records : list (@record text_number) := flag_record_1 :: flag_rest.
Definition flag_schema : list schemaEl := [SString "id"; SObject 0].
Definition flag_heap : heap :=
  list_to_map [ (0%nat, SpecObj (Some "attributes") None None (Some "boolean")) ].

Definition wide_record : @record text_number :=
  [cell "id" "n1"; cell "label" "Node One"; cell "score" "3.14"; cell "group" "a";
   cell "extra" "x"].

(** The heap of the example once [parseValues] has run on the edge table. *)
Definition example_heap_coerced : heap :=
  list_to_map
    [ (0%nat, SpecObj (Some "attributes") (Some "attrib_1") None (Some "float"));
      (1%nat, SpecObj (Some "attributes") None None (Some "string"));
      (2%nat, SpecObj (Some "attributes") None None (Some "string"));
      (3%nat, SpecObj (Some "attributes") (Some "thickness") None None) ].

(** A node table with a viz column, and its schema before and after
    [parseValues]. *)
Definition viz_node_1 : @record text_number :=
  [cell "id" "n1"; cell "label" "Node One"; cell "colour" "red"].
Definition viz_node_2 : @record text_number :=
  [cell "id" "n2"; cell "label" "Node Two"; cell "colour" "blue"].
Definition viz_nodes : list (@record text_number) := [viz_node_1; viz_node_2].
Definition viz_node_schema : list schemaEl := [SString "id"; SString "label"; SObject 0].
Definition viz_heap : heap :=
  list_to_map [ (0%nat, SpecObj (Some "viz") (Some "color") None None) ].
Definition viz_heap_coerced : heap :=
  list_to_map [ (0%nat, SpecObj (Some "attributes") (Some "color") None None) ].
Definition viz_node_config : tableConfig :=
  TableConfig "csv/nodes.csv" viz_node_schema (ParseOptions true []).

Definition empty_document : @Gexf text_number :=
  MkGexf (GraphParams (Some "directed") [] None) [] [].

(** ** The statements above at these inputs *)

Lemma checkSchema_length_mismatch_witness :
  checkSchema [wide_record] example_node_schema true example_heap =
    (example_heap,
     Throw (Error "There are 5 columns and 4 schema elements in the node schema. These numbers should be equal.")).
Proof.
  exact (checkSchema_length_mismatch wide_record [] example_node_schema
           true example_heap ltac:(simpl; lia)).
Defined.

Lemma checkSchema_required_markers_witness :
  (∃ msg, checkSchema example_nodes [SString "label"; SString "label"; SObject 0; SObject 1]
            true example_heap = (example_heap, Throw (Error msg)))
  ∧ (∃ msg, checkSchema example_edges [SString "source"; SString "id"; SObject 2; SObject 3]
              false example_heap = (example_heap, Throw (Error msg))).
Proof.
  split.
  - apply (checkSchema_required_markers example_node_1 [example_node_2] _ true).
    by apply (bool_decide_unpack _).
  - apply (checkSchema_required_markers example_edge_1 [example_edge_2; example_edge_3]
             _ false).
    right. by apply (bool_decide_unpack _).
Defined.

Lemma checkSchema_valid_defaults_witness :
  ∃ h', checkSchema example_nodes example_node_schema true example_heap = (h', Return tt)
    ∧ (∀ coli l, example_node_schema !! coli = Some (SObject l) →
         (∀ j, (j < coli)%nat → example_node_schema !! j ≠ Some (SObject l)) →
         h' !!! l = with_defaults (["id"; "label"; "score"; "group"] !!! coli)
                      (example_heap !!! l))
    ∧ (∀ l, SObject l ∉ example_node_schema → h' !! l = example_heap !! l)
    ∧ checkSchema example_nodes example_node_schema true h' = (h', Return tt).
Proof.
  apply (checkSchema_valid_defaults example_node_1 [example_node_2]
           example_node_schema true example_heap).
  - reflexivity.
  - reflexivity.
Defined.

Lemma parseValues_boolean_cells_witness :
  Forall2 (λ rec rec', ∃ s, get rec "active" = VString s
             ∧ get rec' "active" = VBoolean (ci_eqb s "true" || String.eqb s "1"))
    flag_records
    [ [cell "id" "n1"; ("active", VBoolean true)];
      [cell "id" "n2"; ("active", VBoolean true)];
      [cell "id" "n3"; ("active", VBoolean false)] ].
Proof.
  apply (parseValues_boolean_cells text_parse text_parse text_show
           flag_record_1 flag_rest flag_schema true flag_heap flag_heap _ 1%nat 0%nat).
  - by apply (bool_decide_unpack _).
  - simpl. lia.
  - reflexivity.
  - reflexivity.
  - vm_compute. reflexivity.
Defined.

Lemma parseValues_retargets_schema_witness :
  (∀ l, SObject l ∈ viz_node_schema →
     spec_target (viz_heap_coerced !!! l) = Some "attributes")
  ∧ (∀ records2 config g g',
       schema config = viz_node_schema →
       addNodes accept_node viz_heap_coerced records2 config g = (g', Return tt) →
       ∃ r2 rest2 (new : list node), records2 = r2 :: rest2
         ∧ g_nodes g' = (g_nodes g ++ new)%list
         ∧ Forall2 (λ record n,
             stored_as_attributes viz_heap_coerced viz_node_schema (keys r2)
               record (n_attributes n) (n_viz n)) records2 new)
  ∧ (∀ records2 config g g',
       schema config = viz_node_schema →
       addEdges accept_edge viz_heap_coerced records2 config g = (g', Return tt) →
       ∃ r2 rest2 (new : list edge), records2 = r2 :: rest2
         ∧ g_edges g' = (g_edges g ++ new)%list
         ∧ Forall2 (λ record e,
             stored_as_attributes viz_heap_coerced viz_node_schema (keys r2)
               record (e_attributes e) (e_viz e)) records2 new)
  ∧ (∀ r2 rest2 config g,
       schema config = viz_node_schema →
       length (keys r2) = length viz_node_schema →
       (∀ g n, accept_node g n = None) →
       Forall (λ rec, marker_cell viz_node_schema (keys r2) rec "label" ≠ VUndefined)
         (r2 :: rest2) →
       ∃ g' (new : list node),
         addNodes accept_node viz_heap_coerced (r2 :: rest2) config g = (g', Return tt)
         ∧ g_nodes g' = (g_nodes g ++ new)%list
         ∧ Forall2 (λ record n,
             stored_as_attributes viz_heap_coerced viz_node_schema (keys r2)
               record (n_attributes n) (n_viz n)) (r2 :: rest2) new)
  ∧ (∀ r2 rest2 config g,
       schema config = viz_node_schema →
       length (keys r2) = length viz_node_schema →
       (∀ g e, accept_edge g e = None) →
       ∃ g' (new : list edge),
         addEdges accept_edge viz_heap_coerced (r2 :: rest2) config g = (g', Return tt)
         ∧ g_edges g' = (g_edges g ++ new)%list
         ∧ Forall2 (λ record e,
             stored_as_attributes viz_heap_coerced viz_node_schema (keys r2)
               record (e_attributes e) (e_viz e)) (r2 :: rest2) new).
Proof.
  apply (parseValues_retargets_schema text_parse text_parse text_show
           accept_node accept_edge viz_node_1 [viz_node_2]
           viz_node_schema true viz_heap viz_heap_coerced viz_nodes).
  - reflexivity.
  - vm_compute. reflexivity.
Defined.

Lemma addEdges_synthesized_ids_witness :
  ∃ g', addEdges accept_edge example_heap_coerced example_edges
          (cfg_edges example_config) empty_document = (g', Return tt)
    ∧ ∃ (r : record) (rest : list record) (new : list edge),
        example_edges = r :: rest
        ∧ g_edges g' = (g_edges empty_document ++ new)%list
        ∧ length new = length example_edges
        ∧ (∀ k rec, example_edges !! k = Some rec →
             ∃ e, new !! k = Some e
               ∧ e_id e = VString ("e" +:+ pretty (S k))
               ∧ e_source e = marker_cell example_edge_schema (keys r) rec "source"
               ∧ e_target e = marker_cell example_edge_schema (keys r) rec "target"
               ∧ addEdges_entry example_heap_coerced example_edge_schema (keys r) rec (S k)
                 = Return (e, S (S k)))
        ∧ (∀ k e, new !! k = Some e → e_id e = VString ("e" +:+ pretty (S k)))
        ∧ NoDup (e_id <$> new)
        ∧ (SString "label" ∉ schema (cfg_edges example_config) →
           Forall (λ e, e_label e = e_id e) new).
Proof.
  eexists. split.
  - vm_compute. reflexivity.
  - apply (addEdges_synthesized_ids accept_edge example_heap_coerced
             example_edges (cfg_edges example_config) empty_document).
    + by apply (bool_decide_unpack _).
    + vm_compute. reflexivity.
Defined.

(** The three edges of the example, in the order of their records: the
    edge from [n1] to [n2] is [e1], the edge from [n2] to [n1] is [e2], and
    the loop at [n1] is [e3]. *)
Example addEdges_example_order :
  ∃ g', addEdges accept_edge example_heap_coerced example_edges
          (cfg_edges example_config) empty_document = (g', Return tt)
    ∧ (λ e, (e_id e, e_source e, e_target e)) <$> g_edges g'
      = [ (VString "e1", VString "n1", VString "n2");
          (VString "e2", VString "n2", VString "n1");
          (VString "e3", VString "n1", VString "n1") ].
Proof. eexists. split; vm_compute; reflexivity. Qed.

(** A node table with a viz column: once [parseValues] has run, the entry
    of each node holds the colour in its attributes and has no viz map. *)
Example addNodes_stores_viz_cell :
  parseValues text_parse text_parse text_show viz_nodes viz_node_schema true viz_heap
  = (viz_heap_coerced, Return viz_nodes)
  ∧ addNodes accept_node viz_heap_coerced viz_nodes viz_node_config empty_document
    = (MkGexf (g_params empty_document)
         [ Node (VString "n1") (VString "Node One") (Some {[ "color" := VString "red" ]}) None;
           Node (VString "n2") (VString "Node Two") (Some {[ "color" := VString "blue" ]}) None ]
         [],
       Return tt).
Proof. split; vm_compute; reflexivity. Qed.

(** ** Where the program departs from the specification *)

(** C1. An edge table whose viz column ['shape'] holds ['hexagon'], and a
    node table alike: [parseValues] returns the records as they are, and the
    viz declaration has become an attribute declaration. *)
Theorem parseValues_shape_unchecked :
  let records := [[cell "from" "n1"; cell "to" "n2"; cell "shape" "hexagon"]] in
  let nodes := [[cell "id" "n1"; cell "shape" "hexagon"]] in
  let viz := SpecObj (Some "viz") (Some "shape") None None in
  let attr := SpecObj (Some "attributes") (Some "shape") None None in
  parseValues text_parse text_parse text_show records
    [SString "source"; SString "target"; SObject 0] false {[ 0%nat := viz ]}
    = ({[ 0%nat := attr ]}, Return records)
  ∧ parseValues text_parse text_parse text_show nodes
      [SString "id"; SObject 0] true {[ 0%nat := viz ]}
    = ({[ 0%nat := attr ]}, Return nodes).
Proof. split; vm_compute; reflexivity. Qed.

(** C3. A node table under the schema [['id']], which has no ['label']
    marker: [addNodes] throws the reference error of [id] at the first
    record and adds nothing. *)
Theorem addNodes_label_default_throws :
  addNodes accept_node ∅ [[cell "id" "n1"]; [cell "id" "n2"]]
    (TableConfig "csv/nodes.csv" [SString "id"] (ParseOptions true [])) empty_document
  = (empty_document, Throw (ReferenceError "id")).
Proof. vm_compute. reflexivity. Qed.

(** C5. The configuration of the example, whose [saveAs] is ['result.gexf']:
    every stage succeeds and [convert] resolves to the document, not to the
    path. *)
Theorem convert_saveAs_resolves_document :
  saveAs example_config = Some "result.gexf"
  ∧ ∃ h' gexfObj,
      example_convert example_config example_heap = (h', Return (Document gexfObj))
      ∧ length (g_nodes gexfObj) = 2%nat ∧ length (g_edges gexfObj) = 3%nat.
Proof. split; [reflexivity|]. do 2 eexists. vm_compute. split_and!; reflexivity. Qed.

(** C6. An edge table whose ['type'] column holds ['directed'] in every
    record: [parseValues] throws the reference error of [ctxt]. *)
Theorem parseValues_type_column_throws :
  parseValues text_parse text_parse text_show
    [[cell "from" "n1"; cell "to" "n2"; cell "kind" "directed"];
     [cell "from" "n2"; cell "to" "n1"; cell "kind" "directed"]]
    [SString "source"; SString "target"; SString "type"] false ∅
  = (∅, Throw (ReferenceError "ctxt")).
Proof. vm_compute. reflexivity. Qed.

Lemma parseValues_returns_witness :
  ∃ h' records', parseValues text_parse text_parse text_show example_edges
                   example_edge_schema false example_heap = (h', Return records').
Proof.
  apply (parseValues_returns text_parse text_parse text_show
           example_edge_1 [example_edge_2; example_edge_3] example_edge_schema false
           example_heap).
  - by apply (bool_decide_unpack _).
  - reflexivity.
  - reflexivity.
  - repeat constructor; intros hd Hhd;
      repeat (apply elem_of_cons in Hhd as [->|Hhd]; [by eexists|]);
      by apply elem_of_nil in Hhd.
Defined.

Lemma addEdges_returns_witness :
  ∃ g', addEdges accept_edge example_heap_coerced example_edges
          (cfg_edges example_config) empty_document = (g', Return tt).
Proof.
  apply (addEdges_returns accept_edge example_heap_coerced
           example_edge_1 [example_edge_2; example_edge_3] (cfg_edges example_config)
           empty_document).
  - reflexivity.
  - reflexivity.
  - by apply (bool_decide_unpack _).
  - by apply (bool_decide_unpack _).
Defined.

Lemma deriveModel_attributes_witness :
  deriveModel example_heap_coerced example_edge_schema =
    Return [ModelEntry None (Some "string") None;
            ModelEntry (Some "thickness") None None].
Proof.
  apply (deriveModel_attributes example_heap_coerced example_edge_schema).
  by apply (bool_decide_unpack _).
Defined.

(** ** The earlier revision on the same tables *)

(** [parseColumn] of the earlier revision leaves the first record as it was. *)
Example parseColumn_rev1_first_record :
  parseColumn_rev1 flag_records "active" parseBoolean =
    Return [ [cell "id" "n1"; cell "active" "TRUE"];
             [cell "id" "n2"; ("active", VBoolean true)];
             [cell "id" "n3"; ("active", VBoolean false)] ].
Proof. reflexivity. Qed.

(** [addEdges] of the earlier revision adds no entry for the first record and
    gives the same id to every other record. *)
Example addEdges_rev1_ids :
  ∃ g', addEdges_rev1 accept_edge example_heap_coerced example_edges
          (cfg_edges example_config) empty_document = (g', Return tt)
    ∧ e_id <$> g_edges g' = [VString "e5"; VString "e5"].
Proof. eexists. split; vm_compute; reflexivity. Qed.

(** * [formatXml] of [lib/utils.js]

    The function that [saveGexf] applies to the serialized document.  A
    string is the sequence of its characters, each of them one code unit
    below 256; the line terminators that [.] does not match are then the
    line feed and the carriage return. *)

Definition CR : ascii := "013"%char.
Definition LF : ascii := "010"%char.
Definition CRLF : string := String CR (String LF "").

(** ** Regular expressions, matched by derivatives *)

Inductive regex : Type :=
  | Void
  | Eps
  | Class (p : ascii → bool)
  | Cat (r s : regex)
  | Alt (r s : regex)
  | Star (r : regex).

Fixpoint nullable (r : regex) : bool :=
  match r with
  | Void => false
  | Eps => true
  | Class _ => false
  | Cat r s => nullable r && nullable s
  | Alt r s => nullable r || nullable s
  | Star _ => true
  end.

Fixpoint deriv (c : ascii) (r : regex) : regex :=
  match r with
  | Void => Void
  | Eps => Void
  | Class p => if p c then Eps else Void
  | Cat r s => if nullable r then Alt (Cat (deriv c r) s) (deriv c s) else Cat (deriv c r) s
  | Alt r s => Alt (deriv c r) (deriv c s)
  | Star r => Cat (deriv c r) (Star r)
  end.

(** Whether the whole of a string is in the language of an expression. *)
Fixpoint matches (r : regex) (s : string) : bool :=
  match s with
  | EmptyString => nullable r
  | String c s' => matches (deriv c r) s'
  end.

Definition lit (c : ascii) : regex := Class (Ascii.eqb c).
Definition other_than (c : ascii) : regex := Class (λ d, negb (Ascii.eqb c d)).
Definition any : regex := Class (λ _, true).
(** [.] *)
Definition dot : regex := Class (λ c, negb (Ascii.eqb c LF || Ascii.eqb c CR)).
(** [\w] *)
Definition word : regex :=
  Class (λ c, let n := nat_of_ascii c in
              ((48 <=? n) && (n <=? 57) || (65 <=? n) && (n <=? 90)
               || (97 <=? n) && (n <=? 122) || (n =? 95))%nat).
Definition Plus (r : regex) : regex := Cat r (Star r).

(** [node.match(/.+<\/\w[^>]*>$/)]: the match may start anywhere and ends
    with the string. *)
Definition closes_on_line : regex :=
  Cat (Star any)
    (Cat (Plus dot)
       (Cat (lit "<") (Cat (lit "/") (Cat word (Cat (Star (other_than ">")) (lit ">")))))).

(** [node.match(/^<\/\w/)]: the match starts the string and may end anywhere. *)
Definition closing_tag : regex :=
  Cat (lit "<") (Cat (lit "/") (Cat word (Star any))).

(** [node.match(/^<\w[^>]*[^\/]>.*$/)] *)
Definition opening_tag : regex :=
  Cat (lit "<")
    (Cat word (Cat (Star (other_than ">")) (Cat (other_than "/") (Cat (lit ">") (Star dot))))).

(** ** The function *)

(** [xml.replace(reg, '$1\r\n$2$3')], where [reg] matches, everywhere in the
    string, a [>], the [<] right after it and the slashes that follow, each
    in a group of its own: a line break between every [>] and the [<] that
    follows it.  The slashes of the third group are put back as they were,
    and none of them can start the next match. *)
Fixpoint break_tags (xml : string) : string :=
  match xml with
  | EmptyString => EmptyString
  | String c rest =>
      match rest with
      | String d rest' =>
          if Ascii.eqb c ">" && Ascii.eqb d "<"
          then String c (String CR (String LF (String d (break_tags rest'))))
          else String c (break_tags rest)
      | EmptyString => String c EmptyString
      end
  end.

(** [xml.split('\r\n')] *)
Fixpoint split_lines (xml : string) : list string :=
  match xml with
  | EmptyString => [EmptyString]
  | String c rest =>
      match rest with
      | String d rest' =>
          if Ascii.eqb c CR && Ascii.eqb d LF then EmptyString :: split_lines rest'
          else match split_lines rest with
               | piece :: pieces => String c piece :: pieces
               | [] => [String c EmptyString]
               end
      | EmptyString => [String c EmptyString]
      end
  end.

(** [padding]: two spaces for each level. *)
Fixpoint padding (pad : nat) : string :=
  match pad with
  | O => ""
  | S pad' => "  " +:+ padding pad'
  end.

(** The loop over the nodes, from a value of [pad] on; what it returns is
    what it appends to [formatted]. *)
Fixpoint format_nodes (nodes : list string) (pad : nat) : string :=
  match nodes with
  | [] => ""
  | node :: nodes' =>
      let '(pad, indent) :=
        if matches closes_on_line node then (pad, 0%nat)
        else if matches closing_tag node then
          ((if negb (pad =? 0)%nat then (pad - 1)%nat else pad), 0%nat)
        else if matches opening_tag node then (pad, 1%nat)
        else (pad, 0%nat) in
      padding pad +:+ node +:+ CRLF +:+ format_nodes nodes' (pad + indent)%nat
  end.

Definition formatXml (xml : string) : string :=
  format_nodes (split_lines (break_tags xml)) 0.

(** ** What formatXml keeps *)

Definition is_space (c : ascii) : bool :=
  Ascii.eqb c " " || Ascii.eqb c CR || Ascii.eqb c LF.

(** A string without its spaces, carriage returns and line feeds. *)
Fixpoint squeeze (s : string) : string :=
  match s with
  | EmptyString => EmptyString
  | String c s' => if is_space c then squeeze s' else String c (squeeze s')
  end.

(** Whether [a] stands somewhere in a string with [b] right after it. *)
Fixpoint has_pair (a b : ascii) (s : string) : bool :=
  match s with
  | EmptyString => false
  | String c rest =>
      match rest with
      | String d _ => Ascii.eqb c a && Ascii.eqb d b || has_pair a b rest
      | EmptyString => false
      end
  end.

Lemma squeeze_app (s t : string) : squeeze (s +:+ t) = squeeze s +:+ squeeze t.
Proof.
  induction s as [|c s IH]; [done|]. simpl. rewrite IH. by destruct (is_space c).
Qed.

Lemma squeeze_padding (pad : nat) : squeeze (padding pad) = "".
Proof. induction pad as [|pad IH]; [done|]. exact IH. Qed.

(** An induction on strings that reaches the tail of the tail. *)
Lemma string_pair_ind (P : string → Prop) :
  P "" →
  (∀ c, P (String c "")) →
  (∀ c d s, P s → P (String d s) → P (String c (String d s))) →
  ∀ s, P s.
Proof.
  intros H0 H1 H2. assert (∀ s, P s ∧ ∀ c, P (String c s)) as Hboth.
  { induction s as [|d s [IH1 IH2]]; [split; [done|apply H1]|].
    split; [apply IH2|]. intros c. apply H2; [done|apply IH2]. }
  intros s. apply Hboth.
Qed.

Lemma break_tags_step (c d : ascii) (s : string) :
  break_tags (String c (String d s)) =
    if Ascii.eqb c ">" && Ascii.eqb d "<"
    then String c (String CR (String LF (String d (break_tags s))))
    else String c (break_tags (String d s)).
Proof. reflexivity. Qed.

Lemma split_lines_step (c d : ascii) (s : string) :
  split_lines (String c (String d s)) =
    if Ascii.eqb c CR && Ascii.eqb d LF then "" :: split_lines s
    else match split_lines (String d s) with
         | piece :: pieces => String c piece :: pieces
         | [] => [String c ""]
         end.
Proof. reflexivity. Qed.

Lemma has_pair_step (a b c d : ascii) (s : string) :
  has_pair a b (String c (String d s)) =
    (Ascii.eqb c a && Ascii.eqb d b || has_pair a b (String d s)).
Proof. reflexivity. Qed.

Lemma squeeze_cons (c : ascii) (s : string) :
  squeeze (String c s) = if is_space c then squeeze s else String c (squeeze s).
Proof. reflexivity. Qed.

Lemma squeeze_break_tags (xml : string) : squeeze (break_tags xml) = squeeze xml.
Proof.
  induction xml as [|c|c d s IH1 IH2] using string_pair_ind; [done|done|].
  rewrite break_tags_step.
  destruct (Ascii.eqb c ">" && Ascii.eqb d "<") eqn:E.
  - apply andb_true_iff in E as [->%Ascii.eqb_eq ->%Ascii.eqb_eq].
    rewrite !squeeze_cons, IH1. reflexivity.
  - rewrite !(squeeze_cons c), IH2. reflexivity.
Qed.

(** The pieces of [split], one after the other. *)
Definition pieces_text (nodes : list string) : string :=
  foldr (λ node acc, node +:+ acc) "" nodes.

Lemma split_lines_cons (xml : string) :
  ∃ piece pieces, split_lines xml = piece :: pieces.
Proof.
  induction xml as [|c|c d s IH1 IH2] using string_pair_ind; [by do 2 eexists..|].
  rewrite split_lines_step. destruct (Ascii.eqb c CR && Ascii.eqb d LF); [by do 2 eexists|].
  destruct IH2 as (piece & pieces & ->). by do 2 eexists.
Qed.

Lemma squeeze_split_lines (xml : string) :
  squeeze (pieces_text (split_lines xml)) = squeeze xml.
Proof.
  induction xml as [|c|c d s IH1 IH2] using string_pair_ind; [done|done|].
  rewrite split_lines_step.
  destruct (Ascii.eqb c CR && Ascii.eqb d LF) eqn:E.
  - apply andb_true_iff in E as [->%Ascii.eqb_eq ->%Ascii.eqb_eq].
    rewrite !squeeze_cons. exact IH1.
  - destruct (split_lines_cons (String d s)) as (piece & pieces & Hs).
    rewrite Hs in IH2 |- *. rewrite (squeeze_cons c (String d s)), <- IH2.
    reflexivity.
Qed.

Lemma squeeze_format_nodes (nodes : list string) (pad : nat) :
  squeeze (format_nodes nodes pad) = squeeze (pieces_text nodes).
Proof.
  revert pad. induction nodes as [|node nodes IH]; intros pad; [done|].
  cbn [format_nodes pieces_text foldr].
  destruct (if matches closes_on_line node then _ else _) as [pad' indent].
  rewrite !squeeze_app, squeeze_padding, IH. reflexivity.
Qed.

(** X21. [formatXml] changes white space only: without their spaces, carriage
    returns and line feeds, its result and its argument are the same
    string. *)
Theorem formatXml_keeps_text (xml : string) :
  squeeze (formatXml xml) = squeeze xml.
Proof.
  unfold formatXml. by rewrite squeeze_format_nodes, squeeze_split_lines, squeeze_break_tags.
Qed.

Lemma break_tags_none (xml : string) :
  has_pair ">" "<" xml = false → break_tags xml = xml.
Proof.
  induction xml as [|c|c d s IH1 IH2] using string_pair_ind; [done|done|].
  rewrite has_pair_step, break_tags_step. intros [E Hrest]%orb_false_iff.
  rewrite E. f_equal. by apply IH2.
Qed.

Lemma split_lines_none (xml : string) :
  has_pair CR LF xml = false → split_lines xml = [xml].
Proof.
  induction xml as [|c|c d s IH1 IH2] using string_pair_ind; [done|done|].
  rewrite has_pair_step, split_lines_step. intros [E Hrest]%orb_false_iff.
  rewrite E, (IH2 Hrest). reflexivity.
Qed.

(** X22. A text in which no [>] is followed at once by [<], and no carriage
    return by a line feed, comes back as it is, with one line break after
    it. *)
Theorem formatXml_one_line (xml : string) :
  has_pair ">" "<" xml = false →
  has_pair CR LF xml = false →
  formatXml xml = xml +:+ CRLF.
Proof.
  intros Htags Hlines. unfold formatXml.
  rewrite (break_tags_none xml Htags), (split_lines_none xml Hlines).
  cbn [format_nodes].
  assert (∀ s : string, s +:+ "" = s) as Hnil.
  { induction s as [|a s IH]; [done|].
    change (String a s +:+ "") with (String a (s +:+ "")). by rewrite IH. }
  rewrite Hnil.
  by repeat case_match; simplify_eq.
Qed.

(** A document of nested elements, line by line. *)
Example formatXml_nested :
  formatXml "<gexf><nodes><node/></nodes><label>x</label></gexf>"
  = "<gexf>" +:+ CRLF
    +:+ "  <nodes>" +:+ CRLF
    +:+ "    <node/>" +:+ CRLF
    +:+ "  </nodes>" +:+ CRLF
    +:+ "  <label>x</label>" +:+ CRLF
    +:+ "</gexf>" +:+ CRLF.
Proof. vm_compute. reflexivity. Qed.

(** * More runs of the program *)

(** The heap of the example once [checkSchema] has run on the node table,
    and once [convert] has run. *)
Definition example_heap_checked : heap :=
  list_to_map
    [ (0%nat, SpecObj (Some "attributes") (Some "attrib_1") (Some "attrib_1") (Some "float"));
      (1%nat, SpecObj (Some "attributes") (Some "group") (Some "group") (Some "string"));
      (2%nat, SpecObj (Some "attributes") None None (Some "string"));
      (3%nat, SpecObj (Some "viz") (Some "thickness") None None) ].

Definition example_heap_converted : heap :=
  list_to_map
    [ (0%nat, SpecObj (Some "attributes") (Some "attrib_1") (Some "attrib_1") (Some "float"));
      (1%nat, SpecObj (Some "attributes") (Some "group") (Some "group") (Some "string"));
      (2%nat, SpecObj (Some "attributes") (Some "kind") (Some "kind") (Some "string"));
      (3%nat, SpecObj (Some "attributes") (Some "thickness") None None) ].

(** A node table whose third column is declared with the type ['number']. *)
Definition untyped_record : @record text_number :=
  [cell "id" "n1"; cell "score" "3.14"; cell "rank" "7"].
Definition untyped_schema : list schemaEl := [SString "id"; SObject 0; SObject 1].
Definition untyped_heap : heap :=
  list_to_map
    [ (0%nat, SpecObj (Some "attributes") None None (Some "float"));
      (1%nat, SpecObj (Some "attributes") None None (Some "number")) ].

(** An edge table with a ['type'] column. *)
Definition typed_edge_1 : @record text_number :=
  [cell "from" "n1"; cell "to" "n2"; cell "kind" "directed"].
Definition typed_edge_2 : @record text_number :=
  [cell "from" "n2"; cell "to" "n1"; cell "kind" "directed"].
Definition typed_schema : list schemaEl :=
  [SString "source"; SString "target"; SString "type"].

(** A parser that finds no data row. *)
Definition header_only_parse (data : string) (options : parseOptions)
    : outcome (list (@record text_number)) :=
  Return [].

(** [convert] with [formatXml] as [lib/utils.js] defines it. *)
Definition example_convert_formatted : config → M (@resolution text_number) :=
  convert text_parse text_parse text_show accept_params accept_node accept_edge
    example_resolve example_readFile example_parse example_serialize
    formatXml example_writeFile.

(** ** The statements at these inputs *)

Lemma checkSchema_returns_iff_valid_witness :
  ∃ h', checkSchema example_nodes example_node_schema true example_heap = (h', Return tt).
Proof.
  apply (proj2 (checkSchema_returns_iff_valid example_node_1 [example_node_2]
                  example_node_schema true example_heap)).
  split; reflexivity.
Defined.

Lemma checkSchema_keeps_given_witness :
  spec_target (example_heap_checked !!! 0%nat) = spec_target (example_heap !!! 0%nat)
  ∧ spec_type (example_heap_checked !!! 0%nat) = spec_type (example_heap !!! 0%nat)
  ∧ (∀ i, spec_id (example_heap !!! 0%nat) = Some i →
          spec_id (example_heap_checked !!! 0%nat) = Some i)
  ∧ (∀ t, spec_title (example_heap !!! 0%nat) = Some t →
          spec_title (example_heap_checked !!! 0%nat) = Some t)
  ∧ (spec_target (example_heap !!! 0%nat) ≠ Some "attributes" →
     example_heap_checked !!! 0%nat = example_heap !!! 0%nat)
  ∧ (SObject 0 ∉ example_node_schema →
     example_heap_checked !! 0%nat = example_heap !! 0%nat).
Proof.
  apply (checkSchema_keeps_given example_nodes example_node_schema true example_heap
           example_heap_checked (Return tt) 0%nat).
  vm_compute. reflexivity.
Defined.

Lemma checkSchema_throws_Error_witness :
  ∃ x, checkSchema [untyped_record] untyped_schema true untyped_heap
       = (<[1%nat := SpecObj (Some "attributes") (Some "rank") (Some "rank") (Some "number")]>
            (<[0%nat := SpecObj (Some "attributes") (Some "score") (Some "score") (Some "float")]>
               untyped_heap),
          Throw x)
    ∧ is_Error x.
Proof.
  eexists. split.
  - vm_compute. reflexivity.
  - eapply (checkSchema_throws_Error untyped_record [] untyped_schema true untyped_heap).
    + by apply (bool_decide_unpack _).
    + vm_compute. reflexivity.
Defined.

Lemma checkSchema_first_invalid_witness :
  ∃ h' x, checkSchema [untyped_record] untyped_schema true untyped_heap = (h', Throw x)
    ∧ (SObject 1 ≠ SNull → is_Error x)
    ∧ ∀ l, h' !!! l = defaults_along (take 3 (zip untyped_schema (keys untyped_record))) l
                        (untyped_heap !!! l).
Proof.
  apply (checkSchema_first_invalid untyped_record [] untyped_schema true untyped_heap
           2%nat (SObject 1)); reflexivity.
Defined.

Lemma parseValues_cells_witness :
  (∀ coli, (coli < length (keys flag_record_1))%nat →
     Forall2 (λ rec rec', coercion text_parse text_parse flag_heap (schema_at flag_schema coli)
                            (get rec (keys flag_record_1 !!! coli))
                          = Return (get rec' (keys flag_record_1 !!! coli)))
       flag_records
       [ [cell "id" "n1"; ("active", VBoolean true)];
         [cell "id" "n2"; ("active", VBoolean true)];
         [cell "id" "n3"; ("active", VBoolean false)] ])
  ∧ (∀ hd, hd ∉ keys flag_record_1 →
       Forall2 (λ rec rec', get rec' hd = get rec hd) flag_records
         [ [cell "id" "n1"; ("active", VBoolean true)];
           [cell "id" "n2"; ("active", VBoolean true)];
           [cell "id" "n3"; ("active", VBoolean false)] ])
  ∧ Forall2 (λ rec rec', keys flag_record_1 ⊆ keys rec → keys rec' = keys rec) flag_records
      [ [cell "id" "n1"; ("active", VBoolean true)];
        [cell "id" "n2"; ("active", VBoolean true)];
        [cell "id" "n3"; ("active", VBoolean false)] ].
Proof.
  apply (parseValues_cells text_parse text_parse text_show flag_record_1 flag_rest
           flag_schema true flag_heap flag_heap).
  - by apply (bool_decide_unpack _).
  - vm_compute. reflexivity.
Defined.

Lemma parseValues_keeps_declarations_witness :
  (example_heap_coerced !!! 3%nat = example_heap !!! 3%nat
   ∨ example_heap_coerced !!! 3%nat = with_target (example_heap !!! 3%nat) "attributes")
  ∧ (SObject 3 ∉ example_edge_schema → example_heap_coerced !! 3%nat = example_heap !! 3%nat).
Proof.
  eapply (parseValues_keeps_declarations text_parse text_parse text_show example_edges
            example_edge_schema false example_heap example_heap_coerced _ 3%nat).
  vm_compute. reflexivity.
Defined.

Lemma parseValues_no_Error_witness :
  parseValues text_parse text_parse text_show [typed_edge_1; typed_edge_2]
    typed_schema false ∅ = (∅, Throw (ReferenceError "ctxt"))
  ∧ ¬ is_Error (ReferenceError "ctxt").
Proof.
  split; [vm_compute; reflexivity|].
  apply (parseValues_no_Error text_parse text_parse text_show [typed_edge_1; typed_edge_2]
           typed_schema false ∅ ∅).
  vm_compute. reflexivity.
Defined.

Lemma deriveModel_after_parseValues_witness :
  deriveModel example_heap_coerced example_edge_schema
  = Return (omap (entry_of example_heap) example_edge_schema).
Proof.
  eapply (deriveModel_after_parseValues text_parse text_parse text_show
            example_edge_1 [example_edge_2; example_edge_3] example_edge_schema false
            example_heap example_heap_coerced).
  - reflexivity.
  - vm_compute. reflexivity.
Defined.

Lemma addNodes_returns_iff_labelled_witness :
  ((∃ g', addNodes accept_node example_heap_converted example_nodes
            (cfg_nodes example_config) empty_document = (g', Return tt))
   ↔ Forall (λ rec, marker_cell example_node_schema (keys example_node_1) rec "label"
                    ≠ VUndefined) example_nodes)
  ∧ ∀ g', addNodes accept_node example_heap_converted example_nodes
            (cfg_nodes example_config) empty_document = (g', Return tt) →
      ∃ new : list node,
        g' = MkGexf (g_params empty_document) (g_nodes empty_document ++ new)
               (g_edges empty_document)
        ∧ Forall2 (λ rec n,
            n_id n = marker_cell example_node_schema (keys example_node_1) rec "id"
            ∧ n_label n = marker_cell example_node_schema (keys example_node_1) rec "label")
            example_nodes new.
Proof.
  apply (addNodes_returns_iff_labelled accept_node example_heap_converted
           example_node_1 [example_node_2] (cfg_nodes example_config) empty_document).
  - reflexivity.
  - reflexivity.
  - by apply (bool_decide_unpack _).
  - by apply (bool_decide_unpack _).
Defined.

Lemma addEdges_marker_fields_witness :
  ∃ g', addEdges accept_edge example_heap_converted example_edges
          (cfg_edges example_config) empty_document = (g', Return tt)
    ∧ ∃ r rest (new : list edge), example_edges = r :: rest
        ∧ g' = MkGexf (g_params empty_document) (g_nodes empty_document)
                 (g_edges empty_document ++ new)
        ∧ Forall2 (λ rec e,
            e_source e = marker_cell example_edge_schema (keys r) rec "source"
            ∧ e_target e = marker_cell example_edge_schema (keys r) rec "target"
            ∧ e_type e = marker_cell example_edge_schema (keys r) rec "type"
            ∧ e_weight e = marker_cell example_edge_schema (keys r) rec "weight"
            ∧ (marker_cell example_edge_schema (keys r) rec "id" ≠ VUndefined →
               e_id e = marker_cell example_edge_schema (keys r) rec "id")
            ∧ e_label e = (if marker_cell example_edge_schema (keys r) rec "label"
                             is VUndefined then e_id e
                           else marker_cell example_edge_schema (keys r) rec "label"))
            example_edges new.
Proof.
  eexists. split.
  - vm_compute. reflexivity.
  - apply (addEdges_marker_fields accept_edge example_heap_converted example_edges
             (cfg_edges example_config) empty_document).
    vm_compute. reflexivity.
Defined.

Lemma createGexf_document_witness :
  ∃ gexfObj,
    createGexf accept_params accept_node accept_edge example_nodes example_edges
      example_config example_heap_converted = (example_heap_converted, Return gexfObj)
    ∧ example_heap_converted = example_heap_converted
    ∧ (∃ nodeModel edgeModel,
         deriveModel example_heap_converted example_node_schema = Return nodeModel
         ∧ deriveModel example_heap_converted example_edge_schema = Return edgeModel
         ∧ g_params gexfObj
           = GraphParams (Some "directed")
               [("description", "An example graph."); ("creator", "csv2gexf")]
               (Some (nodeModel, edgeModel)))
    ∧ (∃ r rest, example_nodes = r :: rest
         ∧ Forall2 (λ rec n,
             n_id n = marker_cell example_node_schema (keys r) rec "id"
             ∧ n_label n = marker_cell example_node_schema (keys r) rec "label")
             example_nodes (g_nodes gexfObj))
    ∧ (∃ r rest, example_edges = r :: rest
         ∧ Forall2 (λ rec e,
             e_source e = marker_cell example_edge_schema (keys r) rec "source"
             ∧ e_target e = marker_cell example_edge_schema (keys r) rec "target")
             example_edges (g_edges gexfObj)).
Proof.
  eexists. split.
  - vm_compute. reflexivity.
  - apply (createGexf_document accept_params accept_node accept_edge example_nodes
             example_edges example_config example_heap_converted example_heap_converted).
    vm_compute. reflexivity.
Defined.

Lemma loadCSV_empty_table_witness :
  loadCSV text_parse text_parse text_show example_resolve example_readFile
    header_only_parse (cfg_nodes example_config) true example_heap
  = (example_heap, Throw (TypeError "Cannot convert undefined or null to object")).
Proof.
  apply (loadCSV_empty_table text_parse text_parse text_show example_resolve
           example_readFile header_only_parse (cfg_nodes example_config) true
           example_heap "nodes"); reflexivity.
Defined.

Lemma convert_saveAs_step_witness :
  example_convert_formatted example_config example_heap =
    match example_convert_formatted (without_saveAs example_config) example_heap with
    | (h', Return (Document gexfObj)) =>
        (h', match example_serialize gexfObj with
             | Throw x => Throw x
             | Return xml =>
                 match example_writeFile "result.gexf" (formatXml xml) with
                 | Some _ => Throw (Reason "Failed to save the Gexf file. ${err}")
                 | None => Return (Document gexfObj)
                 end
             end)
    | other => other
    end.
Proof.
  apply (convert_saveAs_step text_parse text_parse text_show accept_params
           accept_node accept_edge example_resolve example_readFile example_parse
           example_serialize formatXml example_writeFile
           example_config example_heap "result.gexf").
  reflexivity.
Defined.

Lemma example_nodes_table : table example_node_1 [example_node_2].
Proof.
  split; [by apply (bool_decide_unpack _)|].
  repeat constructor; intros hd Hhd;
    repeat (apply elem_of_cons in Hhd as [->|Hhd]; [by eexists|]);
    by apply elem_of_nil in Hhd.
Defined.

Lemma example_edges_table : table example_edge_1 [example_edge_2; example_edge_3].
Proof.
  split; [by apply (bool_decide_unpack _)|].
  repeat constructor; intros hd Hhd;
    repeat (apply elem_of_cons in Hhd as [->|Hhd]; [by eexists|]);
    by apply elem_of_nil in Hhd.
Defined.

Lemma convert_resolves_witness :
  ∃ h' gexfObj,
    example_convert_formatted example_config example_heap = (h', Return (Document gexfObj))
    ∧ length (g_nodes gexfObj) = length example_nodes
    ∧ length (g_edges gexfObj) = length example_edges.
Proof.
  apply (convert_resolves text_parse text_parse text_show accept_params
           accept_node accept_edge example_resolve example_readFile example_parse
           example_serialize formatXml example_writeFile
           example_config example_heap "nodes" "edges"
           example_node_1 example_edge_1 [example_node_2] [example_edge_2; example_edge_3]);
    try reflexivity.
  - exact example_nodes_table.
  - exact example_edges_table.
  - by apply (bool_decide_unpack _).
  - intros l Hin Hin'. simpl in Hin, Hin'.
    repeat (apply elem_of_cons in Hin as [Hin|Hin]; [simplify_eq|]);
      try (by apply elem_of_nil in Hin);
      repeat (apply elem_of_cons in Hin' as [Hin'|Hin']; [simplify_eq|]);
      by apply elem_of_nil in Hin'.
  - intros g. by eexists.
Defined.

Lemma convert_twice_witness :
  ∃ h'' x, example_convert example_config example_heap_converted = (h'', Throw x).
Proof.
  eapply (convert_twice text_parse text_parse text_show accept_params
            accept_node accept_edge example_resolve example_readFile example_parse
            example_serialize example_formatXml example_writeFile
            example_config example_heap example_heap_converted _ 3%nat).
  - vm_compute. reflexivity.
  - right. by apply (bool_decide_unpack _).
  - reflexivity.
Defined.

Lemma formatXml_one_line_witness : formatXml "<gexf/>" = "<gexf/>" +:+ CRLF.
Proof. apply (formatXml_one_line "<gexf/>"); reflexivity. Defined.

Lemma addEdges_rev1_one_id_witness :
  ∃ g', addEdges_rev1 accept_edge example_heap_coerced example_edges
          (cfg_edges example_config) empty_document = (g', Return tt)
    ∧ ∃ r rest (new : list edge), example_edges = r :: rest
        ∧ g_edges g' = (g_edges empty_document ++ new)%list
        ∧ length new = length rest
        ∧ Forall (λ e, e_id e = VString ("e" +:+ pretty (length (keys r) + 1)%nat)) new.
Proof.
  eexists. split.
  - vm_compute. reflexivity.
  - apply (addEdges_rev1_one_id accept_edge example_heap_coerced example_edges
             (cfg_edges example_config) empty_document).
    + by apply (bool_decide_unpack _).
    + vm_compute. reflexivity.
Defined.

Lemma convert_resolves_only_if_witness :
  ∃ h' res, example_convert example_config example_heap = (h', Return res)
    ∧ valid_schema true example_heap example_node_schema = true
    ∧ SString "id" ∈ example_node_schema
    ∧ SString "label" ∈ example_node_schema
    ∧ SString "source" ∈ example_edge_schema
    ∧ SString "target" ∈ example_edge_schema
    ∧ SString "type" ∉ example_edge_schema.
Proof.
  do 2 eexists. split.
  - vm_compute. reflexivity.
  - eapply (convert_resolves_only_if text_parse text_parse text_show accept_params
              accept_node accept_edge example_resolve example_readFile example_parse
              example_serialize example_formatXml example_writeFile
              example_config example_heap).
    vm_compute. reflexivity.
Defined.
